(** * Institutional PDF chatbot: indexing and hybrid retrieval core

    A shallow embedding of [chatbot_optimized_0615.py]
    (class [InstitutionalPDFChatbot]): the sentence chunker
    ([smart_chunk_text]), the index build
    ([create_chunks_and_embeddings], [_create_tfidf_index]), the on-disk
    cache ([is_cache_valid], [load_from_cache], [save_to_cache]) and the
    retriever ([hybrid_search]); around them the text extraction
    ([extract_text_from_pdf], [load_institutional_pdfs]), the loading of
    the embedding model ([_load_embedding_model]), the answer
    ([generate_answer]) and the start of the application
    ([initialize_chatbot]).

    Conventions.
    - A Python [str] is a [string]; its characters are the code points
      below 256.
    - Python exceptions are explicit: fallible code lives in the monad
      [Exc], [try ... except] is [try_except].
    - External collaborators (the embedding model, scikit-learn's TF-IDF
      fit, [numpy.argsort], [hashlib], [datetime]) are the fields of the
      record [Services]; the NLTK sentence tokenizer is an argument of
      the chunker, a PDF file is the list of its page texts, the
      completion endpoint a function of the user message.  What is
      assumed of them is stated where it is used.
    - Floating-point scores are idealised as rationals ([Q]); rounding is
      not modelled. *)

From Stdlib Require Import Strings.String Strings.Ascii Lists.List Arith.Arith
  Bool.Bool micromega.Lia micromega.Lqa QArith.QArith Numbers.DecimalString
  Sorting.Permutation Sorting.Sorted.
From stdpp Require Import base option list sorting gmap strings.

Import ListNotations.
Local Open Scope string_scope.
Local Open Scope nat_scope.
Local Open Scope list_scope.

(* ===================================================================== *)
(** * Python [str] and [list] primitives used by the source               *)
(* ===================================================================== *)

Module PyStr.

(** [str.isspace] on one character, restricted to code points < 256:
    TAB..CR (9-13), FS..US (28-31), SPACE (32), NEL (133), NBSP (160).
    [str.strip()], [str.split()] and the regex class [\s] all use it. *)
Definition isspace (c : ascii) : bool :=
  let n := nat_of_ascii c in
  ((9 <=? n) && (n <=? 13)) || ((28 <=? n) && (n <=? 32))
  || (n =? 133) || (n =? 160).

Definition is_empty (s : string) : bool :=
  match s with EmptyString => true | String _ _ => false end.

(** [s.lstrip()] *)
Fixpoint lstrip (s : string) : string :=
  match s with
  | EmptyString => EmptyString
  | String c r => if isspace c then lstrip r else s
  end.

(** [s.rstrip()] *)
Fixpoint rstrip (s : string) : string :=
  match s with
  | EmptyString => EmptyString
  | String c r =>
      match rstrip r with
      | EmptyString => if isspace c then EmptyString else String c EmptyString
      | r' => String c r'
      end
  end.

(** [s.strip()] *)
Definition strip (s : string) : string := rstrip (lstrip s).

(** [s.split()]: maximal runs of non-whitespace characters. [cur] is the
    word being read. *)
Fixpoint split_go (cur : string) (s : string) : list string :=
  match s with
  | EmptyString => if is_empty cur then [] else [cur]
  | String c r =>
      if isspace c
      then (if is_empty cur then split_go EmptyString r
            else cur :: split_go EmptyString r)
      else split_go (cur ++ String c EmptyString) r
  end.

Definition split (s : string) : list string := split_go EmptyString s.

(** [sep.join(parts)] *)
Definition join (sep : string) (parts : list string) : string :=
  String.concat sep parts.

(** [l[-k:]].  Python reads [l[-0:]] as [l[0:]], the whole list, and a
    [k] beyond the length also gives the whole list. *)
Definition tail_slice {A} (k : nat) (l : list A) : list A :=
  if k =? 0 then l else skipn (length l - k) l.

(** [sum(len(s) for s in l)] *)
Definition total_len (l : list string) : nat :=
  fold_right (fun s acc => String.length s + acc) 0 l.

(** The regex fallback [re.split(r'(?<=[.!?])\s+', text)]: a separator
    is a maximal whitespace run that directly follows one of [. ! ?].
    [cur] is the piece being read, [after_term] says that the previous
    character is a terminator, [in_sep] that a separator is being
    consumed. *)
Definition is_terminator (c : ascii) : bool :=
  (c =? ".")%char || (c =? "!")%char || (c =? "?")%char.

Fixpoint re_split_go (cur : string) (after_term in_sep : bool) (s : string)
  : list string :=
  match s with
  | EmptyString => [cur]
  | String c r =>
      if isspace c then
        if in_sep then re_split_go cur false true r
        else if after_term then cur :: re_split_go EmptyString false true r
        else re_split_go (cur ++ String c EmptyString) false false r
      else re_split_go (cur ++ String c EmptyString) (is_terminator c) false r
  end.

Definition re_split_sentences (text : string) : list string :=
  re_split_go EmptyString false false text.

(** [c * n] for a one-character string, to write long inputs. *)
Fixpoint replicate_char (n : nat) (c : ascii) : string :=
  match n with 0 => EmptyString | S m => String c (replicate_char m c) end.

End PyStr.

(* ===================================================================== *)
(** * Configuration ([class Config])                                      *)
(* ===================================================================== *)

Module Config.
Definition CHUNK_SIZE : nat := 800.
Definition CHUNK_OVERLAP : nat := 150.
Definition SEARCH_RESULTS : nat := 13.
Definition CACHE_DURATION_DAYS : Z := 90.
Definition BATCH_SIZE : nat := 32.
Definition MAX_RETRIES : nat := 2.
End Config.

(** A chunk record [{'text': ..., 'source': ..., 'chunk_id': ...}]. *)
Record Chunk := mkChunk {
  text : string;
  source : string;
  chunk_id : nat
}.

(* ===================================================================== *)
(** * The chunker ([smart_chunk_text])                                    *)
(* ===================================================================== *)

Module Chunker.
Import PyStr.

Section WithSizes.
(** [Config.CHUNK_SIZE] and [Config.CHUNK_OVERLAP]; the chunker is
    written over them and instantiated below. *)
Variable chunk_size : nat.
Variable chunk_overlap : nat.

(** The "Add overlap" block (lines 274-277 and 300-303):
    [chunks[-1]['text'].split()], its last
    [min(CHUNK_OVERLAP//5, len(words))] words, joined and put in front
    of [chunk_text]. *)
Definition overlap_words (prev_text : string) : list string :=
  let prev_chunk_words := split prev_text in
  tail_slice (Nat.min (chunk_overlap / 5) (length prev_chunk_words))
         prev_chunk_words.

Definition add_overlap (chunks : list Chunk) (chunk_text : string) : string :=
  match last chunks with
  | Some prev =>
      if 0 <? chunk_overlap
      then join " " (overlap_words (text prev)) ++ " " ++ chunk_text
      else chunk_text
  | None => chunk_text
  end.

(** [chunks.append({...})] with [chunk_id = len(chunks)]. *)
Definition emit (src : string) (chunks : list Chunk) (current_chunk : list string)
  : list Chunk :=
  chunks ++ [mkChunk (add_overlap chunks (join " " current_chunk)) src
                     (length chunks)].

(** Loop state: [chunks], [current_chunk], [current_length]. *)
Record LoopState := mkLoop {
  chunks : list Chunk;
  current_chunk : list string;
  current_length : nat
}.

(** The sentences that seed the chunk opened after a split
    ([current_chunk[-min(2, len(current_chunk)):]]). *)
Definition overlap_sentences (current_chunk : list string) : list string :=
  tail_slice (Nat.min 2 (length current_chunk)) current_chunk.

(** One iteration of [for sentence in sentences]. *)
Definition step (src : string) (st : LoopState) (sentence : string) : LoopState :=
  let sentence := strip sentence in
  if is_empty sentence then st
  else
    let sentence_length := String.length sentence in
    if (chunk_size <? current_length st + sentence_length)
       && negb (bool_decide (current_chunk st = []))
    then
      let chunks' := emit src (chunks st) (current_chunk st) in
      if 0 <? chunk_overlap
      then
        let cc := overlap_sentences (current_chunk st) ++ [sentence] in
        mkLoop chunks' cc (total_len cc)
      else mkLoop chunks' [sentence] sentence_length
    else
      mkLoop (chunks st) (current_chunk st ++ [sentence])
             (current_length st + sentence_length).

Definition run_loop (src : string) (sentences : list string) (st : LoopState)
  : LoopState :=
  fold_left (step src) sentences st.

(** "Add the last chunk". *)
Definition finish (src : string) (st : LoopState) : list Chunk :=
  if bool_decide (current_chunk st = []) then chunks st
  else emit src (chunks st) (current_chunk st).

Definition chunk_sentences (sentences : list string) (src : string)
  : list Chunk :=
  finish src (run_loop src sentences (mkLoop [] [] 0)).

(** ** Ghost trace: the core of every emitted chunk

    [chunk_cores] runs the same loop and records, instead of the
    chunk dictionaries, the value of [current_chunk] at each
    emission: the sentences of the chunk before the word overlap is
    put in front.  [chunk_sentences_assemble] below shows that the
    chunks of the source are exactly these cores with [emit] applied
    from left to right. *)
Record CoreState := mkCore {
  cores : list (list string);
  cur : list string;
  cur_len : nat
}.

Definition core_step (st : CoreState) (sentence : string) : CoreState :=
  let sentence := strip sentence in
  if is_empty sentence then st
  else
    let sentence_length := String.length sentence in
    if (chunk_size <? cur_len st + sentence_length)
       && negb (bool_decide (cur st = []))
    then
      let cores' := cores st ++ [cur st] in
      if 0 <? chunk_overlap
      then
        let cc := overlap_sentences (cur st) ++ [sentence] in
        mkCore cores' cc (total_len cc)
      else mkCore cores' [sentence] sentence_length
    else
      mkCore (cores st) (cur st ++ [sentence]) (cur_len st + sentence_length).

Definition core_finish (st : CoreState) : list (list string) :=
  if bool_decide (cur st = []) then cores st else cores st ++ [cur st].

Definition chunk_cores (sentences : list string) : list (list string) :=
  core_finish (fold_left core_step sentences (mkCore [] [] 0)).

Definition assemble (src : string) (cs : list (list string)) : list Chunk :=
  fold_left (emit src) cs [].

(** The sentences the loop really adds: stripped, empty ones skipped. *)
Definition clean (sentences : list string) : list string :=
  List.filter (fun s => negb (is_empty s)) (List.map strip sentences).

(** The continuation seed a core starts with, read off the previous
    core, and what remains of each core once its seed is removed. *)
Definition seed_of (prev : list string) : list string :=
  if 0 <? chunk_overlap then overlap_sentences prev else [].

Fixpoint fresh_from (prev : list string) (cs : list (list string))
  : list (list string) :=
  match cs with
  | [] => []
  | c :: rest => skipn (length (seed_of prev)) c :: fresh_from c rest
  end.

Definition fresh_parts (cs : list (list string)) : list (list string) :=
  fresh_from [] cs.

Definition last_core (prev : list string) (cs : list (list string))
  : list string :=
  default prev (last cs).

(** The core before the [k]-th one ([[]] before the first). *)
Definition prev_core (cs : list (list string)) (k : nat) : list string :=
  match k with
  | 0 => []
  | S j => default [] (cs !! j)
  end.

(** [core_ok prev c]: the core [c], emitted after the core [prev], is the
    continuation seed read off [prev] followed by at least one new
    sentence, and its sentences fit the target size unless exactly one
    sentence is new. *)
Definition core_ok (prev c : list string) : Prop :=
  exists f, c = seed_of prev ++ f /\ f <> [] /\
            (total_len c <= chunk_size \/ length f = 1).

Fixpoint cores_ok (prev : list string) (cs : list (list string)) : Prop :=
  match cs with
  | [] => True
  | c :: rest => core_ok prev c /\ cores_ok c rest
  end.

(** The reading of "every sentence exactly once": the cores, one after
    the other, are the sentences of the input. *)
Definition covers_exactly_once (sentences : list string)
    (cs : list (list string)) : Prop :=
  concat cs = sentences.

(** The source loop and the ghost loop in lock step. *)
Definition sim (src : string) (st : LoopState) (g : CoreState) : Prop :=
  chunks st = assemble src (cores g) /\
  current_chunk st = cur g /\
  current_length st = cur_len g.

(** A string with a character that is not whitespace. *)
Definition nonblank (s : string) : Prop := lstrip s <> EmptyString.

(** What holds of the ghost state after the sentences [done]. *)
Record trace_inv (done : list string) (g : CoreState) : Prop := {
  inv_cores : cores_ok [] (cores g);
  inv_len : cur_len g = total_len (cur g);
  inv_nonblank_cur : Forall nonblank (cur g);
  inv_nonblank : Forall (Forall nonblank) (cores g);
  inv_first : cur g = [] -> cores g = [];
  inv_fresh : exists f,
      cur g = seed_of (last_core [] (cores g)) ++ f /\
      concat (fresh_parts (cores g)) ++ f = clean done /\
      (cur g <> [] -> f <> []) /\
      (total_len (cur g) <= chunk_size \/ length f = 1 \/ cur g = [])
}.

(** [sent_tokenize] is NLTK's; [None] stands for a raised exception,
    on which the source falls back to the regex split. *)
Definition sentences_of (sent_tokenize : string -> option (list string))
    (txt : string) : list string :=
  match sent_tokenize txt with
  | Some sentences => sentences
  | None => re_split_sentences txt
  end.

Definition smart_chunk_text_with
    (sent_tokenize : string -> option (list string))
    (txt : string) (src : string) : list Chunk :=
  chunk_sentences (sentences_of sent_tokenize txt) src.

End WithSizes.

(** [smart_chunk_text] at the configured sizes. *)
Definition smart_chunk_text :=
  smart_chunk_text_with Config.CHUNK_SIZE Config.CHUNK_OVERLAP.

End Chunker.

(* ===================================================================== *)
(** * Exceptions                                                          *)
(* ===================================================================== *)

(** The exception classes the source tells apart ([FileNotFoundError],
    caught on its own in [load_from_cache]) and those raised by the
    modelled library calls. *)
Inductive exn :=
| FileNotFoundError
| OSError
| ValueError
| IndexError
| TypeError
| AttributeError
| NotFittedError
| RuntimeError.

(** A computation that returns or raises. *)
Inductive Exc (A : Type) :=
| Ok (a : A)
| Raise (e : exn).
Arguments Ok {A} a.
Arguments Raise {A} e.

Definition exc_bind {A B} (m : Exc A) (k : A -> Exc B) : Exc B :=
  match m with
  | Ok a => k a
  | Raise e => Raise e
  end.

Notation "'do' x <- m ; k" := (exc_bind m (fun x => k))
  (at level 10, x name, m at level 100, k at level 200, only parsing).

(** [try: body  except Exception: handler]. *)
Definition try_except {A} (body : Exc A) (handler : exn -> Exc A) : Exc A :=
  match body with
  | Ok a => Ok a
  | Raise e => handler e
  end.

(** [[f(x) for x in l]], stopping at the first exception. *)
Fixpoint exc_map {A B} (f : A -> Exc B) (l : list A) : Exc (list B) :=
  match l with
  | [] => Ok []
  | x :: rest => do y <- f x; do ys <- exc_map f rest; Ok (y :: ys)
  end.

(** [l[i]] for a non-negative index. *)
Definition py_index {A} (l : list A) (i : nat) : Exc A :=
  match l !! i with
  | Some x => Ok x
  | None => Raise IndexError
  end.

(* ===================================================================== *)
(** * External collaborators                                              *)
(* ===================================================================== *)

(** A fitted scikit-learn vectorizer carries a vocabulary; the object
    made by [TfidfVectorizer(...)] is not fitted yet. *)
Inductive TfidfVectorizer (Vocab : Type) :=
| Unfitted
| Fitted (v : Vocab).
Arguments Unfitted {Vocab}.
Arguments Fitted {Vocab} v.

(** What the chatbot calls and does not implement.  [Vec] is a numeric
    row (an embedding, or a row of the TF-IDF matrix), [Vocab] a fitted
    vocabulary.
    - [encode_batch i attempt batch]: [embedding_model.encode(batch, ...)]
      for the batch that starts at chunk [i], at retry number [attempt];
    - [encode_query attempt question]: the same call on the question;
    - [cosine q row]: one entry of [util.cos_sim(q, chunk_embeddings)[0]];
    - [fit_transform texts]: [TfidfVectorizer(...).fit_transform(texts)];
    - [transform v question]: [vectorizer.transform([question])];
    - [kw_cosine q row]: one entry of [cosine_similarity(q, matrix)[0]];
    - [argsort]: [numpy.argsort];
    - [md5_hexdigest], [fromisoformat], [isoformat]: [hashlib] and
      [datetime]; a time is a number of microseconds, and
      [fromisoformat] gives [None] where the source raises (a string
      that is no date, or one with a time zone, which cannot be
      subtracted from [datetime.now()]). *)
Record Services (Vec Vocab : Type) := mkServices {
  encode_batch : nat -> nat -> list string -> Exc (list Vec);
  encode_query : nat -> string -> Exc Vec;
  cosine : Vec -> Vec -> Exc Q;
  fit_transform : list string -> Exc (Vocab * list Vec);
  transform : Vocab -> string -> Exc Vec;
  kw_cosine : Vec -> Vec -> Exc Q;
  argsort : list Q -> list nat;
  md5_hexdigest : string -> string;
  fromisoformat : string -> option Z;
  isoformat : Z -> string
}.
Arguments encode_batch {Vec Vocab} _ _ _ _.
Arguments encode_query {Vec Vocab} _ _ _.
Arguments cosine {Vec Vocab} _ _ _.
Arguments fit_transform {Vec Vocab} _ _.
Arguments transform {Vec Vocab} _ _ _.
Arguments kw_cosine {Vec Vocab} _ _ _.
Arguments argsort {Vec Vocab} _ _.
Arguments md5_hexdigest {Vec Vocab} _ _.
Arguments fromisoformat {Vec Vocab} _ _.
Arguments isoformat {Vec Vocab} _ _.

(** The contract of [numpy.argsort]: the indices of the array, each
    once, so that the values read in that order do not decrease.  The
    default [kind] promises nothing on the order of equal values. *)
Definition score_at (scores : list Q) (i : nat) : Q := nth i scores 0%Q.

Definition score_le (scores : list Q) (i j : nat) : Prop :=
  (score_at scores i <= score_at scores j)%Q.

Definition argsort_spec (scores : list Q) (idx : list nat) : Prop :=
  Permutation idx (seq 0 (length scores)) /\
  StronglySorted (score_le scores) idx.

(** [numpy.argsort(..., kind='stable')]: insertion of every index, from
    the last to the first, before the first index of a value that is not
    smaller.  It is also what the default sort does on short arrays. *)
Fixpoint insert_index (scores : list Q) (i : nat) (sorted : list nat) : list nat :=
  match sorted with
  | [] => [i]
  | j :: rest =>
      if Qle_bool (score_at scores i) (score_at scores j)
      then i :: sorted
      else j :: insert_index scores i rest
  end.

Definition stable_argsort (scores : list Q) : list nat :=
  fold_right (insert_index scores) [] (seq 0 (length scores)).

(* ===================================================================== *)
(** * The chatbot object                                                  *)
(* ===================================================================== *)

Module Bot.
Import PyStr.

Section WithServices.
Context {Vec Vocab : Type}.
Variable S : Services Vec Vocab.

(** The attributes of [InstitutionalPDFChatbot] that the core uses.
    [pdf_contents] is a [dict] read in insertion order. *)
Record Chatbot := mkChatbot {
  pdf_contents : list (string * string);
  text_chunks : list Chunk;
  chunk_embeddings : option (list Vec);
  tfidf_vectorizer : option (TfidfVectorizer Vocab);
  tfidf_matrix : option (list Vec)
}.

(** The object after [__init__]. *)
Definition fresh_chatbot : Chatbot := mkChatbot [] [] None None None.

Definition set_pdf_contents (v : list (string * string)) (st : Chatbot) :=
  mkChatbot v (text_chunks st) (chunk_embeddings st)
            (tfidf_vectorizer st) (tfidf_matrix st).
Definition set_text_chunks (v : list Chunk) (st : Chatbot) :=
  mkChatbot (pdf_contents st) v (chunk_embeddings st)
            (tfidf_vectorizer st) (tfidf_matrix st).
Definition set_chunk_embeddings (v : option (list Vec)) (st : Chatbot) :=
  mkChatbot (pdf_contents st) (text_chunks st) v
            (tfidf_vectorizer st) (tfidf_matrix st).
Definition set_tfidf_vectorizer (v : option (TfidfVectorizer Vocab))
    (st : Chatbot) :=
  mkChatbot (pdf_contents st) (text_chunks st) (chunk_embeddings st)
            v (tfidf_matrix st).
Definition set_tfidf_matrix (v : option (list Vec)) (st : Chatbot) :=
  mkChatbot (pdf_contents st) (text_chunks st) (chunk_embeddings st)
            (tfidf_vectorizer st) v.

(** A method: the returned value or the raised exception, and the object
    as the call leaves it (what was assigned before an exception stays
    assigned). *)
Definition Method (A : Type) : Type := Exc A * Chatbot.

(* --------------------------------------------------------------------- *)
(** ** [_create_tfidf_index]                                              *)
(* --------------------------------------------------------------------- *)

Definition _create_tfidf_index (st : Chatbot) : Method unit :=
  match text_chunks st with
  | [] => (Ok tt, st)
  | _ :: _ =>
      let chunk_texts := List.map text (text_chunks st) in
      let st1 := set_tfidf_vectorizer (Some Unfitted) st in
      match fit_transform S chunk_texts with
      | Ok (voc, matrix) =>
          (Ok tt, set_tfidf_matrix (Some matrix)
                    (set_tfidf_vectorizer (Some (Fitted voc)) st1))
      | Raise e => (Raise e, st1)
      end
  end.

(* --------------------------------------------------------------------- *)
(** ** [create_chunks_and_embeddings]                                     *)
(* --------------------------------------------------------------------- *)

(** [range(0, n, step)] *)
Definition range_step (n step : nat) : list nat :=
  List.map (fun j => j * step) (seq 0 ((n + step - 1) / step)).

(** [chunk_texts[i:i + Config.BATCH_SIZE]] *)
Definition batch_at (chunk_texts : list string) (i : nat) : list string :=
  take Config.BATCH_SIZE (drop i chunk_texts).

(** The retry loop around one batch.  [Ok (Some rows)]: an attempt
    succeeded, [rows] is appended and the loop left; [Raise e]: the last
    attempt failed and re-raises; [Ok None]: the loop ended without an
    attempt succeeding or re-raising. *)
Fixpoint encode_batch_retry (attempts : list nat) (i : nat)
    (batch : list string) : Exc (option (list Vec)) :=
  match attempts with
  | [] => Ok None
  | attempt :: rest =>
      match encode_batch S i attempt batch with
      | Ok batch_embeddings => Ok (Some batch_embeddings)
      | Raise e =>
          if attempt =? Config.MAX_RETRIES - 1 then Raise e
          else encode_batch_retry rest i batch
      end
  end.

(** The loop over the batches; the result is [embeddings_list]. *)
Fixpoint encode_batches (chunk_texts : list string) (starts : list nat)
    (embeddings_list : list (list Vec)) : Exc (list (list Vec)) :=
  match starts with
  | [] => Ok embeddings_list
  | i :: rest =>
      do r <- encode_batch_retry (seq 0 Config.MAX_RETRIES) i
                (batch_at chunk_texts i);
      encode_batches chunk_texts rest
        (match r with
         | Some batch_embeddings => embeddings_list ++ [batch_embeddings]
         | None => embeddings_list
         end)
  end.

(** [torch.cat(embeddings_list, dim=0)]; it rejects an empty list. *)
Definition torch_cat (embeddings_list : list (list Vec)) : Exc (list Vec) :=
  match embeddings_list with
  | [] => Raise RuntimeError
  | _ => Ok (concat embeddings_list)
  end.

(** The chunks of all documents, in the order of [pdf_contents]
    ([sent_tokenize] is passed on to the chunker). *)
Definition all_chunks (sent_tokenize : string -> option (list string))
    (contents : list (string * string)) : list Chunk :=
  concat (List.map (fun fc => Chunker.smart_chunk_text sent_tokenize
                              (snd fc) (fst fc)) contents).

Definition create_chunks_and_embeddings
    (sent_tokenize : string -> option (list string)) (st : Chatbot)
  : Method bool :=
  let st := set_text_chunks [] st in
  match pdf_contents st with
  | [] => (Ok false, st)
  | _ :: _ =>
      let st := set_text_chunks (all_chunks sent_tokenize (pdf_contents st)) st in
      match text_chunks st with
      | [] => (Ok false, st)
      | _ :: _ =>
          let chunk_texts := List.map text (text_chunks st) in
          (* try: *)
          match (do embeddings_list <-
                      encode_batches chunk_texts
                        (range_step (length chunk_texts) Config.BATCH_SIZE) [];
                 torch_cat embeddings_list) with
          | Ok embeddings =>
              let st := set_chunk_embeddings (Some embeddings) st in
              match _create_tfidf_index st with
              | (Ok _, st') => (Ok true, st')
              | (Raise _, st') => (Ok false, st')   (* except Exception *)
              end
          | Raise _ => (Ok false, st)               (* except Exception *)
          end
      end
  end.

(** Some batch of the corpus [contents] has every attempt of the
    embedding model fail. *)
Definition batch_exhausted (sent_tokenize : string -> option (list string))
    (contents : list (string * string)) : Prop :=
  let chunk_texts := List.map text (all_chunks sent_tokenize contents) in
  exists i,
    In i (range_step (length chunk_texts) Config.BATCH_SIZE) /\
    forall attempt, attempt < Config.MAX_RETRIES ->
      exists e, encode_batch S i attempt (batch_at chunk_texts i) = Raise e.


(* --------------------------------------------------------------------- *)
(** ** The cache directory                                                *)
(* --------------------------------------------------------------------- *)

(** A file, by what its reader returns: the metadata object (only its
    ['cached_at'] entry is read, [None] when the key is missing or is no
    string), the chunk list, a [.npy] array, a pickled vectorizer, or
    bytes that the reader rejects. *)
Inductive File :=
| FMeta (cached_at : option string)
| FChunks (chunks : list Chunk)
| FArray (rows : list Vec)
| FPickle (vectorizer : TfidfVectorizer Vocab)
| FCorrupt.

(** [get_cache_path] *)
Definition get_cache_path (identifier : string) : string :=
  ("institutional_cache/institutional_" ++ md5_hexdigest S identifier)%string.

Definition meta_file (cache_path : string) : string :=
  (cache_path ++ "_meta.json")%string.
Definition chunks_file (cache_path : string) : string :=
  (cache_path ++ "_chunks.json")%string.
Definition embeddings_file (cache_path : string) : string :=
  (cache_path ++ "_embeddings.npy")%string.
Definition vectorizer_file (cache_path : string) : string :=
  (cache_path ++ "_tfidf_vectorizer.pkl")%string.
Definition matrix_file (cache_path : string) : string :=
  (cache_path ++ "_tfidf_matrix.npy")%string.

(** [open(path, 'r')] followed by the reader of the format. *)
Definition open_read (fs : gmap string File) (path : string) : Exc File :=
  match fs !! path with
  | Some f => Ok f
  | None => Raise FileNotFoundError
  end.

Definition load_meta (fs : gmap string File) (path : string)
  : Exc (option string) :=
  do f <- open_read fs path;
  match f with
  | FMeta cached_at => Ok cached_at
  | _ => Raise ValueError
  end.

Definition load_chunks (fs : gmap string File) (path : string)
  : Exc (list Chunk) :=
  do f <- open_read fs path;
  match f with
  | FChunks chunks => Ok chunks
  | _ => Raise ValueError
  end.

Definition np_load (fs : gmap string File) (path : string)
  : Exc (list Vec) :=
  do f <- open_read fs path;
  match f with
  | FArray rows => Ok rows
  | _ => Raise ValueError
  end.

Definition pickle_load (fs : gmap string File) (path : string)
  : Exc (TfidfVectorizer Vocab) :=
  do f <- open_read fs path;
  match f with
  | FPickle v => Ok v
  | _ => Raise ValueError
  end.

(** [timedelta(days=d)], in microseconds. *)
Definition timedelta_days (d : Z) : Z := (d * 86400 * 1000000)%Z.

(** [is_cache_valid]; [now] is the reading of [datetime.now()]. *)
Definition is_cache_valid (fs : gmap string File) (now : Z)
    (cache_path : string) : bool :=
  match fs !! meta_file cache_path with
  | None => false
  | Some _ =>
      let body :=
        do cached_at_str <- load_meta fs (meta_file cache_path);
        match cached_at_str with
        | None => Ok false
        | Some str =>
            if is_empty str then Ok false
            else
              match fromisoformat S str with
              | None => Raise ValueError
              | Some cached_date =>
                  Ok (now - cached_date
                      <? timedelta_days Config.CACHE_DURATION_DAYS)%Z
              end
        end in
      match body with
      | Ok b => b
      | Raise _ => false
      end
  end.

(** The inner [try] of [load_from_cache]: the vectorizer and its matrix,
    with their assignments. *)
Definition load_tfidf (fs : gmap string File) (cache_path : string)
    (st : Chatbot) : Method unit :=
  match pickle_load fs (vectorizer_file cache_path) with
  | Raise e => (Raise e, st)
  | Ok v =>
      let st := set_tfidf_vectorizer (Some v) st in
      match np_load fs (matrix_file cache_path) with
      | Raise e => (Raise e, st)
      | Ok m => (Ok tt, set_tfidf_matrix (Some m) st)
      end
  end.

(** [load_from_cache] *)
Definition load_from_cache (fs : gmap string File) (now : Z)
    (identifier : string) (st : Chatbot) : Method bool :=
  let cache_path := get_cache_path identifier in
  if negb (is_cache_valid fs now cache_path) then (Ok false, st)
  else
    (* try: *)
    match load_chunks fs (chunks_file cache_path) with
    | Raise _ => (Ok false, st)
    | Ok chunks =>
        let st := set_text_chunks chunks st in
        match np_load fs (embeddings_file cache_path) with
        | Raise _ => (Ok false, st)
        | Ok loaded_embeddings =>
            let st := set_chunk_embeddings (Some loaded_embeddings) st in
            match load_tfidf fs cache_path st with
            | (Ok _, st) => (Ok true, st)
            | (Raise FileNotFoundError, st) =>
                match _create_tfidf_index st with
                | (Ok _, st) => (Ok true, st)
                | (Raise _, st) => (Ok false, st)
                end
            | (Raise _, st) => (Ok false, st)
            end
        end
    end.

(** *** Writing *)

(** What a write does: the file is written; or [open] fails and the file
    is left as it was; or the write stops midway and leaves bytes that no
    reader accepts.  The last two raise. *)
Inductive WriteOutcome := Written | OpenFailed | Truncated.

Definition write_file (disk : string -> WriteOutcome)
    (fs : gmap string File) (path : string) (content : File)
  : Exc unit * gmap string File :=
  match disk path with
  | Written => (Ok tt, <[path := content]> fs)
  | OpenFailed => (Raise OSError, fs)
  | Truncated => (Raise OSError, <[path := FCorrupt]> fs)
  end.

(** [save_to_cache]: the files are written one after the other inside
    one [try]; the first exception ends the writing and is reported with
    [st.error].  The result is the directory afterwards.

    [tfidf_matrix] is written through [.toarray()], which the sparse
    matrix of a fit has.  That is the matrix of every object the
    program saves: [initialize_chatbot] saves only after a build.  On
    the array that [load_from_cache] leaves, [.toarray()] raises and
    the last file is not written, which is what this definition gives
    on a [disk] that refuses that file; statements about a save that
    writes the matrix are about a built object. *)
Definition save_to_cache (disk : string -> WriteOutcome)
    (fs : gmap string File) (now : Z) (identifier : string) (st : Chatbot)
  : gmap string File :=
  let cache_path := get_cache_path identifier in
  match write_file disk fs (meta_file cache_path)
          (FMeta (Some (isoformat S now))) with
  | (Raise _, fs) => fs
  | (Ok _, fs) =>
  match write_file disk fs (chunks_file cache_path)
          (FChunks (text_chunks st)) with
  | (Raise _, fs) => fs
  | (Ok _, fs) =>
  match (match chunk_embeddings st with
         | Some embeddings =>
             write_file disk fs (embeddings_file cache_path) (FArray embeddings)
         | None => (Ok tt, fs)
         end) with
  | (Raise _, fs) => fs
  | (Ok _, fs) =>
  match tfidf_vectorizer st with
  | None => fs
  | Some vectorizer =>
      match write_file disk fs (vectorizer_file cache_path)
              (FPickle vectorizer) with
      | (Raise _, fs) => fs
      | (Ok _, fs) =>
          match tfidf_matrix st with
          | None => fs            (* [None.toarray()] raises *)
          | Some matrix =>
              snd (write_file disk fs (matrix_file cache_path) (FArray matrix))
          end
      end
  end end end end.

(** The part of [initialize_chatbot] that makes the index ready: the
    cache is tried first; otherwise the documents are loaded
    ([extracted] is what [load_institutional_pdfs] leaves in
    [pdf_contents]), the index is built and, only when the build
    succeeded, saved.  [None] is the source's [return None]. *)
Definition initialize_index (sent_tokenize : string -> option (list string))
    (disk : string -> WriteOutcome) (extracted : list (string * string))
    (fs : gmap string File) (now : Z) (identifier : string) (st : Chatbot)
  : option Chatbot * gmap string File :=
  match load_from_cache fs now identifier st with
  | (Ok true, st) => (Some st, fs)
  | (_, st) =>
      let st := set_pdf_contents extracted st in
      match pdf_contents st with
      | [] => (None, fs)
      | _ :: _ =>
          match create_chunks_and_embeddings sent_tokenize st with
          | (Ok true, st) =>
              (Some st, save_to_cache disk fs now identifier st)
          | (_, _) => (None, fs)
          end
      end
  end.


(* --------------------------------------------------------------------- *)
(** ** [hybrid_search]                                                    *)
(* --------------------------------------------------------------------- *)

(** A returned chunk: the copy of the chunk dictionary with the three
    score entries. *)
Record ScoredChunk := mkScored {
  chunk : Chunk;
  semantic_score : Q;
  keyword_score : Q;
  combined_score : Q
}.

Definition semantic_weight : Q := 7 # 10.
Definition keyword_weight : Q := 3 # 10.
Definition relevance_floor : Q := 15 # 100.

(** The retry loop around the encoding of the question: the vector of
    the first attempt that succeeds; [GaveUp] when the last attempt
    fails (the source returns [[]] there); [NotEncoded] when the loop
    ends otherwise and [question_embedding] is still [None]. *)
Inductive QueryEncoding :=
| Encoded (question_embedding : Vec)
| GaveUp
| NotEncoded.

Fixpoint encode_question (attempts : list nat) (question : string)
  : QueryEncoding :=
  match attempts with
  | [] => NotEncoded
  | attempt :: rest =>
      match encode_query S attempt question with
      | Ok v => Encoded v
      | Raise _ =>
          if attempt =? Config.MAX_RETRIES - 1 then GaveUp
          else encode_question rest question
      end
  end.

(** [util.cos_sim(question_embedding, chunk_embeddings)[0]] *)
Definition cos_sim (question_embedding : Vec) (embeddings : list Vec)
  : Exc (list Q) :=
  exc_map (cosine S question_embedding) embeddings.

(** The keyword scores: zeros unless both the vectorizer and the matrix
    are there. *)
Definition keyword_scores_of (st : Chatbot) (question : string)
  : Exc (list Q) :=
  match tfidf_vectorizer st, tfidf_matrix st with
  | Some vectorizer, Some matrix =>
      do question_tfidf <-
         match vectorizer with
         | Fitted voc => transform S voc question
         | Unfitted => Raise NotFittedError
         end;
      exc_map (kw_cosine S question_tfidf) matrix
  | _, _ => Ok (repeat 0%Q (length (text_chunks st)))
  end.

(** [a + b] on one-dimensional arrays, with numpy's broadcasting of an
    array of length one. *)
Definition np_add (a b : list Q) : Exc (list Q) :=
  if length a =? length b then Ok (zip_with Qplus a b)
  else match a, b with
       | [x], _ => Ok (List.map (fun y => x + y)%Q b)
       | _, [y] => Ok (List.map (fun x => x + y)%Q a)
       | _, _ => Raise ValueError
       end.

(** "Optimized score combination": the expression of the source, with
    the exact sums and products of [Q].  The program evaluates it in
    floating point (the semantic part in single precision, the sum in
    double precision), so its values are those of this definition up to
    rounding. *)
Definition combine_scores (semantic_scores keyword_scores : list Q)
  : Exc (list Q) :=
  let semantic_scores_norm :=
    List.map (fun s => (s + 1) / 2)%Q semantic_scores in
  let keyword_scores_norm := keyword_scores in
  np_add (List.map (Qmult semantic_weight) semantic_scores_norm)
         (List.map (Qmult keyword_weight) keyword_scores_norm).

(** [np.argsort(combined_scores)[-Config.SEARCH_RESULTS:][::-1]] *)
Definition top_indices (combined_scores : list Q) : list nat :=
  rev (tail_slice Config.SEARCH_RESULTS (argsort S combined_scores)).

(** The body of the loop [for idx in top_indices]. *)
Definition scored_chunk_at (st : Chatbot)
    (semantic_scores keyword_scores combined_scores : list Q) (idx : nat)
  : Exc ScoredChunk :=
  do c <- py_index (text_chunks st) idx;
  do s <- py_index semantic_scores idx;
  do k <- py_index keyword_scores idx;
  do b <- py_index combined_scores idx;
  Ok (mkScored c s k b).

(** "Filter low scores": [chunk['combined_score'] > 0.15]. *)
Definition above_floor (c : ScoredChunk) : bool :=
  negb (Qle_bool (combined_score c) relevance_floor).

(** What follows the encoding of the question inside the [try]: the
    scores, the selection of the top chunks ([relevant_chunks] before
    the filter), then the filter. *)
Definition select_top (st : Chatbot) (embeddings : list Vec)
    (question : string) (question_embedding : Vec)
  : Exc (list ScoredChunk) :=
  do semantic_scores <- cos_sim question_embedding embeddings;
  do keyword_scores <- keyword_scores_of st question;
  do combined_scores <- combine_scores semantic_scores keyword_scores;
  exc_map (scored_chunk_at st semantic_scores keyword_scores combined_scores)
          (top_indices combined_scores).

Definition score_and_rank (st : Chatbot) (embeddings : list Vec)
    (question : string) (question_embedding : Vec)
  : Exc (list ScoredChunk) :=
  do relevant_chunks <- select_top st embeddings question question_embedding;
  Ok (List.filter above_floor relevant_chunks).

Definition hybrid_search (st : Chatbot) (question : string)
  : Exc (list ScoredChunk) :=
  match chunk_embeddings st with
  | None => Ok []
  | Some embeddings =>
      if length (text_chunks st) =? 0 then Ok []
      else
        try_except
          (match encode_question (seq 0 Config.MAX_RETRIES) question with
           | GaveUp => Ok []
           | NotEncoded => Raise TypeError   (* [cos_sim(None, ...)] *)
           | Encoded question_embedding =>
               score_and_rank st embeddings question question_embedding
           end)
          (fun _ => Ok [])
  end.

(* --------------------------------------------------------------------- *)
(** ** Vocabulary of the statements about [hybrid_search]                 *)
(* --------------------------------------------------------------------- *)

(** The scoring rule in the words of the specification: for chunk [i],
    [s] is the cosine between the question and the [i]-th embedding, [k]
    is the cosine between the question's TF-IDF projection and the
    [i]-th row of the keyword matrix, or 0 when there is no keyword
    index, and [c = 0.7 * ((s + 1) / 2) + 0.3 * k]. *)
Definition scored_as (st : Chatbot) (question : string)
    (embeddings : list Vec) (question_embedding : Vec)
    (i : nat) (s k c : Q) : Prop :=
  (exists row, embeddings !! i = Some row /\
               cosine S question_embedding row = Ok s) /\
  match tfidf_vectorizer st, tfidf_matrix st with
  | Some v, Some matrix =>
      exists voc question_tfidf row,
        v = Fitted voc /\
        transform S voc question = Ok question_tfidf /\
        matrix !! i = Some row /\
        kw_cosine S question_tfidf row = Ok k
  | _, _ => k = 0%Q
  end /\
  c = (semantic_weight * ((s + 1) / 2) + keyword_weight * k)%Q.

(** An index whose parallel arrays have one row per chunk. *)
Definition index_ready (st : Chatbot) (embeddings : list Vec) : Prop :=
  chunk_embeddings st = Some embeddings /\
  text_chunks st <> [] /\
  length embeddings = length (text_chunks st) /\
  (forall matrix, tfidf_matrix st = Some matrix ->
                  length matrix = length (text_chunks st)).

(** Results in non-increasing order of [combined_score]. *)
Definition by_score_desc (r1 r2 : ScoredChunk) : Prop :=
  (combined_score r2 <= combined_score r1)%Q.

(** "Ties broken by original chunk order": of two returned chunks with
    equal combined scores, the one returned first is the earlier chunk
    of [text_chunks]. *)
Definition ties_by_chunk_order (chunks : list Chunk) (l : list ScoredChunk)
  : Prop :=
  forall a b ra rb i j,
    a < b -> l !! a = Some ra -> l !! b = Some rb ->
    (combined_score ra == combined_score rb)%Q ->
    chunks !! i = Some (chunk ra) -> chunks !! j = Some (chunk rb) ->
    i < j.


End WithServices.

Arguments Chatbot : clear implicits.
Arguments File : clear implicits.
Arguments Method : clear implicits.

End Bot.

(* ===================================================================== *)
(** * The files of a cache entry                                          *)
(* ===================================================================== *)

Module CacheEntry.

(** The five files [save_to_cache] writes for the entry at [cache_path]. *)
Definition entry_files (cache_path : string) : list string :=
  [Bot.meta_file cache_path; Bot.chunks_file cache_path;
   Bot.embeddings_file cache_path; Bot.vectorizer_file cache_path;
   Bot.matrix_file cache_path].

End CacheEntry.

(* ===================================================================== *)
(** * Text extraction ([extract_text_from_pdf], [load_institutional_pdfs]) *)
(* ===================================================================== *)

Module Pdf.
Import PyStr.

Definition newline : ascii := "010"%char.
Definition hyphen : ascii := "-"%char.

(** The regex class [\w] on code points < 256: digits, ASCII letters,
    the underscore, and the letters and numbers of Latin-1. *)
Definition is_word (c : ascii) : bool :=
  let n := nat_of_ascii c in
  ((48 <=? n) && (n <=? 57)) || ((65 <=? n) && (n <=? 90)) || (n =? 95)
  || ((97 <=? n) && (n <=? 122)) || (n =? 170)
  || ((178 <=? n) && (n <=? 179)) || (n =? 181)
  || ((185 <=? n) && (n <=? 186)) || ((188 <=? n) && (n <=? 190))
  || ((192 <=? n) && (n <=? 214)) || ((216 <=? n) && (n <=? 246))
  || ((248 <=? n) && (n <=? 255)).

(** The regex class [\d] on code points < 256. *)
Definition is_digit (c : ascii) : bool :=
  let n := nat_of_ascii c in (48 <=? n) && (n <=? 57).

(** [re.sub(r'\s+', ' ', s)]: every maximal run of whitespace becomes
    one space.  [in_run] says that the previous character was
    whitespace. *)
Fixpoint collapse_go (in_run : bool) (s : string) : string :=
  match s with
  | EmptyString => EmptyString
  | String c r =>
      if isspace c then
        if in_run then collapse_go true r
        else String " " (collapse_go true r)
      else String c (collapse_go false r)
  end.

Definition collapse_whitespace (s : string) : string := collapse_go false s.

(** [re.sub(r'(\w+)-\s+(\w+)', r'\1\2', s)].  A match is a maximal run
    of word characters, a hyphen, a maximal run of whitespace and the
    maximal run of word characters after it; the scan resumes behind
    the second word, which therefore cannot open the next match. *)
Inductive HyphenState :=
| Outside                        (* not in a word that can open a match *)
| InWord                         (* in the first word *)
| AfterHyphen                    (* first word, hyphen *)
| AfterSpace (pending : string)  (* first word, hyphen, whitespace *)
| InSecond.                      (* in the second word of a match *)

Fixpoint join_go (state : HyphenState) (s : string) : string :=
  match s with
  | EmptyString =>
      match state with
      | AfterHyphen => String hyphen EmptyString
      | AfterSpace pending => String hyphen pending
      | _ => EmptyString
      end
  | String c r =>
      match state with
      | Outside =>
          String c (join_go (if is_word c then InWord else Outside) r)
      | InWord =>
          if is_word c then String c (join_go InWord r)
          else if (c =? hyphen)%char then join_go AfterHyphen r
          else String c (join_go Outside r)
      | AfterHyphen =>
          if isspace c then join_go (AfterSpace (String c EmptyString)) r
          else String hyphen
                 (String c (join_go (if is_word c then InWord else Outside) r))
      | AfterSpace pending =>
          if isspace c
          then join_go (AfterSpace (pending ++ String c EmptyString)%string) r
          else if is_word c then String c (join_go InSecond r)
          else String hyphen (pending ++ String c (join_go Outside r))%string
      | InSecond =>
          String c (join_go (if is_word c then InSecond else Outside) r)
      end
  end.

Definition join_hyphenated (s : string) : string := join_go Outside s.

(** [re.sub(r'^\d+\s*$', '', s, flags=re.MULTILINE)].  A match begins at
    the start of a line with a maximal run of digits and runs over the
    whitespace behind them, up to the end of the string when the
    whitespace reaches it, and otherwise up to the last line break of
    that whitespace; without such a line break there is no match. *)
Inductive LineState :=
| LineStart
| MidLine
| Digits (pending : string)
    (* the digits read from the start of the line *)
| Trailing (before : string) (after : option string).
    (* digits and whitespace: [before] up to the last line break seen,
       [after] the whitespace behind that line break, [None] when no
       line break was seen *)

Fixpoint drop_go (state : LineState) (s : string) : string :=
  match s with
  | EmptyString => EmptyString
  | String c r =>
      match state with
      | LineStart =>
          if is_digit c then drop_go (Digits (String c EmptyString)) r
          else String c (drop_go (if (c =? newline)%char then LineStart
                                  else MidLine) r)
      | MidLine =>
          String c (drop_go (if (c =? newline)%char then LineStart
                             else MidLine) r)
      | Digits pending =>
          if is_digit c
          then drop_go (Digits (pending ++ String c EmptyString)%string) r
          else if (c =? newline)%char
          then drop_go (Trailing pending (Some EmptyString)) r
          else if isspace c
          then drop_go (Trailing (pending ++ String c EmptyString)%string None) r
          else (pending ++ String c (drop_go MidLine r))%string
      | Trailing before after =>
          if (c =? newline)%char then
            drop_go (Trailing
                       (before ++ match after with
                                  | Some w => String newline w
                                  | None => EmptyString
                                  end)%string
                       (Some EmptyString)) r
          else if isspace c then
            match after with
            | None =>
                drop_go (Trailing (before ++ String c EmptyString)%string None) r
            | Some w =>
                drop_go (Trailing before (Some (w ++ String c EmptyString)%string)) r
            end
          else
            match after with
            | None => (before ++ String c (drop_go MidLine r))%string
            | Some EmptyString =>
                String newline
                  (if is_digit c then drop_go (Digits (String c EmptyString)) r
                   else String c (drop_go MidLine r))
            | Some w => String newline (w ++ String c (drop_go MidLine r))%string
            end
      end
  end.

Definition drop_page_numbers (s : string) : string := drop_go LineStart s.

(** [re.sub(r'\n{3,}', '\n\n', s)]; [run] counts the line breaks just
    read. *)
Fixpoint squeeze_go (run : nat) (s : string) : string :=
  match s with
  | EmptyString => EmptyString
  | String c r =>
      if (c =? newline)%char then
        if run <? 2 then String c (squeeze_go (Datatypes.S run) r)
        else squeeze_go (Datatypes.S run) r
      else String c (squeeze_go 0 r)
  end.

Definition squeeze_newlines (s : string) : string := squeeze_go 0 s.

(** The cleaning of one page, "Optimized text cleaning". *)
Definition clean_page (page_text : string) : string :=
  let page_text := collapse_whitespace page_text in
  let page_text := join_hyphenated page_text in
  drop_page_numbers page_text.

(** The loop over the pages: [text += page_text + "\n\n"]. *)
Definition pages_text (pages : list string) : string :=
  fold_left (fun text page_text =>
               text ++ clean_page page_text
                    ++ String newline (String newline EmptyString))%string
            pages EmptyString.

(** "Final cleaning" *)
Definition final_clean (text : string) : string :=
  squeeze_newlines (strip text).

(** [d[key] = value] on a [dict] kept in insertion order. *)
Fixpoint dict_set (d : list (string * string)) (key value : string)
  : list (string * string) :=
  match d with
  | [] => [(key, value)]
  | (k, v) :: rest =>
      if String.eqb k key then (k, value) :: rest
      else (k, v) :: dict_set rest key value
  end.

(** ** Vocabulary of the statements about the extraction *)

(** The characters that are neither whitespace, nor digits, nor
    hyphens, in their order. *)
Definition is_solid (c : ascii) : bool :=
  negb (isspace c || is_digit c || (c =? hyphen)%char).

Fixpoint letters (s : string) : list ascii :=
  match s with
  | EmptyString => []
  | String c r => if is_solid c then c :: letters r else letters r
  end.

Fixpoint all_space (s : string) : bool :=
  match s with
  | EmptyString => true
  | String c r => isspace c && all_space r
  end.

Fixpoint all_word (s : string) : bool :=
  match s with
  | EmptyString => true
  | String c r => is_word c && all_word r
  end.

(** Digits, then whitespace, up to the end. *)
Fixpoint number_tail (s : string) : bool :=
  match s with
  | EmptyString => true
  | String c r => if is_digit c then number_tail r else all_space s
  end.

(** A number, and nothing else but whitespace behind it. *)
Definition number_only (s : string) : bool :=
  match s with
  | EmptyString => false
  | String c r => is_digit c && number_tail r
  end.

Fixpoint has_newline (s : string) : bool :=
  match s with
  | EmptyString => false
  | String c r => (c =? newline)%char || has_newline r
  end.

(** No run of more than two line breaks, [run] line breaks being just
    before the string. *)
Fixpoint no_long_run (run : nat) (s : string) : bool :=
  match s with
  | EmptyString => true
  | String c r =>
      if (c =? newline)%char
      then (run <? 2) && no_long_run (Datatypes.S run) r
      else no_long_run 0 r
  end.

Section WithTypes.
Context {Vec Vocab : Type}.

Local Abbreviation Chatbot := (Bot.Chatbot Vec Vocab).

(** [extract_text_from_pdf].  [doc] is what PyMuPDF gives for the file:
    the texts of its pages in order, or the exception that [fitz.open]
    or the reading of a page raises. *)
Definition extract_text_from_pdf (doc : Exc (list string)) (filename : string)
    (st : Chatbot) : Chatbot :=
  match doc with
  | Raise _ => st                       (* [st.error] *)
  | Ok pages =>
      let text := final_clean (pages_text pages) in
      if 100 <? String.length text
      then Bot.set_pdf_contents (dict_set (Bot.pdf_contents st) filename text) st
      else st
  end.

(** [load_institutional_pdfs].  [pdf_files] are the files that [glob]
    finds, each by its base name and its content. *)
Definition load_institutional_pdfs
    (pdf_files : list (string * Exc (list string))) (st : Chatbot)
  : bool * Chatbot :=
  let st := Bot.set_pdf_contents [] st in
  match pdf_files with
  | [] => (false, st)
  | _ :: _ =>
      let st := fold_left (fun st f => extract_text_from_pdf (snd f) (fst f) st)
                          pdf_files st in
      (0 <? length (Bot.pdf_contents st), st)
  end.

(** [initialize_chatbot], from the listing of the directory on:
    [identifier] is the fingerprint computed from the names, sizes and
    modification times of the files. *)
Definition initialize_chatbot (S : Services Vec Vocab)
    (sent_tokenize : string -> option (list string))
    (disk : string -> Bot.WriteOutcome)
    (pdf_files : list (string * Exc (list string)))
    (fs : gmap string (Bot.File Vec Vocab)) (now : Z) (identifier : string)
  : option Chatbot * gmap string (Bot.File Vec Vocab) :=
  match pdf_files with
  | [] => (None, fs)
  | _ :: _ =>
      let chatbot := Bot.fresh_chatbot in
      match Bot.load_from_cache S fs now identifier chatbot with
      | (Ok true, chatbot) => (Some chatbot, fs)
      | (_, chatbot) =>
          match load_institutional_pdfs pdf_files chatbot with
          | (true, chatbot) =>
              match Bot.create_chunks_and_embeddings S sent_tokenize chatbot with
              | (Ok true, chatbot) =>
                  (Some chatbot,
                   Bot.save_to_cache S disk fs now identifier chatbot)
              | (_, _) => (None, fs)
              end
          | (false, _) => (None, fs)
          end
      end
  end.

End WithTypes.
End Pdf.

(* ===================================================================== *)
(** * [generate_answer]                                                   *)
(* ===================================================================== *)

Module Answer.
Import PyStr.

(** What the [try] of [generate_answer] gives: the [content] of the
    first choice of the response, or the [str] of the exception raised
    on the way to it. *)
Inductive Completion :=
| Content (content : string)
| Failed (message : string).

Definition no_context_message : string :=
  "I couldn't find relevant information in the institutional documents to answer your question.".

Definition nl : string := String Pdf.newline EmptyString.

(** [str(n)] *)
Definition str_of_nat (n : nat) : string :=
  NilEmpty.string_of_uint (Nat.to_uint n).

(** What one turn of the loop over [enumerate(context_chunks[:8])] adds
    to [context_str]. *)
Definition source_block (i : nat) (c : Bot.ScoredChunk) : string :=
  ("=== Source " ++ str_of_nat (i + 1) ++ " (" ++ source (Bot.chunk c)
   ++ ") ===" ++ nl ++ text (Bot.chunk c) ++ nl ++ nl)%string.

Fixpoint context_loop (i : nat) (chunks : list Bot.ScoredChunk)
    (context_str : string) : string :=
  match chunks with
  | [] => context_str
  | c :: rest => context_loop (Datatypes.S i) rest
                              (context_str ++ source_block i c)%string
  end.

Definition context_of (context_chunks : list Bot.ScoredChunk) : string :=
  context_loop 0 (firstn 8 context_chunks) EmptyString.

Definition prompt_of (context_str question : string) : string :=
  ("Answer the question based on the provided institutional documents."
   ++ nl ++ nl ++ "CONTEXT:" ++ nl ++ context_str ++ nl ++ nl
   ++ "QUESTION: " ++ question ++ nl ++ nl
   ++ "Provide a comprehensive answer using only the information above. Cite sources in brackets [document.pdf]. If insufficient information is available, state this clearly."
   ++ nl ++ nl ++ "Answer:")%string.

(** [generate_answer]; [client] is the completion endpoint as a function
    of the user message (the system message and the sampling parameters
    are constants of the source). *)
Definition generate_answer (question : string)
    (context_chunks : list Bot.ScoredChunk) (client : string -> Completion)
  : string :=
  match context_chunks with
  | [] => no_context_message
  | _ :: _ =>
      let prompt := prompt_of (context_of context_chunks) question in
      match client prompt with
      | Content content => strip content
      | Failed message => ("Error generating response: " ++ message)%string
      end
  end.

(** What [generate_answer] reads of a chunk. *)
Definition shown (c : Bot.ScoredChunk) : string * string :=
  (source (Bot.chunk c), text (Bot.chunk c)).

(** The two calls of [main] for a question. *)
Definition answer_question {Vec Vocab : Type} (S : Services Vec Vocab)
    (chatbot : Bot.Chatbot Vec Vocab) (question : string)
    (client : string -> Completion) : Exc string :=
  do relevant_chunks <- Bot.hybrid_search S chatbot question;
  Ok (generate_answer question relevant_chunks client).

End Answer.

(* ===================================================================== *)
(** * [_load_embedding_model]                                             *)
(* ===================================================================== *)

Module Loader.

(** What one pass through the [try] of the loop gives: the model, a
    [requests.exceptions.HTTPError] with its [str], or another
    exception. *)
Inductive LoadOutcome (Model : Type) :=
| Loaded (model : Model)
| HTTPError (message : string)
| OtherError.
Arguments Loaded {Model} _.
Arguments HTTPError {Model} _.
Arguments OtherError {Model}.

(** ["429" in str(e)] *)
Definition rate_limited (message : string) : bool :=
  match String.index 0 "429" message with
  | Some _ => true
  | None => false
  end.

Section WithLoader.
Context {Model : Type}.
Variable max_retries : nat.
(** The outcome of loading [Config.MODEL_NAME] at each attempt, and the
    fallback model, [None] when loading it raises. *)
Variable load_primary : nat -> LoadOutcome Model.
Variable load_fallback : option Model.

(** The loop [for attempt in range(max_retries)].  [slept] collects the
    arguments of [time.sleep], in seconds. *)
Fixpoint load_loop (attempts : list nat) (slept : list nat)
  : option Model * list nat :=
  match attempts with
  | [] => (None, slept)
  | attempt :: rest =>
      match load_primary attempt with
      | Loaded model => (Some model, slept)
      | HTTPError message =>
          if rate_limited message then
            let wait_time := 2 ^ attempt * 3 in
            load_loop rest (if attempt <? max_retries - 1
                            then slept ++ [wait_time] else slept)
          else (None, slept)            (* [break] *)
      | OtherError =>
          if attempt =? max_retries - 1 then (load_fallback, slept)
          else load_loop rest (slept ++ [2 ^ attempt])
      end
  end.

Definition _load_embedding_model_with : option Model * list nat :=
  load_loop (seq 0 max_retries) [].

(** An outcome after which the loop goes on. *)
Definition retryable (o : LoadOutcome Model) : Prop :=
  o = OtherError \/
  exists message, o = HTTPError message /\ rate_limited message = true.

End WithLoader.

Definition _load_embedding_model {Model : Type}
    (load_primary : nat -> LoadOutcome Model) (load_fallback : option Model)
  : option Model * list nat :=
  _load_embedding_model_with Config.MAX_RETRIES load_primary load_fallback.

End Loader.

(* ===================================================================== *)
(** * Sample inputs                                                       *)
(* ===================================================================== *)

Module Samples.
Import PyStr.
Local Open Scope nat_scope.

(** [sent_tokenize] raising (the punkt data is missing): the source then
    splits with the regular expression. *)
Definition no_punkt : string -> option (list string) := fun _ => None.

(** A sentence of [n] characters: [n - 1] times [c], then a full stop. *)
Definition sentence_of_length (n : nat) (c : ascii) : string :=
  (replicate_char (n - 1) c ++ ".")%string.

(** Three sentences of 500 characters each. *)
Definition three_long_sentences : string :=
  (sentence_of_length 500 "a" ++ " " ++ sentence_of_length 500 "b" ++ " "
   ++ sentence_of_length 500 "c")%string.

(** Two sentences of 400 characters each. *)
Definition two_sentences_800 : string :=
  (sentence_of_length 400 "a" ++ " " ++ sentence_of_length 400 "b")%string.

(** ** Stand-ins for the collaborators

    Embeddings are unit vectors of dimension two, so that the cosine is
    the inner product: the empty question goes to [(1, 0)], every other
    text to [(3/5, 4/5)].  The TF-IDF fit refuses fewer than three
    documents, as scikit-learn does with [min_df=2] and [max_df=0.8]
    ("max_df corresponds to < documents than min_df": [0.8 * n < 2]). *)
Definition toy_embed (s : string) : list Q :=
  if is_empty s then [1; 0]%Q else [3 # 5; 4 # 5]%Q.

Fixpoint dot (a b : list Q) : Exc Q :=
  match a, b with
  | [], [] => Ok 0%Q
  | x :: a', y :: b' => do r <- dot a' b'; Ok (x * y + r)%Q
  | _, _ => Raise RuntimeError
  end.

Definition toy_tfidf (s : string) : list Q :=
  if is_empty s then [0; 0]%Q else [1; 0]%Q.

Definition toy_fit_transform (texts : list string)
  : Exc (unit * list (list Q)) :=
  if 8 * length texts <? 20 then Raise ValueError
  else Ok (tt, List.map toy_tfidf texts).

(** Times are written as the decimal number of microseconds. *)
Definition toy_isoformat (t : Z) : string :=
  NilZero.string_of_int (Z.to_int t).

Definition toy_fromisoformat (s : string) : option Z :=
  option_map Z.of_int (NilZero.int_of_string s).

(** [fails i attempt] tells which calls of the embedding model raise. *)
Definition toy_services (fails : nat -> nat -> bool)
  : Services (list Q) unit :=
  {| encode_batch := fun i attempt batch =>
       if fails i attempt then Raise RuntimeError
       else Ok (List.map toy_embed batch);
     encode_query := fun attempt question =>
       if fails 0 attempt then Raise RuntimeError
       else Ok (toy_embed question);
     cosine := dot;
     fit_transform := toy_fit_transform;
     transform := fun _ question => Ok (toy_tfidf question);
     kw_cosine := dot;
     argsort := stable_argsort;
     md5_hexdigest := fun identifier => identifier;
     fromisoformat := toy_fromisoformat;
     isoformat := toy_isoformat |}.

(** The model answers every call. *)
Definition reliable : nat -> nat -> bool := fun _ _ => false.
(** The model never answers. *)
Definition unreachable : nat -> nat -> bool := fun _ _ => true.
(** The first attempt of every call fails, the second succeeds. *)
Definition flaky : nat -> nat -> bool := fun _ attempt => attempt =? 0.

Definition chunk_a : Chunk := mkChunk "Admission requires a transcript." "handbook.pdf" 0.
Definition chunk_b : Chunk := mkChunk "Grades are posted in June." "handbook.pdf" 1.
Definition chunk_c : Chunk := mkChunk "Aid forms are due in March." "handbook.pdf" 2.

(** An index of two chunks without a keyword index. *)
Definition two_chunk_index : Bot.Chatbot (list Q) unit :=
  Bot.mkChatbot [] [chunk_a; chunk_b]
    (Some [toy_embed (text chunk_a); toy_embed (text chunk_b)]) None None.

Definition scored_a (s c : Q) : Bot.ScoredChunk := Bot.mkScored chunk_a s 0 c.
Definition scored_b (s c : Q) : Bot.ScoredChunk := Bot.mkScored chunk_b s 0 c.

(** A cache entry written at time 0 with its chunks and embeddings but
    without the pickled vectorizer and its matrix. *)
Definition cache_id : string := "institutional_corpus".

Definition cache_without_tfidf (chunks : list Chunk)
  : gmap string (Bot.File (list Q) unit) :=
  let p := Bot.get_cache_path (toy_services reliable) cache_id in
  <[Bot.meta_file p := Bot.FMeta (Some (toy_isoformat 0))]>
    (<[Bot.chunks_file p := Bot.FChunks chunks]>
       (<[Bot.embeddings_file p :=
            Bot.FArray (List.map (fun c => toy_embed (text c)) chunks)]> ∅)).

(** One day after the entry was written, in microseconds. *)
Definition one_day_later : Z := 86400000000.

(** A corpus of one document, cut into three chunks. *)
Definition one_document : Bot.Chatbot (list Q) unit :=
  Bot.mkChatbot [("handbook.pdf", three_long_sentences)] [] None None None.




(** What a row of the stand-ins is to its text. *)
Definition toy_embeds (t : string) (v : list Q) : Prop := v = toy_embed t.
Definition toy_weighs (_ : unit) (t : string) (v : list Q) : Prop :=
  v = toy_tfidf t.

End Samples.

(* ===================================================================== *)
(** * More sample inputs                                                  *)
(* ===================================================================== *)

Module SamplesMore.
Import PyStr Samples.

(** A disk that accepts every write. *)
Definition good_disk : string -> Bot.WriteOutcome := fun _ => Bot.Written.

(** An object with a complete index of three chunks. *)
Definition built_index : Bot.Chatbot (list Q) unit :=
  Bot.mkChatbot [("handbook.pdf", "text of the handbook")]
    [chunk_a; chunk_b; chunk_c]
    (Some (List.map (fun c => toy_embed (text c)) [chunk_a; chunk_b; chunk_c]))
    (Some (Fitted tt))
    (Some (List.map (fun c => toy_tfidf (text c)) [chunk_a; chunk_b; chunk_c])).


(** The entry of [cache_without_tfidf] with a vectorizer file that does
    not unpickle. *)
Definition cache_with_bad_pickle (chunks : list Chunk)
  : gmap string (Bot.File (list Q) unit) :=
  <[Bot.vectorizer_file (Bot.get_cache_path (toy_services reliable) cache_id)
      := Bot.FCorrupt]> (cache_without_tfidf chunks).

(** An entry with its metadata and chunks only. *)
Definition cache_chunks_only (chunks : list Chunk)
  : gmap string (Bot.File (list Q) unit) :=
  let p := Bot.get_cache_path (toy_services reliable) cache_id in
  <[Bot.meta_file p := Bot.FMeta (Some (toy_isoformat 0))]>
    (<[Bot.chunks_file p := Bot.FChunks chunks]> ∅).

(** A completion endpoint that echoes the user message. *)
Definition echo_client : string -> Answer.Completion :=
  fun prompt => Answer.Content prompt.

(** Nine results, and eight results with other scores. *)
Definition nine_results : list Bot.ScoredChunk :=
  repeat (scored_a 1 1) 8 ++ [scored_b 1 1].
Definition eight_results : list Bot.ScoredChunk :=
  repeat (scored_a 0 (1 # 2)) 8.

(** A model hub that answers 429 at the first attempt and delivers the
    model at the second. *)
Definition busy_hub : nat -> Loader.LoadOutcome string :=
  fun attempt =>
    if attempt =? 0 then Loader.HTTPError "429 Client Error: Too Many Requests"
    else Loader.Loaded "all-MiniLM-L6-v2".

(** Three files of one page each, a sentence of 120 characters. *)
Definition three_files : list (string * Exc (list string)) :=
  [("admission.pdf", Ok [sentence_of_length 120 "a"]);
   ("grades.pdf", Ok [sentence_of_length 120 "b"]);
   ("aid.pdf", Ok [sentence_of_length 120 "c"])].

(** A scan without text and a file that PyMuPDF rejects. *)
Definition unusable_files : list (string * Exc (list string)) :=
  [("scan.pdf", Ok [""; ""]); ("broken.pdf", Raise RuntimeError)].

(** The object after a start on [three_files], and the cache directory
    it leaves when it began at time 0 on an empty one. *)
Definition started_index : Bot.Chatbot (list Q) unit :=
  let contents :=
    [("admission.pdf", sentence_of_length 120 "a");
     ("grades.pdf", sentence_of_length 120 "b");
     ("aid.pdf", sentence_of_length 120 "c")] in
  let chunks := Bot.all_chunks no_punkt contents in
  Bot.mkChatbot contents chunks
    (Some (List.map (fun c => toy_embed (text c)) chunks))
    (Some (Fitted tt))
    (Some (List.map (fun c => toy_tfidf (text c)) chunks)).

(** The object before that start's build: the documents are read,
    nothing is indexed. *)
Definition started_documents : Bot.Chatbot (list Q) unit :=
  Bot.set_pdf_contents (Bot.pdf_contents started_index) Bot.fresh_chatbot.

Definition started_cache : gmap string (Bot.File (list Q) unit) :=
  Bot.save_to_cache (toy_services reliable) good_disk ∅ 0 cache_id
    started_index.

End SamplesMore.

(* ===================================================================== *)
(** * Facts about the string primitives                                   *)
(* ===================================================================== *)

Module PyStrFacts.
Import PyStr.

Lemma is_empty_true (s : string) : is_empty s = true <-> s = EmptyString.
Proof. destruct s; simpl; split; congruence. Qed.

Lemma is_empty_false (s : string) : is_empty s = false <-> s <> EmptyString.
Proof. destruct s; simpl; split; congruence. Qed.

Lemma length_append (a b : string) :
  String.length (a ++ b)%string = String.length a + String.length b.
Proof. induction a as [|c a IH]; simpl; [reflexivity | now rewrite IH]. Qed.

Lemma total_len_app (l1 l2 : list string) :
  total_len (l1 ++ l2) = total_len l1 + total_len l2.
Proof. induction l1 as [|s l1 IH]; simpl; [reflexivity | rewrite IH; lia]. Qed.

(** [len(' '.join(l))]: the sentences plus one separator between
    neighbours. *)
Lemma length_join_space (l : list string) :
  String.length (join " " l) = total_len l + (length l - 1).
Proof.
  induction l as [|s l IH]; [reflexivity|].
  destruct l as [|s' l].
  - simpl. lia.
  - change (join " " (s :: s' :: l)) with (s ++ " " ++ join " " (s' :: l))%string.
    rewrite !length_append, IH. simpl. lia.
Qed.

(** A string is blank when it has only whitespace. *)
Lemma lstrip_app_r (a b : string) :
  lstrip b <> EmptyString -> lstrip (a ++ b)%string <> EmptyString.
Proof.
  intros Hb. induction a as [|c a IH]; simpl; [exact Hb|].
  destruct (isspace c); [exact IH | discriminate].
Qed.

Lemma lstrip_app_l (a b : string) :
  lstrip a <> EmptyString -> lstrip (a ++ b)%string <> EmptyString.
Proof.
  induction a as [|c a IH]; simpl; [congruence|].
  destruct (isspace c); [exact IH | discriminate].
Qed.

Lemma lstrip_head (s : string) :
  lstrip s = EmptyString \/
  exists c r, lstrip s = String c r /\ isspace c = false.
Proof.
  induction s as [|c s IH]; simpl; [now left|].
  destruct (isspace c) eqn:E; [exact IH|].
  right. now exists c, s.
Qed.

Lemma rstrip_head (c : ascii) (r : string) :
  isspace c = false -> exists r', rstrip (String c r) = String c r'.
Proof.
  intros Hc. simpl. rewrite Hc. destruct (rstrip r); eauto.
Qed.

(** A stripped sentence that is not empty starts with a character that
    is not whitespace. *)
Lemma strip_not_blank (s : string) :
  strip s <> EmptyString -> lstrip (strip s) <> EmptyString.
Proof.
  unfold strip. destruct (lstrip_head s) as [E | (c & r & E & Hc)].
  - rewrite E. simpl. congruence.
  - rewrite E. destruct (rstrip_head c r Hc) as [r' E'].
    rewrite E'. intros _. simpl. now rewrite Hc.
Qed.

Lemma join_not_blank (sep s : string) (l : list string) :
  lstrip s <> EmptyString -> lstrip (join sep (s :: l)) <> EmptyString.
Proof.
  intros Hs. destruct l as [|s' l]; [exact Hs|].
  change (join sep (s :: s' :: l)) with (s ++ sep ++ join sep (s' :: l))%string.
  now apply lstrip_app_l.
Qed.

Lemma split_go_not_nil (cur s : string) :
  cur <> EmptyString \/ lstrip s <> EmptyString -> split_go cur s <> [].
Proof.
  revert cur. induction s as [|c s IH]; intros cur H; simpl.
  - destruct H as [H|H]; [|simpl in H; congruence].
    apply is_empty_false in H. now rewrite H.
  - simpl in H. destruct (isspace c).
    + destruct (is_empty cur) eqn:E; [|discriminate].
      apply IH. right. destruct H as [H|H]; [|exact H].
      apply is_empty_true in E. congruence.
    + apply IH. left. destruct cur; discriminate.
Qed.

(** A text with a character that is not whitespace has a word. *)
Lemma split_not_nil (s : string) : lstrip s <> EmptyString -> split s <> [].
Proof. intros H. apply split_go_not_nil. now right. Qed.

Lemma tail_slice_length {A} (k : nat) (l : list A) :
  0 < k -> k <= length l -> length (tail_slice k l) = k.
Proof.
  intros Hk Hl. unfold tail_slice.
  destruct (Nat.eqb_spec k 0); [lia|]. rewrite length_skipn. lia.
Qed.

Lemma tail_slice_suffix {A} (k : nat) (l : list A) : tail_slice k l `suffix_of` l.
Proof.
  unfold tail_slice. destruct (k =? 0); [reflexivity|].
  apply suffix_drop.
Qed.

End PyStrFacts.

(* ===================================================================== *)
(** * The chunker: trace, invariants                                      *)
(* ===================================================================== *)

Module ChunkerFacts.
Import PyStr PyStrFacts Chunker.

Section WithSizes.
Variable chunk_size : nat.
Variable chunk_overlap : nat.

Local Abbreviation step := (step chunk_size chunk_overlap).
Local Abbreviation core_step := (core_step chunk_size chunk_overlap).
Local Abbreviation emit := (emit chunk_overlap).
Local Abbreviation assemble := (assemble chunk_overlap).
Local Abbreviation add_overlap := (add_overlap chunk_overlap).
Local Abbreviation seed_of := (seed_of chunk_overlap).
Local Abbreviation fresh_from := (fresh_from chunk_overlap).
Local Abbreviation fresh_parts := (fresh_parts chunk_overlap).
Local Abbreviation core_ok := (core_ok chunk_size chunk_overlap).
Local Abbreviation cores_ok := (cores_ok chunk_size chunk_overlap).
Local Abbreviation chunk_cores := (chunk_cores chunk_size chunk_overlap).
Local Abbreviation chunk_sentences := (chunk_sentences chunk_size chunk_overlap).
Local Abbreviation sim := (sim chunk_overlap).
Local Abbreviation trace_inv := (trace_inv chunk_size chunk_overlap).

(** ** The source loop and the ghost loop run in lock step *)

Lemma assemble_snoc src cs c :
  assemble src (cs ++ [c]) = emit src (assemble src cs) c.
Proof. unfold Chunker.assemble. now rewrite fold_left_app. Qed.

Lemma step_sim src st g s : sim src st g -> sim src (step src st s) (core_step g s).
Proof.
  intros (Hc & Hcur & Hlen). unfold Chunker.step, Chunker.core_step.
  rewrite Hcur, Hlen.
  destruct (is_empty (strip s)); [now repeat split|].
  destruct ((chunk_size <? cur_len g + String.length (strip s))
            && negb (bool_decide (cur g = []))).
  - destruct (0 <? chunk_overlap); repeat split; simpl;
      now rewrite assemble_snoc, Hc.
  - now repeat split.
Qed.

Lemma run_sim src sentences st g :
  sim src st g ->
  sim src (fold_left (step src) sentences st) (fold_left core_step sentences g).
Proof.
  revert st g. induction sentences as [|s l IH]; intros st g H; simpl; [exact H|].
  apply IH, step_sim, H.
Qed.

(** The chunks of the source are the recorded cores, emitted in order. *)
Lemma chunk_sentences_assemble sentences src :
  chunk_sentences sentences src = assemble src (chunk_cores sentences).
Proof.
  unfold Chunker.chunk_sentences, Chunker.chunk_cores, run_loop.
  assert (H : sim src (mkLoop [] [] 0) (mkCore [] [] 0)) by now repeat split.
  apply (run_sim src sentences) in H. destruct H as (Hc & Hcur & _).
  unfold finish, core_finish. rewrite Hcur.
  destruct (bool_decide (cur _ = [])); [exact Hc|].
  now rewrite assemble_snoc, Hc.
Qed.

Lemma assemble_length src cs : length (assemble src cs) = length cs.
Proof.
  induction cs as [|c cs IH] using rev_ind; [reflexivity|].
  rewrite assemble_snoc. unfold Chunker.emit.
  rewrite !length_app, IH. reflexivity.
Qed.

(** The [k]-th chunk: the [k]-th core, joined with spaces, behind the
    overlap taken from the chunks emitted before it. *)
Lemma assemble_lookup src cs k c :
  assemble src cs !! k = Some c ->
  exists core, cs !! k = Some core /\
    c = mkChunk (add_overlap (take k (assemble src cs)) (join " " core)) src k.
Proof.
  induction cs as [|x cs IH] using rev_ind; [discriminate|].
  rewrite assemble_snoc. unfold Chunker.emit. intros H.
  destruct (decide (k < length cs)) as [Hk|Hk].
  - rewrite lookup_app_l in H by (rewrite assemble_length; lia).
    destruct (IH H) as (core & Hcore & ->). exists core. split.
    + now rewrite lookup_app_l.
    + rewrite take_app_le by (rewrite assemble_length; lia). reflexivity.
  - assert (Hlen := lookup_lt_Some _ _ _ H).
    rewrite length_app, assemble_length in Hlen. simpl in Hlen.
    assert (k = length cs) as -> by lia.
    rewrite <- (assemble_length src cs) in H at 1.
    rewrite list_lookup_middle in H by reflexivity. injection H as <-.
    exists x. split.
    + now rewrite list_lookup_middle.
    + rewrite <- (assemble_length src cs) at 1.
      rewrite take_app_length, assemble_length. reflexivity.
Qed.

Lemma last_take_S {A} (l : list A) k x :
  l !! k = Some x -> last (take (S k) l) = Some x.
Proof.
  intros H. assert (Hlt := lookup_lt_Some _ _ _ H).
  rewrite last_lookup, length_take, Nat.min_l by lia. simpl.
  now rewrite lookup_take_lt by lia.
Qed.

(** ** Invariants of the trace *)

Lemma last_core_snoc prev cs c : last_core prev (cs ++ [c]) = c.
Proof. unfold last_core. now rewrite last_snoc. Qed.

Lemma last_core_cons prev c cs : last_core prev (c :: cs) = last_core c cs.
Proof. unfold last_core. rewrite last_cons. now destruct (last cs). Qed.

Lemma fresh_from_snoc prev cs c :
  fresh_from prev (cs ++ [c]) =
  fresh_from prev cs ++ [drop (length (seed_of (last_core prev cs))) c].
Proof.
  revert prev. induction cs as [|x cs IH]; intros prev; simpl; [reflexivity|].
  now rewrite IH, last_core_cons.
Qed.

Lemma cores_ok_snoc prev cs c :
  cores_ok prev cs -> core_ok (last_core prev cs) c -> cores_ok prev (cs ++ [c]).
Proof.
  revert prev. induction cs as [|x cs IH]; intros prev; simpl.
  - intros _ H. now split.
  - intros [Hx Hcs] H. split; [exact Hx|].
    apply IH; [exact Hcs|]. now rewrite last_core_cons in H.
Qed.

Lemma clean_snoc done s :
  clean (done ++ [s]) =
  clean done ++ (if is_empty (strip s) then [] else [strip s]).
Proof.
  unfold clean. rewrite List.map_app, List.filter_app. simpl.
  now destruct (is_empty (strip s)).
Qed.

Lemma seed_of_nil : seed_of [] = [].
Proof. unfold Chunker.seed_of. now destruct (0 <? chunk_overlap). Qed.

Lemma overlap_sentences_suffix cc : overlap_sentences cc `suffix_of` cc.
Proof. apply tail_slice_suffix. Qed.

Lemma seed_of_suffix cc : seed_of cc `suffix_of` cc.
Proof.
  unfold Chunker.seed_of. destruct (0 <? chunk_overlap).
  - apply overlap_sentences_suffix.
  - apply suffix_nil.
Qed.

Lemma trace_inv_init : trace_inv [] (mkCore [] [] 0).
Proof.
  split; simpl; auto.
  exists []. unfold last_core. simpl. rewrite seed_of_nil. repeat split; auto.
Qed.

(** Closing the current chunk keeps the emitted cores well formed. *)
Lemma trace_inv_close done g :
  trace_inv done g -> cur g <> [] ->
  cores_ok [] (cores g ++ [cur g]) /\
  Forall (Forall nonblank) (cores g ++ [cur g]) /\
  concat (fresh_parts (cores g ++ [cur g])) = clean done.
Proof.
  intros [Hc Hl Hnc Hn Hfst (f & Hcur & Hcat & Hf & Hsz)] Hne.
  split; [|split].
  - apply cores_ok_snoc; [exact Hc|]. exists f. repeat split; auto.
    destruct Hsz as [?|[?|?]]; [now left | now right | contradiction].
  - apply Forall_app. split; [exact Hn | now constructor].
  - unfold Chunker.fresh_parts. rewrite fresh_from_snoc, concat_app. simpl.
    rewrite app_nil_r, Hcur, drop_app_length. exact Hcat.
Qed.

Lemma trace_inv_step done g s :
  trace_inv done g -> trace_inv (done ++ [s]) (core_step g s).
Proof.
  intros H. pose proof H as [Hc Hl Hnc Hn Hfst (f & Hcur & Hcat & Hf & Hsz)].
  pose proof (clean_snoc done s) as Hclean.
  unfold Chunker.core_step.
  destruct (is_empty (strip s)) eqn:Es.
  { rewrite app_nil_r in Hclean. split; auto.
    exists f. rewrite Hclean. auto. }
  assert (Hs : nonblank (strip s)).
  { apply strip_not_blank. now apply is_empty_false. }
  destruct (chunk_size <? cur_len g + String.length (strip s)) eqn:Elt; simpl.
  - case_bool_decide as Hnil; simpl.
    + (* the first sentence of the document *)
      split; simpl.
      * exact Hc.
      * rewrite total_len_app, Hl. simpl. lia.
      * apply Forall_app. split; [exact Hnc | now constructor].
      * exact Hn.
      * intros E. now destruct (cur g).
      * exists (f ++ [strip s]). rewrite Hclean. rewrite Hcur at 1.
        rewrite <- app_assoc. repeat split.
        -- now rewrite app_assoc, Hcat.
        -- intros _ E. now destruct f.
        -- right. left. rewrite Hnil in Hcur.
           symmetry in Hcur. apply app_eq_nil in Hcur as [_ ->]. reflexivity.
    + (* the sentence closes the current chunk *)
      destruct (trace_inv_close done g H Hnil) as (Hc' & Hn' & Hcat').
      assert (Hseed : Forall nonblank (seed_of (cur g))).
      { destruct (seed_of_suffix (cur g)) as [k Hk].
        rewrite Hk in Hnc. now apply Forall_app in Hnc as [_ ?]. }
      assert (Hgoal : forall n, n = total_len (seed_of (cur g) ++ [strip s]) ->
        trace_inv (done ++ [s])
          (mkCore (cores g ++ [cur g]) (seed_of (cur g) ++ [strip s]) n)).
      { intros n ->. split; simpl.
        - exact Hc'.
        - reflexivity.
        - apply Forall_app. split; [exact Hseed | now constructor].
        - exact Hn'.
        - intros E. now destruct (seed_of (cur g)).
        - exists [strip s]. rewrite last_core_snoc, Hcat', Hclean.
          repeat split; auto. }
      unfold Chunker.seed_of in Hgoal. destruct (0 <? chunk_overlap).
      * now apply Hgoal.
      * apply Hgoal. simpl. lia.
  - (* the sentence joins the current chunk *)
    apply Nat.ltb_ge in Elt.
    split; simpl.
    + exact Hc.
    + rewrite total_len_app, Hl. simpl. lia.
    + apply Forall_app. split; [exact Hnc | now constructor].
    + exact Hn.
    + intros E. now destruct (cur g).
    + exists (f ++ [strip s]). rewrite Hclean. rewrite Hcur at 1.
      rewrite <- app_assoc. repeat split.
      * now rewrite app_assoc, Hcat.
      * intros _ E. now destruct f.
      * left. rewrite total_len_app, <- Hl. simpl. lia.
Qed.

Lemma trace_inv_run sentences done g :
  trace_inv done g ->
  trace_inv (done ++ sentences) (fold_left core_step sentences g).
Proof.
  revert done g. induction sentences as [|s l IH]; intros done g H; simpl.
  - now rewrite app_nil_r.
  - replace (done ++ s :: l) with ((done ++ [s]) ++ l)
      by now rewrite <- app_assoc.
    apply IH, trace_inv_step, H.
Qed.

(** The emitted cores of a whole document. *)
Lemma chunk_cores_ok sentences :
  cores_ok [] (chunk_cores sentences) /\
  Forall (Forall nonblank) (chunk_cores sentences) /\
  concat (fresh_parts (chunk_cores sentences)) = clean sentences.
Proof.
  pose proof (trace_inv_run sentences [] _ trace_inv_init) as H. simpl in H.
  unfold Chunker.chunk_cores, core_finish. case_bool_decide as Hnil.
  - destruct H as [Hc Hl Hnc Hn Hfst (f & Hcur & Hcat & Hf & Hsz)].
    repeat split; auto.
    rewrite Hnil in Hcur. symmetry in Hcur. apply app_eq_nil in Hcur as [_ ->].
    now rewrite app_nil_r in Hcat.
  - now apply trace_inv_close.
Qed.

(** ** Reading the invariants chunk by chunk *)

Lemma cores_ok_lookup prev cs k c :
  cores_ok prev cs -> cs !! k = Some c ->
  core_ok (match k with 0 => prev | S j => default prev (cs !! j) end) c.
Proof.
  revert prev k. induction cs as [|x cs IH]; intros prev k; [discriminate|].
  intros [Hx Hcs] Hk. destruct k as [|k]; simpl in *.
  - now injection Hk as <-.
  - specialize (IH x k Hcs Hk). destruct k as [|k]; simpl in *; [exact IH|].
    destruct (cs !! k) eqn:E; [exact IH|].
    apply lookup_lt_Some, Nat.lt_succ_l, lookup_lt_is_Some in Hk as [? ?].
    congruence.
Qed.

Lemma fresh_from_lookup prev cs k c :
  cs !! k = Some c ->
  fresh_from prev cs !! k =
  Some (drop (length (seed_of
          (match k with 0 => prev | S j => default prev (cs !! j) end))) c).
Proof.
  revert prev k. induction cs as [|x cs IH]; intros prev k; [discriminate|].
  intros Hk. destruct k as [|k]; simpl in *.
  - now injection Hk as <-.
  - rewrite (IH x k Hk). destruct k as [|k]; simpl; [reflexivity|].
    destruct (cs !! k) eqn:E; [reflexivity|].
    apply lookup_lt_Some, Nat.lt_succ_l, lookup_lt_is_Some in Hk as [? ?].
    congruence.
Qed.

Lemma core_ok_fresh prev c :
  core_ok prev c ->
  c = seed_of prev ++ drop (length (seed_of prev)) c /\
  drop (length (seed_of prev)) c <> [] /\
  (total_len c <= chunk_size \/ length (drop (length (seed_of prev)) c) = 1).
Proof.
  intros (f & -> & Hf & Hsz). now rewrite drop_app_length.
Qed.

(** Every emitted core has a sentence, and no sentence is blank. *)
Lemma chunk_cores_nonblank sentences k core :
  chunk_cores sentences !! k = Some core ->
  core <> [] /\ Forall nonblank core.
Proof.
  intros Hk. destruct (chunk_cores_ok sentences) as (Hok & Hnb & _).
  split.
  - destruct (cores_ok_lookup _ _ _ _ Hok Hk) as (f & -> & Hf & _).
    intros E. apply app_eq_nil in E as [_ ?]. contradiction.
  - rewrite Forall_forall in Hnb. apply Hnb.
    eapply list_elem_of_lookup_2, Hk.
Qed.

Lemma add_overlap_nonblank cs t : nonblank t -> nonblank (add_overlap cs t).
Proof.
  intros Ht. unfold Chunker.add_overlap.
  destruct (last cs); [|exact Ht].
  destruct (0 <? chunk_overlap); [|exact Ht].
  now apply lstrip_app_r, lstrip_app_r.
Qed.

Lemma core_text_nonblank core :
  core <> [] -> Forall nonblank core -> nonblank (join " " core).
Proof.
  intros Hne Hnb. destruct core as [|s l]; [contradiction|].
  apply join_not_blank. now inversion Hnb.
Qed.

(** So every chunk text has at least one word. *)
Lemma chunk_text_has_word sentences src k c :
  chunk_sentences sentences src !! k = Some c -> 0 < length (split (text c)).
Proof.
  rewrite chunk_sentences_assemble. intros Hk.
  destruct (assemble_lookup _ _ _ _ Hk) as (core & Hcore & ->). simpl.
  destruct (chunk_cores_nonblank _ _ _ Hcore) as [Hne Hnb].
  pose proof (split_not_nil _ (add_overlap_nonblank
    (take k (assemble src (chunk_cores sentences))) _
    (core_text_nonblank _ Hne Hnb))) as Hw.
  destruct (split _); [contradiction | simpl; lia].
Qed.

(** Every chunk is its core, joined with spaces, behind the overlap
    taken from the chunks before it; its id is its position. *)
Lemma chunk_text_core sentences src k c :
  chunk_sentences sentences src !! k = Some c ->
  exists core,
    chunk_cores sentences !! k = Some core /\
    text c = add_overlap (take k (chunk_sentences sentences src))
                         (join " " core) /\
    source c = src /\ chunk_id c = k.
Proof.
  rewrite chunk_sentences_assemble. intros Hk.
  destruct (assemble_lookup _ _ _ _ Hk) as (core & Hcore & ->).
  now exists core.
Qed.

(** The text of a chunk that has a predecessor. *)
Lemma chunk_text_after sentences src k prev c :
  0 < chunk_overlap ->
  chunk_sentences sentences src !! k = Some prev ->
  chunk_sentences sentences src !! S k = Some c ->
  exists core,
    chunk_cores sentences !! S k = Some core /\
    text c = (join " " (overlap_words chunk_overlap (text prev))
              ++ " " ++ join " " core)%string.
Proof.
  intros Hov Hprev Hc. rewrite chunk_sentences_assemble in Hprev, Hc.
  destruct (assemble_lookup _ _ _ _ Hc) as (core & Hcore & ->).
  exists core. split; [exact Hcore|]. simpl. unfold Chunker.add_overlap.
  rewrite (last_take_S _ _ _ Hprev).
  apply Nat.ltb_lt in Hov. now rewrite Hov.
Qed.

End WithSizes.
End ChunkerFacts.

(* ===================================================================== *)
(** * Facts about exceptions and list indexing                            *)
(* ===================================================================== *)

Module ExcFacts.

Lemma exc_bind_Ok {A B} (m : Exc A) (k : A -> Exc B) (b : B) :
  exc_bind m k = Ok b -> exists a, m = Ok a /\ k a = Ok b.
Proof. destruct m as [a|e]; simpl; [eauto | discriminate]. Qed.

Lemma py_index_Ok {A} (l : list A) (i : nat) (x : A) :
  py_index l i = Ok x <-> l !! i = Some x.
Proof.
  unfold py_index. destruct (l !! i); split; intros H; congruence.
Qed.

Lemma exc_map_Forall2 {A B} (f : A -> Exc B) (l : list A) (r : list B) :
  exc_map f l = Ok r -> Forall2 (fun x y => f x = Ok y) l r.
Proof.
  revert r. induction l as [|x l IH]; intros r; simpl.
  - intros [= <-]. constructor.
  - intros H. apply exc_bind_Ok in H as (y & Hy & H).
    apply exc_bind_Ok in H as (ys & Hys & [= <-]).
    constructor; auto.
Qed.

Lemma exc_map_Ok {A B} (f : A -> Exc B) (l : list A) :
  Forall (fun x => exists y, f x = Ok y) l -> exists r, exc_map f l = Ok r.
Proof.
  induction 1 as [|x l [y Hy] _ [r Hr]]; simpl; [eauto|].
  rewrite Hy, Hr. simpl. eauto.
Qed.

Lemma exc_map_length {A B} (f : A -> Exc B) (l : list A) (r : list B) :
  exc_map f l = Ok r -> length r = length l.
Proof. intros H. symmetry. eapply Forall2_length, exc_map_Forall2, H. Qed.

Lemma lookup_map {A B} (f : A -> B) (l : list A) (i : nat) :
  List.map f l !! i = f <$> (l !! i).
Proof.
  revert i. induction l as [|x l IH]; intros [|i]; simpl; auto.
Qed.

Lemma lookup_repeat {A} (x y : A) (n i : nat) :
  repeat x n !! i = Some y -> y = x.
Proof.
  revert i. induction n as [|n IH]; intros [|i]; simpl; try discriminate.
  - congruence.
  - apply IH.
Qed.

Lemma elem_of_rev {A} (l : list A) (x : A) : x ∈ rev l <-> x ∈ l.
Proof. rewrite !list_elem_of_In. symmetry. apply in_rev. Qed.

Lemma filter_length_le {A} (f : A -> bool) (l : list A) :
  length (List.filter f l) <= length l.
Proof.
  induction l as [|x l IH]; simpl; [lia|]. destruct (f x); simpl; lia.
Qed.

End ExcFacts.

(* ===================================================================== *)
(** * Facts about [argsort]                                               *)
(* ===================================================================== *)

Module ArgsortFacts.
Import PyStr.

Lemma score_le_trans scores i j k :
  score_le scores i j -> score_le scores j k -> score_le scores i k.
Proof. unfold score_le. apply Qle_trans. Qed.

Lemma insert_index_perm scores i l :
  Permutation (insert_index scores i l) (i :: l).
Proof.
  induction l as [|j l IH]; simpl; [reflexivity|].
  destruct (Qle_bool _ _); [reflexivity|].
  rewrite IH. apply perm_swap.
Qed.

Lemma insert_index_sorted scores i l :
  StronglySorted (score_le scores) l ->
  StronglySorted (score_le scores) (insert_index scores i l).
Proof.
  induction 1 as [|j l Hl IH Hj]; simpl.
  - repeat constructor.
  - destruct (Qle_bool (score_at scores i) (score_at scores j)) eqn:E.
    + apply Qle_bool_iff in E. constructor; [now constructor|].
      constructor; [exact E|].
      eapply Forall_impl; [exact Hj|]. intros k Hk.
      eapply score_le_trans; [exact E | exact Hk].
    + constructor; [exact IH|].
      assert (Hji : score_le scores j i).
      { unfold score_le. apply Qlt_le_weak, Qnot_le_lt. intros H.
        apply Qle_bool_iff in H. congruence. }
      rewrite Forall_forall. intros k Hk.
      apply list_elem_of_In in Hk.
      apply (Permutation_in _ (insert_index_perm scores i l)) in Hk.
      destruct Hk as [<- | Hk]; [exact Hji|].
      rewrite Forall_forall in Hj. apply Hj. now apply list_elem_of_In.
Qed.

(** The stable sort meets the contract of [argsort] on every array. *)
Lemma stable_argsort_spec scores : argsort_spec scores (stable_argsort scores).
Proof.
  unfold argsort_spec, stable_argsort.
  generalize (seq 0 (length scores)). intros l.
  induction l as [|i l [IHp IHs]]; simpl.
  - split; constructor.
  - split.
    + rewrite insert_index_perm. now constructor.
    + now apply insert_index_sorted.
Qed.

Lemma StronglySorted_rev {A} (R : A -> A -> Prop) (l : list A) :
  StronglySorted R l -> StronglySorted (flip R) (rev l).
Proof.
  induction 1 as [|x l Hl IH Hx]; simpl; [constructor|].
  apply StronglySorted_app_2.
  - intros y z Hy Hz. rewrite ExcFacts.elem_of_rev in Hy.
    apply list_elem_of_singleton in Hz as ->.
    rewrite Forall_forall in Hx. unfold flip. now apply Hx.
  - exact IH.
  - repeat constructor.
Qed.

Section Top.
Variable scores : list Q.
Variable idx : list nat.
Hypothesis Hspec : argsort_spec scores idx.
Variable k : nat.
Hypothesis Hk : 0 < k.

Local Abbreviation n := (length scores).
Local Abbreviation top := (rev (tail_slice k idx)).

Lemma idx_length : length idx = n.
Proof.
  destruct Hspec as [Hp _]. apply Permutation_length in Hp.
  now rewrite length_seq in Hp.
Qed.

Lemma tail_slice_drop : tail_slice k idx = drop (n - k) idx.
Proof.
  unfold tail_slice. destruct (Nat.eqb_spec k 0); [lia|].
  now rewrite idx_length.
Qed.

Lemma top_length : length top = Nat.min k n.
Proof.
  rewrite length_rev, tail_slice_drop, length_drop, idx_length. lia.
Qed.

Lemma top_elem i : i ∈ top -> i ∈ idx.
Proof.
  intros H. rewrite ExcFacts.elem_of_rev in H.
  rewrite tail_slice_drop in H.
  eapply elem_of_sublist; [exact H | apply sublist_drop].
Qed.

Lemma idx_range i : i ∈ idx <-> i < n.
Proof.
  destruct Hspec as [Hp _]. rewrite !list_elem_of_In.
  split; intros H.
  - apply (Permutation_in _ Hp), in_seq in H. lia.
  - apply (Permutation_in _ (Permutation_sym Hp)), in_seq. lia.
Qed.

Lemma top_range i : i ∈ top -> i < n.
Proof. intros H. now apply idx_range, top_elem. Qed.

Lemma top_NoDup : NoDup top.
Proof.
  apply NoDup_ListNoDup, NoDup_rev, NoDup_ListNoDup.
  rewrite tail_slice_drop. eapply sublist_NoDup; [|apply sublist_drop].
  destruct Hspec as [Hp _]. apply NoDup_ListNoDup.
  eapply Permutation_NoDup; [apply Permutation_sym, Hp|].
  apply seq_NoDup.
Qed.

(** The selected scores do not increase along [top]. *)
Lemma top_sorted : StronglySorted (flip (score_le scores)) top.
Proof.
  apply StronglySorted_rev. rewrite tail_slice_drop.
  destruct Hspec as [_ Hs].
  rewrite <- (take_drop (n - k) idx) in Hs.
  eapply StronglySorted_app_1_r, Hs.
Qed.

(** No index left out has a higher score than a selected one. *)
Lemma top_dominates i j :
  i < n -> i ∉ top -> j ∈ top -> score_le scores i j.
Proof.
  intros Hi Hni Hj. destruct Hspec as [_ Hs].
  rewrite <- (take_drop (n - k) idx) in Hs.
  rewrite ExcFacts.elem_of_rev in Hj.
  rewrite tail_slice_drop in Hj.
  eapply StronglySorted_app_1_elem_of; [exact Hs | | exact Hj].
  apply idx_range in Hi.
  rewrite <- (take_drop (n - k) idx) in Hi.
  apply elem_of_app in Hi as [Hi|Hi]; [exact Hi|].
  exfalso. apply Hni.
  rewrite ExcFacts.elem_of_rev. now rewrite tail_slice_drop.
Qed.

End Top.

End ArgsortFacts.

(* ===================================================================== *)
(** * The retriever                                                       *)
(* ===================================================================== *)

Module RetrieverFacts.
Import PyStr ExcFacts ArgsortFacts Bot.

Section WithServices.
Context {Vec Vocab : Type}.
Variable S : Services Vec Vocab.

Local Abbreviation Chatbot := (Chatbot Vec Vocab).

(** [hybrid_search] by cases: every path ends in a returned list. *)
Lemma hybrid_search_cases (st : Chatbot) q :
  hybrid_search S st q =
  match chunk_embeddings st with
  | None => Ok []
  | Some E =>
      if length (text_chunks st) =? 0 then Ok []
      else match encode_question S (seq 0 Config.MAX_RETRIES) q with
           | Encoded qe =>
               match select_top S st E q qe with
               | Ok selected => Ok (List.filter above_floor selected)
               | Raise _ => Ok []
               end
           | GaveUp | NotEncoded => Ok []
           end
  end.
Proof.
  unfold hybrid_search. destruct (chunk_embeddings st) as [E|]; [|reflexivity].
  destruct (length (text_chunks st) =? 0); [reflexivity|].
  destruct (encode_question S _ q) as [qe| |]; try reflexivity.
  unfold score_and_rank. now destruct (select_top S st E q qe).
Qed.

Lemma hybrid_search_total (st : Chatbot) q : exists l, hybrid_search S st q = Ok l.
Proof.
  rewrite hybrid_search_cases.
  destruct (chunk_embeddings st) as [E|]; [|eauto].
  destruct (length (text_chunks st) =? 0); [eauto|].
  destruct (encode_question S _ q) as [qe| |]; eauto.
  destruct (select_top S st E q qe); eauto.
Qed.

(** A non-empty answer comes from a scored selection. *)
Lemma hybrid_search_nonempty (st : Chatbot) q l r :
  hybrid_search S st q = Ok l -> In r l ->
  exists E qe selected,
    chunk_embeddings st = Some E /\
    encode_question S (seq 0 Config.MAX_RETRIES) q = Encoded qe /\
    select_top S st E q qe = Ok selected /\
    l = List.filter above_floor selected.
Proof.
  rewrite hybrid_search_cases. intros H Hr.
  destruct (chunk_embeddings st) as [E|]; [|injection H as <-; contradiction].
  destruct (length (text_chunks st) =? 0); [injection H as <-; contradiction|].
  destruct (encode_question S _ q) as [qe| |];
    try (injection H as <-; contradiction).
  destruct (select_top S st E q qe) as [selected|] eqn:Hsel;
    [|injection H as <-; contradiction].
  injection H as <-. now exists E, qe, selected.
Qed.

Lemma select_top_inv (st : Chatbot) E q qe selected :
  select_top S st E q qe = Ok selected ->
  exists sem kw comb,
    cos_sim S qe E = Ok sem /\
    keyword_scores_of S st q = Ok kw /\
    combine_scores sem kw = Ok comb /\
    exc_map (scored_chunk_at st sem kw comb) (top_indices S comb) = Ok selected.
Proof.
  unfold select_top. intros H.
  apply exc_bind_Ok in H as (sem & Hsem & H).
  apply exc_bind_Ok in H as (kw & Hkw & H).
  apply exc_bind_Ok in H as (comb & Hcomb & H).
  now exists sem, kw, comb.
Qed.

Lemma scored_chunk_at_inv (st : Chatbot) sem kw comb i r :
  scored_chunk_at st sem kw comb i = Ok r ->
  text_chunks st !! i = Some (chunk r) /\
  sem !! i = Some (semantic_score r) /\
  kw !! i = Some (keyword_score r) /\
  comb !! i = Some (combined_score r).
Proof.
  unfold scored_chunk_at. intros H.
  apply exc_bind_Ok in H as (c & Hc & H).
  apply exc_bind_Ok in H as (s & Hs & H).
  apply exc_bind_Ok in H as (k & Hk & H).
  apply exc_bind_Ok in H as (b & Hb & [= <-]).
  apply py_index_Ok in Hc, Hs, Hk, Hb. now simpl.
Qed.

Lemma scored_chunk_at_Ok (st : Chatbot) sem kw comb i :
  i < length (text_chunks st) -> i < length sem -> i < length kw ->
  i < length comb ->
  exists r, scored_chunk_at st sem kw comb i = Ok r.
Proof.
  intros H1 H2 H3 H4. unfold scored_chunk_at, py_index.
  apply lookup_lt_is_Some in H1 as [c ->], H2 as [s ->], H3 as [k ->],
    H4 as [b ->].
  simpl. eauto.
Qed.

Lemma top_indices_length_le comb :
  length (top_indices S comb) <= Config.SEARCH_RESULTS.
Proof.
  unfold top_indices, tail_slice. rewrite length_rev. simpl.
  rewrite length_skipn. unfold Config.SEARCH_RESULTS. lia.
Qed.

(** ** The arithmetic of the scores *)

Lemma np_add_lookup a b c i x y z :
  np_add a b = Ok c ->
  a !! i = Some x -> b !! i = Some y -> c !! i = Some z ->
  z = (x + y)%Q.
Proof.
  unfold np_add. intros H Ha Hb Hc.
  destruct (length a =? length b).
  - injection H as <-. rewrite lookup_zip_with, Ha, Hb in Hc. simpl in Hc.
    congruence.
  - destruct a as [|x0 [|x1 a]].
    + discriminate.
    + destruct i as [|i]; [|discriminate]. injection Ha as ->.
      injection H as <-. rewrite lookup_map, Hb in Hc. simpl in Hc. congruence.
    + destruct b as [|y0 [|y1 b]]; try discriminate.
      destruct i as [|i]; [|discriminate]. injection Hb as ->.
      injection H as <-. simpl in *. congruence.
Qed.

Lemma np_add_same_length a b :
  length a = length b ->
  np_add a b = Ok (zip_with Qplus a b).
Proof. intros H. unfold np_add. now rewrite H, Nat.eqb_refl. Qed.

(** [combined_scores[i] = 0.7 * ((semantic_scores[i] + 1) / 2)
                          + 0.3 * keyword_scores[i]]. *)
Lemma combine_scores_lookup sem kw comb i s k c :
  combine_scores sem kw = Ok comb ->
  sem !! i = Some s -> kw !! i = Some k -> comb !! i = Some c ->
  c = (semantic_weight * ((s + 1) / 2) + keyword_weight * k)%Q.
Proof.
  unfold combine_scores. intros H Hs Hk Hc.
  eapply (np_add_lookup _ _ _ i); [exact H | | | exact Hc].
  - now rewrite !lookup_map, Hs.
  - now rewrite lookup_map, Hk.
Qed.

Lemma combine_scores_same_length sem kw :
  length sem = length kw ->
  exists comb, combine_scores sem kw = Ok comb /\ length comb = length sem.
Proof.
  intros H. unfold combine_scores. rewrite np_add_same_length.
  - eexists. split; [reflexivity|].
    rewrite length_zip_with, !length_map. lia.
  - rewrite !length_map. exact H.
Qed.

(** ** Where the scores come from *)

Lemma cos_sim_lookup E qe sem i s :
  cos_sim S qe E = Ok sem -> sem !! i = Some s ->
  exists row, E !! i = Some row /\ cosine S qe row = Ok s.
Proof.
  intros H Hs. apply exc_map_Forall2 in H.
  eapply Forall2_lookup_r in H as (row & Hrow & Hcos); eauto.
Qed.

Lemma keyword_scores_of_lookup (st : Chatbot) q kw i k :
  keyword_scores_of S st q = Ok kw -> kw !! i = Some k ->
  match tfidf_vectorizer st, tfidf_matrix st with
  | Some v, Some matrix =>
      exists voc question_tfidf row,
        v = Fitted voc /\
        transform S voc q = Ok question_tfidf /\
        matrix !! i = Some row /\
        kw_cosine S question_tfidf row = Ok k
  | _, _ => k = 0%Q
  end.
Proof.
  unfold keyword_scores_of. intros H Hk.
  destruct (tfidf_vectorizer st) as [v|], (tfidf_matrix st) as [M|];
    try (injection H as <-; now apply lookup_repeat in Hk).
  apply exc_bind_Ok in H as (qv & Hqv & H).
  destruct v as [|voc]; [discriminate|].
  apply exc_map_Forall2 in H.
  eapply Forall2_lookup_r in H as (row & Hrow & Hcos); eauto.
  now exists voc, qv, row.
Qed.

Lemma keyword_scores_of_length (st : Chatbot) q kw :
  keyword_scores_of S st q = Ok kw ->
  (forall matrix, tfidf_matrix st = Some matrix ->
                  length matrix = length (text_chunks st)) ->
  length kw = length (text_chunks st).
Proof.
  unfold keyword_scores_of. intros H HM.
  destruct (tfidf_vectorizer st) as [v|], (tfidf_matrix st) as [M|];
    try (injection H as <-; now rewrite repeat_length).
  apply exc_bind_Ok in H as (qv & _ & H).
  apply exc_map_length in H. rewrite H. now apply HM.
Qed.

(** The arrays computed by [hybrid_search] follow the scoring rule at
    every index. *)
Lemma scores_scored_as (st : Chatbot) q E qe sem kw comb i s k c :
  cos_sim S qe E = Ok sem ->
  keyword_scores_of S st q = Ok kw ->
  combine_scores sem kw = Ok comb ->
  sem !! i = Some s -> kw !! i = Some k -> comb !! i = Some c ->
  scored_as S st q E qe i s k c.
Proof.
  intros Hsem Hkw Hcomb Hs Hk Hc. split; [|split].
  - eapply cos_sim_lookup; eauto.
  - eapply keyword_scores_of_lookup; eauto.
  - eapply combine_scores_lookup; eauto.
Qed.

(** Every selected chunk carries the scores of its own index. *)
Lemma select_top_scored_as (st : Chatbot) q E qe selected :
  select_top S st E q qe = Ok selected ->
  Forall (fun r => exists i,
            text_chunks st !! i = Some (chunk r) /\
            scored_as S st q E qe i (semantic_score r) (keyword_score r)
                      (combined_score r)) selected.
Proof.
  intros H. apply select_top_inv in H as (sem & kw & comb & Hs & Hk & Hc & H).
  apply exc_map_Forall2 in H. rewrite Forall_forall. intros r Hr.
  apply list_elem_of_lookup in Hr as [a Ha].
  eapply Forall2_lookup_r in H as (i & _ & Hi); [|exact Ha].
  apply scored_chunk_at_inv in Hi as (H1 & H2 & H3 & H4).
  exists i. split; [exact H1|]. eapply scores_scored_as; eauto.
Qed.

Lemma Forall_filter_In {A} (P : A -> Prop) (f : A -> bool) (l : list A) :
  Forall P l -> Forall P (List.filter f l).
Proof.
  rewrite !Forall_forall. intros H x Hx. apply H.
  apply list_elem_of_In in Hx. apply filter_In in Hx as [Hx _].
  now apply list_elem_of_In.
Qed.

Lemma above_floor_spec r :
  above_floor r = true <-> (relevance_floor < combined_score r)%Q.
Proof.
  unfold above_floor. rewrite negb_true_iff. split.
  - intros H. apply Qnot_le_lt. intros Hle.
    apply Qle_bool_iff in Hle. congruence.
  - intros H. destruct (Qle_bool _ _) eqn:E; [|reflexivity].
    apply Qle_bool_iff in E. now apply Qlt_not_le in H.
Qed.

Lemma filter_above_floor l :
  Forall (fun r => (relevance_floor < combined_score r)%Q)
         (List.filter above_floor l).
Proof.
  rewrite Forall_forall. intros r Hr. apply list_elem_of_In in Hr.
  apply filter_In in Hr as [_ Hr]. now apply above_floor_spec.
Qed.

Lemma filter_none_above_floor l :
  Forall (fun r => (combined_score r <= relevance_floor)%Q) l ->
  List.filter above_floor l = [].
Proof.
  induction 1 as [|r l Hr _ IH]; simpl; [reflexivity|].
  destruct (above_floor r) eqn:E; [|exact IH].
  apply above_floor_spec in E. now apply Qlt_not_le in E.
Qed.

Lemma StronglySorted_filter {A} (R : A -> A -> Prop) (f : A -> bool) l :
  StronglySorted R l -> StronglySorted R (List.filter f l).
Proof.
  induction 1 as [|x l Hl IH Hx]; simpl; [constructor|].
  destruct (f x); [|exact IH].
  constructor; [exact IH | now apply Forall_filter_In].
Qed.

Lemma StronglySorted_Forall2 {A B} (P : A -> B -> Prop)
    (R1 : A -> A -> Prop) (R2 : B -> B -> Prop) l1 l2 :
  (forall x y x' y', P x x' -> P y y' -> R1 x y -> R2 x' y') ->
  Forall2 P l1 l2 -> StronglySorted R1 l1 -> StronglySorted R2 l2.
Proof.
  intros HR H. induction H as [|x x' l1 l2 Hx Hl IH]; intros Hs.
  - constructor.
  - apply StronglySorted_inv in Hs as [Hs Hall]. constructor; [now apply IH|].
    rewrite Forall_forall. intros y' Hy'.
    apply list_elem_of_lookup in Hy' as [a Ha].
    eapply Forall2_lookup_r in Hl as (y & Hy & HP); [|exact Ha].
    apply (HR x y x' y' Hx HP).
    rewrite Forall_forall in Hall. apply Hall.
    eapply list_elem_of_lookup_2, Hy.
Qed.

End WithServices.
End RetrieverFacts.

(* ===================================================================== *)
(** * The index build                                                     *)
(* ===================================================================== *)

Module IndexFacts.
Import PyStr ExcFacts Bot.

Lemma Forall2_concat_rows {A B} (P : A -> B -> Prop) ls ks :
  Forall2 (Forall2 P) ls ks -> Forall2 P (concat ls) (concat ks).
Proof.
  induction 1 as [|l k ls ks Hlk _ IH]; simpl; [constructor|].
  now apply Forall2_app.
Qed.

Lemma Forall2_map_l {A B C} (f : A -> B) (P : B -> C -> Prop) l k :
  Forall2 (fun x y => P (f x) y) l k -> Forall2 P (List.map f l) k.
Proof. induction 1; simpl; constructor; auto. Qed.

(** ** The batches cover the chunk texts, in order *)

Lemma slices_concat {A} (l : list A) (b m : nat) :
  concat (List.map (fun j => take b (drop (j * b) l)) (seq 0 m))
  = take (m * b) l.
Proof.
  induction m as [|m IH]; [reflexivity|].
  rewrite seq_S, List.map_app, concat_app, IH. simpl.
  rewrite app_nil_r, take_take_drop. f_equal. lia.
Qed.

Lemma batches_concat (chunk_texts : list string) :
  concat (List.map (batch_at chunk_texts)
            (range_step (length chunk_texts) Config.BATCH_SIZE))
  = chunk_texts.
Proof.
  unfold range_step, batch_at. rewrite List.map_map, slices_concat.
  apply take_ge. unfold Config.BATCH_SIZE.
  pose proof (Nat.div_mod (length chunk_texts + 32 - 1) 32) as H.
  pose proof (Nat.mod_upper_bound (length chunk_texts + 32 - 1) 32) as H'.
  lia.
Qed.

Section WithServices.
Context {Vec Vocab : Type}.
Variable S : Services Vec Vocab.

Local Abbreviation Chatbot := (Chatbot Vec Vocab).

(** ** The retry loop around a batch *)

Lemma encode_batch_retry_Ok i batch r :
  encode_batch_retry S (seq 0 Config.MAX_RETRIES) i batch = Ok r ->
  exists attempt rows,
    r = Some rows /\ attempt < Config.MAX_RETRIES /\
    encode_batch S i attempt batch = Ok rows.
Proof.
  unfold Config.MAX_RETRIES. simpl.
  destruct (encode_batch S i 0 batch) as [rows|e0] eqn:E0.
  - intros [= <-]. exists 0, rows. repeat split; [lia | exact E0].
  - destruct (encode_batch S i 1 batch) as [rows|e1] eqn:E1; [|discriminate].
    intros [= <-]. exists 1, rows. repeat split; [lia | exact E1].
Qed.

Lemma encode_batch_retry_exhausted i batch :
  (forall attempt, attempt < Config.MAX_RETRIES ->
     exists e, encode_batch S i attempt batch = Raise e) ->
  exists e, encode_batch_retry S (seq 0 Config.MAX_RETRIES) i batch = Raise e.
Proof.
  intros H. unfold Config.MAX_RETRIES in *. simpl.
  destruct (H 0) as [e0 ->]; [lia|]. destruct (H 1) as [e1 ->]; [lia|].
  simpl. eauto.
Qed.

(** ** The loop over the batches *)

Lemma encode_batches_cons chunk_texts i starts acc :
  encode_batches S chunk_texts (i :: starts) acc =
  exc_bind (encode_batch_retry S (seq 0 Config.MAX_RETRIES) i
              (batch_at chunk_texts i))
    (fun r => encode_batches S chunk_texts starts
                (match r with
                 | Some batch_embeddings => acc ++ [batch_embeddings]
                 | None => acc
                 end)).
Proof. reflexivity. Qed.

Lemma encode_batches_Ok chunk_texts starts acc out :
  encode_batches S chunk_texts starts acc = Ok out ->
  exists rows_list,
    out = acc ++ rows_list /\
    Forall2 (fun i rows =>
               exists attempt, attempt < Config.MAX_RETRIES /\
                 encode_batch S i attempt (batch_at chunk_texts i) = Ok rows)
            starts rows_list.
Proof.
  revert acc. induction starts as [|i starts IH]; intros acc; simpl.
  - intros [= <-]. exists []. rewrite app_nil_r. split; [reflexivity|constructor].
  - intros H. apply exc_bind_Ok in H as (r & Hr & H).
    apply encode_batch_retry_Ok in Hr as (attempt & rows & -> & Hlt & Hrows).
    apply IH in H as (rest & -> & Hrest).
    exists (rows :: rest). rewrite <- app_assoc. split; [reflexivity|].
    constructor; eauto.
Qed.

Lemma encode_batches_exhausted chunk_texts starts acc i :
  In i starts ->
  (forall attempt, attempt < Config.MAX_RETRIES ->
     exists e, encode_batch S i attempt (batch_at chunk_texts i) = Raise e) ->
  exists e, encode_batches S chunk_texts starts acc = Raise e.
Proof.
  intros Hin Hfail. revert acc.
  induction starts as [|i0 starts IH]; intros acc; [contradiction|].
  rewrite encode_batches_cons.
  destruct (encode_batch_retry S (seq 0 Config.MAX_RETRIES) i0
              (batch_at chunk_texts i0)) as [r|e] eqn:E; simpl; [|eauto].
  destruct Hin as [-> | Hin]; [|now apply IH].
  destruct (encode_batch_retry_exhausted _ _ Hfail) as [e He]. congruence.
Qed.

(** ** [create_chunks_and_embeddings] *)

Lemma _create_tfidf_index_fields (st : Chatbot) r st' :
  _create_tfidf_index S st = (r, st') ->
  pdf_contents st' = pdf_contents st /\
  text_chunks st' = text_chunks st /\
  chunk_embeddings st' = chunk_embeddings st.
Proof.
  unfold _create_tfidf_index. destruct (text_chunks st) eqn:Hc.
  - intros [= <- <-]. auto.
  - destruct (fit_transform S _) as [[voc M]|e]; intros [= <- <-]; auto.
Qed.

Lemma _create_tfidf_index_Ok (st : Chatbot) st' :
  text_chunks st <> [] ->
  _create_tfidf_index S st = (Ok tt, st') ->
  exists voc M,
    fit_transform S (List.map text (text_chunks st)) = Ok (voc, M) /\
    tfidf_vectorizer st' = Some (Fitted voc) /\
    tfidf_matrix st' = Some M.
Proof.
  unfold _create_tfidf_index. intros Hne.
  destruct (text_chunks st) eqn:Hc; [contradiction|].
  destruct (fit_transform S _) as [[voc M]|e]; intros [= <-].
  now exists voc, M.
Qed.

(** The build by cases. *)
Lemma create_cases tok (st : Chatbot) :
  let chunks := all_chunks tok (pdf_contents st) in
  let st1 := set_text_chunks chunks st in
  create_chunks_and_embeddings S tok st =
  match pdf_contents st with
  | [] => (Ok false, set_text_chunks [] st)
  | _ :: _ =>
      match chunks with
      | [] => (Ok false, st1)
      | _ :: _ =>
          match exc_bind
                  (encode_batches S (List.map text chunks)
                     (range_step (length (List.map text chunks))
                                 Config.BATCH_SIZE) [])
                  torch_cat with
          | Ok embeddings =>
              match _create_tfidf_index S
                      (set_chunk_embeddings (Some embeddings) st1) with
              | (Ok _, st') => (Ok true, st')
              | (Raise _, st') => (Ok false, st')
              end
          | Raise _ => (Ok false, st1)
          end
      end
  end.
Proof.
  unfold create_chunks_and_embeddings. simpl.
  destruct (pdf_contents st); [reflexivity|].
  destruct (all_chunks tok _); reflexivity.
Qed.

(** A batch without a successful attempt makes the build fail, and the
    embedding matrix is not assigned. *)
Lemma create_exhausted tok (st : Chatbot) :
  batch_exhausted S tok (pdf_contents st) ->
  fst (create_chunks_and_embeddings S tok st) = Ok false /\
  chunk_embeddings (snd (create_chunks_and_embeddings S tok st))
  = chunk_embeddings st.
Proof.
  intros (i & Hin & Hfail). rewrite create_cases.
  destruct (pdf_contents st); [now split|].
  destruct (all_chunks tok _) as [|c cs] eqn:Hc; [now split|].
  destruct (encode_batches_exhausted (List.map text (c :: cs)) _ [] i Hin Hfail)
    as [e ->].
  now split.
Qed.

Section Contract.
(** What the build assumes of the embedding model and of the TF-IDF fit:
    an answer has one row per text, in the order of the texts.  [embeds]
    and [weighs] say what a row is to its text. *)
Variable embeds : string -> Vec -> Prop.
Variable weighs : Vocab -> string -> Vec -> Prop.
Hypothesis encode_contract :
  forall i attempt batch rows,
    encode_batch S i attempt batch = Ok rows -> Forall2 embeds batch rows.
Hypothesis fit_contract :
  forall texts voc matrix,
    fit_transform S texts = Ok (voc, matrix) ->
    Forall2 (weighs voc) texts matrix.

Lemma encode_all_rows chunk_texts out :
  exc_bind (encode_batches S chunk_texts
              (range_step (length chunk_texts) Config.BATCH_SIZE) [])
           torch_cat = Ok out ->
  Forall2 embeds chunk_texts out.
Proof.
  intros H. apply exc_bind_Ok in H as (l & Hl & Hcat).
  apply encode_batches_Ok in Hl as (rows_list & -> & HF). simpl in Hcat.
  assert (Hout : out = concat rows_list).
  { unfold torch_cat in Hcat. destruct rows_list; [discriminate|]. congruence. }
  subst out. rewrite <- (batches_concat chunk_texts) at 1.
  apply Forall2_concat_rows, Forall2_map_l.
  eapply Forall2_impl; [exact HF|].
  intros i rows (attempt & _ & Hrows). eapply encode_contract, Hrows.
Qed.

(** A successful build leaves one embedding and one TF-IDF row per
    chunk, in chunk order. *)
Lemma create_success tok (st st' : Chatbot) :
  create_chunks_and_embeddings S tok st = (Ok true, st') ->
  text_chunks st' = all_chunks tok (pdf_contents st) /\
  exists E voc M,
    chunk_embeddings st' = Some E /\
    tfidf_vectorizer st' = Some (Fitted voc) /\
    tfidf_matrix st' = Some M /\
    Forall2 embeds (List.map text (text_chunks st')) E /\
    Forall2 (weighs voc) (List.map text (text_chunks st')) M.
Proof.
  rewrite create_cases.
  destruct (pdf_contents st); [discriminate|].
  destruct (all_chunks tok _) as [|c cs] eqn:Hc; [discriminate|].
  destruct (exc_bind _ torch_cat) as [E|e] eqn:HE; [|discriminate].
  destruct (_create_tfidf_index S _) as [[[]|e] st2] eqn:Ht; [|discriminate].
  intros [= <-].
  destruct (_create_tfidf_index_fields _ _ _ Ht) as (_ & Hchunks & Hemb).
  simpl in Hchunks, Hemb.
  apply _create_tfidf_index_Ok in Ht as (voc & M & Hfit & Hv & HM);
    [|simpl; discriminate].
  simpl in Hfit. split; [exact Hchunks|].
  exists E, voc, M. rewrite Hchunks.
  split; [exact Hemb|]. split; [exact Hv|]. split; [exact HM|]. split.
  - now apply encode_all_rows.
  - now apply fit_contract.
Qed.

End Contract.

End WithServices.
End IndexFacts.

(* ===================================================================== *)
(** * The cache                                                           *)
(* ===================================================================== *)

Module CacheFacts.
Import PyStr ExcFacts Bot.

Section WithServices.
Context {Vec Vocab : Type}.
Variable S : Services Vec Vocab.

Local Abbreviation Chatbot := (Chatbot Vec Vocab).
Local Abbreviation File := (File Vec Vocab).

(** ** Reading *)

Lemma load_chunks_Ok (fs : gmap string File) path chunks :
  load_chunks fs path = Ok chunks <-> fs !! path = Some (FChunks chunks).
Proof.
  unfold load_chunks, open_read. destruct (fs !! path) as [[]|]; simpl;
    split; intros H; congruence.
Qed.

Lemma np_load_Ok (fs : gmap string File) path rows :
  np_load fs path = Ok rows <-> fs !! path = Some (FArray rows).
Proof.
  unfold np_load, open_read. destruct (fs !! path) as [[]|]; simpl;
    split; intros H; congruence.
Qed.

Lemma pickle_load_missing (fs : gmap string File) path :
  fs !! path = None -> pickle_load fs path = Raise FileNotFoundError.
Proof. unfold pickle_load, open_read. now intros ->. Qed.


(** ** [load_from_cache] *)




(** The load when the chunks and the embeddings are there and the
    pickled vectorizer is not. *)
Lemma load_from_cache_rebuild (fs : gmap string File) now identifier
    (st : Chatbot) chunks rows :
  let p := get_cache_path S identifier in
  is_cache_valid S fs now p = true ->
  fs !! chunks_file p = Some (FChunks chunks) ->
  fs !! embeddings_file p = Some (FArray rows) ->
  fs !! vectorizer_file p = None ->
  load_from_cache S fs now identifier st =
  match _create_tfidf_index S
          (set_chunk_embeddings (Some rows) (set_text_chunks chunks st)) with
  | (Ok _, st') => (Ok true, st')
  | (Raise _, st') => (Ok false, st')
  end.
Proof.
  intros p Hv Hc He Hp. unfold load_from_cache. fold p. rewrite Hv. simpl.
  apply load_chunks_Ok in Hc. apply np_load_Ok in He. rewrite Hc, He.
  unfold load_tfidf. now rewrite (pickle_load_missing _ _ Hp).
Qed.

(** ** Writing *)





End WithServices.
End CacheFacts.

(* ===================================================================== *)
(** * The chunker at the configured sizes                                 *)
(* ===================================================================== *)

Module ChunkerClaims.
Import PyStr PyStrFacts Chunker ChunkerFacts Samples.

Local Abbreviation cores_of tok txt :=
  (chunk_cores Config.CHUNK_SIZE Config.CHUNK_OVERLAP (sentences_of tok txt)).

Lemma smart_chunk_text_assemble tok txt src :
  smart_chunk_text tok txt src =
  assemble Config.CHUNK_OVERLAP src (cores_of tok txt).
Proof. apply chunk_sentences_assemble. Qed.

Lemma three_long_sentences_cores :
  cores_of no_punkt three_long_sentences =
  [ [sentence_of_length 500 "a"];
    [sentence_of_length 500 "a"; sentence_of_length 500 "b"];
    [sentence_of_length 500 "a"; sentence_of_length 500 "b";
     sentence_of_length 500 "c"] ].
Proof. vm_compute. reflexivity. Qed.

Lemma clean_three_long_sentences :
  clean (sentences_of no_punkt three_long_sentences) =
  [sentence_of_length 500 "a"; sentence_of_length 500 "b";
   sentence_of_length 500 "c"].
Proof. vm_compute. reflexivity. Qed.

(** The chunks themselves: the first is the first sentence; each later
    one is all the words of its predecessor (fewer than 30), then its
    own core. *)
Example three_long_sentences_chunks :
  let a := sentence_of_length 500 "a" in
  let b := sentence_of_length 500 "b" in
  let c := sentence_of_length 500 "c" in
  smart_chunk_text no_punkt three_long_sentences "handbook.pdf" =
  [ mkChunk a "handbook.pdf" 0;
    mkChunk (a ++ " " ++ join " " [a; b]) "handbook.pdf" 1;
    mkChunk (join " " [a; a; b] ++ " " ++ join " " [a; b; c])
            "handbook.pdf" 2 ].
Proof. vm_compute. reflexivity. Qed.

(** ** C1: coverage of the sentences *)

(** C1, as stated, fails.  On three sentences of 500 characters the cores
    of the three chunks are [[a]], [[a; b]] and [[a; b; c]]: the first
    sentence is in the core of all three chunks, so the cores, one after
    the other, are not the input's sentences each once. *)
Lemma smart_chunk_text_repeats_sentences :
  ~ (forall tok txt,
        covers_exactly_once (clean (sentences_of tok txt)) (cores_of tok txt)).
Proof.
  intros H. specialize (H no_punkt three_long_sentences).
  unfold covers_exactly_once in H.
  rewrite three_long_sentences_cores, clean_three_long_sentences in H.
  apply (f_equal (@length string)) in H. simpl in H. discriminate.
Qed.

(** C1, amended: no sentence of the input is dropped.  The text of the
    [k]-th chunk is its core, the [k]-th of [cores_of], joined with
    spaces, behind the overlap prefix; every sentence (stripped, the
    empty ones skipped) is in the core of some chunk; every core is its
    continuation seed, the last [min(2, n)] sentences of the core before
    it (none for the first chunk), followed by new sentences; and the new
    sentences of all cores, in order, are the sentences of the input,
    each once. *)
Theorem smart_chunk_text_covers_sentences tok txt src :
  let sentences := clean (sentences_of tok txt) in
  let cs := cores_of tok txt in
  let chunks := smart_chunk_text tok txt src in
  length chunks = length cs /\
  (forall k c, chunks !! k = Some c ->
     exists core,
       cs !! k = Some core /\
       text c = add_overlap Config.CHUNK_OVERLAP (take k chunks)
                            (join " " core)) /\
  (forall s, In s sentences -> exists core, In core cs /\ In s core) /\
  (forall k core, cs !! k = Some core ->
     exists fresh,
       fresh_parts Config.CHUNK_OVERLAP cs !! k = Some fresh /\
       core = overlap_sentences (prev_core cs k) ++ fresh /\
       length (overlap_sentences (prev_core cs k)) <= 2) /\
  concat (fresh_parts Config.CHUNK_OVERLAP cs) = sentences.
Proof.
  intros sentences cs chunks.
  destruct (chunk_cores_ok Config.CHUNK_SIZE Config.CHUNK_OVERLAP
              (sentences_of tok txt)) as (Hok & _ & Hcat).
  fold cs in Hok, Hcat. fold sentences in Hcat.
  assert (Hk : forall k core, cs !! k = Some core ->
     exists fresh,
       fresh_parts Config.CHUNK_OVERLAP cs !! k = Some fresh /\
       core = overlap_sentences (prev_core cs k) ++ fresh /\
       length (overlap_sentences (prev_core cs k)) <= 2).
  { intros k core Hcore.
    pose proof (cores_ok_lookup _ _ _ _ _ _ Hok Hcore) as Hc.
    apply core_ok_fresh in Hc as (Heq & _ & _).
    exists (drop (length (overlap_sentences (prev_core cs k))) core).
    split; [|split].
    - unfold fresh_parts. now rewrite (fresh_from_lookup _ [] cs k core Hcore).
    - exact Heq.
    - unfold overlap_sentences, tail_slice.
      destruct (Nat.eqb_spec (Nat.min 2 (length (prev_core cs k))) 0) as [E|E].
      + lia.
      + rewrite length_drop. lia. }
  split.
  { unfold chunks. rewrite smart_chunk_text_assemble. apply assemble_length. }
  split.
  { intros k c Hc.
    destruct (chunk_text_core _ _ _ _ _ _ Hc) as (core & ? & ? & _).
    now exists core. }
  split; [|split; assumption].
  intros s Hs. rewrite <- Hcat in Hs. apply in_concat in Hs as (f & Hf & Hs).
  apply list_elem_of_In, list_elem_of_lookup in Hf as [k Hf].
  assert (Hlt : k < length cs).
  { apply lookup_lt_Some in Hf. unfold fresh_parts in Hf.
    revert Hf. clear. generalize (@nil string). generalize k.
    induction cs as [|c l IH]; intros j prev; simpl; [lia|].
    destruct j; [lia|]. intros H. apply Nat.succ_lt_mono in H.
    apply IH in H. lia. }
  apply lookup_lt_is_Some in Hlt as [core Hcore].
  destruct (Hk k core Hcore) as (fresh & Hfresh & Heq & _).
  exists core. split.
  - apply list_elem_of_In. eapply list_elem_of_lookup_2, Hcore.
  - rewrite Heq. apply in_or_app. right. congruence.
Qed.

(** ** C9: the size of a core *)

(** C9, as stated, fails.  The second chunk of three sentences of 500
    characters has the core [a b]: two sentences, 1001 characters. *)
Lemma smart_chunk_text_core_exceeds_size :
  ~ (forall tok txt k core,
        cores_of tok txt !! k = Some core ->
        String.length (join " " core) <= Config.CHUNK_SIZE \/
        exists s, core = [s] /\ Config.CHUNK_SIZE < String.length s).
Proof.
  intros H.
  specialize (H no_punkt three_long_sentences 1
                [sentence_of_length 500 "a"; sentence_of_length 500 "b"]).
  rewrite three_long_sentences_cores in H. specialize (H eq_refl).
  destruct H as [H | (s & H & _)]; [|discriminate].
  vm_compute in H. lia.
Qed.

(** The separators are not counted either: two sentences of 400
    characters stay in one chunk, whose core has 801 characters. *)
Example two_sentences_800_core :
  cores_of no_punkt two_sentences_800 =
    [[sentence_of_length 400 "a"; sentence_of_length 400 "b"]] /\
  String.length
    (join " " [sentence_of_length 400 "a"; sentence_of_length 400 "b"]) = 801.
Proof. split; vm_compute; reflexivity. Qed.

(** C9, amended: the text of every chunk is its core, joined with
    spaces, behind the overlap prefix, and the sentences of the core
    total at most the target size (the single spaces that join them are
    not counted: the core text is longer by one character per sentence
    after the first), unless the core has exactly one sentence after its
    continuation seed, the up to two sentences repeated from the core
    before it.  The first chunk has no seed, so there the exception is a
    single sentence. *)
Theorem smart_chunk_text_core_size tok txt src k c :
  smart_chunk_text tok txt src !! k = Some c ->
  exists core fresh,
    cores_of tok txt !! k = Some core /\
    text c = add_overlap Config.CHUNK_OVERLAP
               (take k (smart_chunk_text tok txt src)) (join " " core) /\
    core = overlap_sentences (prev_core (cores_of tok txt) k) ++ fresh /\
    (total_len core <= Config.CHUNK_SIZE \/ length fresh = 1) /\
    String.length (join " " core) = total_len core + (length core - 1).
Proof.
  intros Hc.
  destruct (chunk_text_core _ _ _ _ _ _ Hc) as (core & Hcore & Htext & _).
  destruct (chunk_cores_ok Config.CHUNK_SIZE Config.CHUNK_OVERLAP
              (sentences_of tok txt)) as (Hok & _ & _).
  pose proof (cores_ok_lookup _ _ _ _ _ _ Hok Hcore) as H.
  apply core_ok_fresh in H as (Heq & _ & Hsz).
  exists core,
    (drop (length (overlap_sentences (prev_core (cores_of tok txt) k))) core).
  split; [exact Hcore|]. split; [exact Htext|]. split; [exact Heq|].
  split; [exact Hsz | apply length_join_space].
Qed.

Lemma smart_chunk_text_core_size_witness :
  exists c core fresh,
    smart_chunk_text no_punkt three_long_sentences "handbook.pdf" !! 1
      = Some c /\
    cores_of no_punkt three_long_sentences !! 1 = Some core /\
    text c = add_overlap Config.CHUNK_OVERLAP
               (take 1 (smart_chunk_text no_punkt three_long_sentences
                          "handbook.pdf"))
               (join " " core) /\
    core = overlap_sentences
             (prev_core (cores_of no_punkt three_long_sentences) 1) ++ fresh /\
    (total_len core <= Config.CHUNK_SIZE \/ length fresh = 1) /\
    String.length (join " " core) = total_len core + (length core - 1).
Proof.
  destruct (smart_chunk_text no_punkt three_long_sentences "handbook.pdf" !! 1)
    as [c|] eqn:E1; [|vm_compute in E1; discriminate].
  destruct (smart_chunk_text_core_size _ _ _ 1 c E1) as (core & fresh & H).
  exists c, core, fresh. split; [reflexivity | exact H].
Defined.

(** ** C8: the overlap prefix *)

(** C8: every chunk with a predecessor is, in this order, the overlap
    prefix, one space and the core; the prefix is the last
    [min(CHUNK_OVERLAP // 5, number of words)] words of the text of the
    chunk emitted just before it, joined with spaces, and has at least
    one word.  The statement covers the chunk emitted after the loop as
    well as those emitted inside it. *)
Theorem smart_chunk_text_overlap_prefix tok txt src k prev c :
  smart_chunk_text tok txt src !! k = Some prev ->
  smart_chunk_text tok txt src !! S k = Some c ->
  exists prefix core,
    cores_of tok txt !! S k = Some core /\
    text c = (join " " prefix ++ " " ++ join " " core)%string /\
    prefix `suffix_of` split (text prev) /\
    length prefix =
      Nat.min (Config.CHUNK_OVERLAP / 5) (length (split (text prev))) /\
    0 < length prefix.
Proof.
  intros Hprev Hc.
  assert (Hov : 0 < Config.CHUNK_OVERLAP) by (unfold Config.CHUNK_OVERLAP; lia).
  destruct (chunk_text_after _ _ _ _ _ _ _ Hov Hprev Hc) as (core & Hcore & Ht).
  pose proof (chunk_text_has_word _ _ _ _ _ _ Hprev) as Hw.
  exists (overlap_words Config.CHUNK_OVERLAP (text prev)), core.
  assert (Hlen : length (overlap_words Config.CHUNK_OVERLAP (text prev)) =
                 Nat.min (Config.CHUNK_OVERLAP / 5) (length (split (text prev)))).
  { unfold overlap_words. change (Config.CHUNK_OVERLAP / 5) with 30.
    apply tail_slice_length; lia. }
  split; [exact Hcore|]. split; [exact Ht|]. split; [|split].
  - apply tail_slice_suffix.
  - exact Hlen.
  - rewrite Hlen. change (Config.CHUNK_OVERLAP / 5) with 30. lia.
Qed.

Lemma smart_chunk_text_overlap_prefix_witness :
  exists prev c prefix core,
    smart_chunk_text no_punkt three_long_sentences "handbook.pdf" !! 0 = Some prev /\
    smart_chunk_text no_punkt three_long_sentences "handbook.pdf" !! 1 = Some c /\
    cores_of no_punkt three_long_sentences !! 1 = Some core /\
    text c = (join " " prefix ++ " " ++ join " " core)%string /\
    prefix `suffix_of` split (text prev) /\
    length prefix =
      Nat.min (Config.CHUNK_OVERLAP / 5) (length (split (text prev))) /\
    0 < length prefix.
Proof.
  destruct (smart_chunk_text no_punkt three_long_sentences "handbook.pdf" !! 0)
    as [prev|] eqn:E0; [|vm_compute in E0; discriminate].
  destruct (smart_chunk_text no_punkt three_long_sentences "handbook.pdf" !! 1)
    as [c|] eqn:E1; [|vm_compute in E1; discriminate].
  destruct (smart_chunk_text_overlap_prefix _ _ _ 0 prev c E0 E1)
    as (prefix & core & H).
  exists prev, c, prefix, core. split; [reflexivity|]. split; [reflexivity|].
  exact H.
Defined.

End ChunkerClaims.

(* ===================================================================== *)
(** * [hybrid_search]: scoring, ranking, floor, failures                  *)
(* ===================================================================== *)

Module RetrieverClaims.
Import PyStr ExcFacts ArgsortFacts Bot RetrieverFacts Samples.

Section WithServices.
Context {Vec Vocab : Type}.
Variable S : Services Vec Vocab.

Local Abbreviation Chatbot := (Chatbot Vec Vocab).

(** ** C3: the combined score *)


(** ** C4: the relevance floor *)

(** C4: [hybrid_search] returns at most [SEARCH_RESULTS] chunks, each
    with a combined score strictly above 0.15; the result is the
    selection with the chunks at or below the floor dropped, so it is
    empty when no selected chunk clears the floor. *)
Theorem hybrid_search_floor (st : Chatbot) q :
  exists l,
    hybrid_search S st q = Ok l /\
    Forall (fun r => (relevance_floor < combined_score r)%Q) l /\
    length l <= Config.SEARCH_RESULTS /\
    (forall E qe selected,
        chunk_embeddings st = Some E ->
        text_chunks st <> [] ->
        encode_question S (seq 0 Config.MAX_RETRIES) q = Encoded qe ->
        select_top S st E q qe = Ok selected ->
        l = List.filter above_floor selected /\
        length selected <= Config.SEARCH_RESULTS /\
        (Forall (fun r => (combined_score r <= relevance_floor)%Q) selected ->
         l = [])).
Proof.
  rewrite hybrid_search_cases.
  assert (Hnil :
            (forall E qe selected,
               chunk_embeddings st = Some E -> text_chunks st <> [] ->
               encode_question S (seq 0 Config.MAX_RETRIES) q = Encoded qe ->
               select_top S st E q qe = Ok selected -> False) ->
            exists l, Ok [] = Ok l /\
              Forall (fun r => (relevance_floor < combined_score r)%Q) l /\
              length l <= Config.SEARCH_RESULTS /\
              (forall E qe selected,
                 chunk_embeddings st = Some E -> text_chunks st <> [] ->
                 encode_question S (seq 0 Config.MAX_RETRIES) q = Encoded qe ->
                 select_top S st E q qe = Ok selected ->
                 l = List.filter above_floor selected /\
                 length selected <= Config.SEARCH_RESULTS /\
                 (Forall (fun r => (combined_score r <= relevance_floor)%Q)
                         selected -> l = []))).
  { intros Hno. exists []. split; [reflexivity|]. split; [constructor|].
    split; [simpl; lia|]. intros E qe selected H1 H2 H3 H4.
    destruct (Hno E qe selected H1 H2 H3 H4). }
  destruct (chunk_embeddings st) as [E|] eqn:HE;
    [|apply Hnil; intros; discriminate].
  destruct (Nat.eqb_spec (length (text_chunks st)) 0) as [Hlen|Hlen].
  { apply Hnil. intros ? ? ? _ Hne _ _.
    destruct (text_chunks st); [contradiction | discriminate]. }
  destruct (encode_question S _ q) as [qe| |] eqn:Henc;
    try (apply Hnil; intros; discriminate).
  destruct (select_top S st E q qe) as [selected|] eqn:Hsel.
  - assert (Hlensel : length selected <= Config.SEARCH_RESULTS).
    { apply select_top_inv in Hsel as (sem & kw & comb & _ & _ & _ & H).
      apply exc_map_length in H. rewrite H. apply top_indices_length_le. }
    exists (List.filter above_floor selected).
    split; [reflexivity|]. split; [apply filter_above_floor|]. split.
    + etransitivity; [apply filter_length_le | exact Hlensel].
    + intros E' qe' selected' [= <-] _ [= <-] Hsel'.
      rewrite Hsel in Hsel'. injection Hsel' as <-.
      split; [reflexivity|]. split; [exact Hlensel|].
      apply filter_none_above_floor.
  - apply Hnil. intros E' qe' selected' [= <-] _ [= <-] H.
    congruence.
Qed.

(** ** C7: failures *)

Lemma encode_question_gave_up q :
  (forall attempt, attempt < Config.MAX_RETRIES ->
                   exists e, encode_query S attempt q = Raise e) ->
  encode_question S (seq 0 Config.MAX_RETRIES) q = GaveUp.
Proof.
  intros H. unfold Config.MAX_RETRIES in *. simpl.
  destruct (H 0) as [e0 ->]; [lia|]. destruct (H 1) as [e1 ->]; [lia|].
  reflexivity.
Qed.

(** C7, amended: [hybrid_search] never raises; it returns the empty list
    when the index is missing or empty, when every attempt to encode the
    question fails, and when the scoring raises; and every chunk it
    returns has the scores computed for its index from an encoded
    question.  The empty string has no case of its own: it is a question
    like any other. *)
Theorem hybrid_search_never_raises (st : Chatbot) q :
  (exists l, hybrid_search S st q = Ok l) /\
  (chunk_embeddings st = None \/ text_chunks st = [] ->
   hybrid_search S st q = Ok []) /\
  ((forall attempt, attempt < Config.MAX_RETRIES ->
                    exists e, encode_query S attempt q = Raise e) ->
   hybrid_search S st q = Ok []) /\
  (forall E qe e,
      chunk_embeddings st = Some E ->
      encode_question S (seq 0 Config.MAX_RETRIES) q = Encoded qe ->
      score_and_rank S st E q qe = Raise e ->
      hybrid_search S st q = Ok []) /\
  (forall l r,
      hybrid_search S st q = Ok l -> In r l ->
      exists E qe i,
        chunk_embeddings st = Some E /\
        encode_question S (seq 0 Config.MAX_RETRIES) q = Encoded qe /\
        text_chunks st !! i = Some (chunk r) /\
        scored_as S st q E qe i (semantic_score r) (keyword_score r)
                  (combined_score r)).
Proof.
  split; [apply hybrid_search_total|]. split; [|split; [|split]].
  - intros [H|H]; rewrite hybrid_search_cases, H; [reflexivity|].
    now destruct (chunk_embeddings st).
  - intros H. rewrite hybrid_search_cases, (encode_question_gave_up q H).
    destruct (chunk_embeddings st); [|reflexivity].
    now destruct (length (text_chunks st) =? 0).
  - intros E qe e HE Henc Hraise. rewrite hybrid_search_cases, HE, Henc.
    destruct (length (text_chunks st) =? 0); [reflexivity|].
    unfold score_and_rank in Hraise.
    destruct (select_top S st E q qe); [discriminate | reflexivity].
  - intros l r Hl Hr.
    destruct (hybrid_search_nonempty S st q l r Hl Hr)
      as (E & qe & selected & HE & Henc & Hsel & ->).
    apply filter_In in Hr as [Hr _].
    pose proof (select_top_scored_as S st q E qe selected Hsel) as Hall.
    rewrite Forall_forall in Hall.
    destruct (Hall r) as (i & Hi & Hsc); [now apply list_elem_of_In|].
    now exists E, qe, i.
Qed.

(** ** C2: the selection and its order *)

Lemma score_at_lookup comb i c : comb !! i = Some c -> score_at comb i = c.
Proof. intros H. unfold score_at. now apply nth_lookup_Some. Qed.

(** C2, amended: on an index with one row per chunk, for a question that
    encodes and scores, [hybrid_search] selects [min(SEARCH_RESULTS, n)]
    distinct chunks such that no chunk left out has a higher combined
    score than a selected one, and returns those above the floor in
    non-increasing order of combined score.  This holds for every
    [argsort] that meets its contract; the order among equal scores is
    the one [argsort] gives, reversed. *)
Theorem hybrid_search_top_k (st : Chatbot) q E qe sem kw :
  (forall scores, argsort_spec scores (argsort S scores)) ->
  index_ready st E ->
  encode_question S (seq 0 Config.MAX_RETRIES) q = Encoded qe ->
  cos_sim S qe E = Ok sem ->
  keyword_scores_of S st q = Ok kw ->
  exists comb selected,
    combine_scores sem kw = Ok comb /\
    select_top S st E q qe = Ok selected /\
    hybrid_search S st q = Ok (List.filter above_floor selected) /\
    Forall2 (fun i r => text_chunks st !! i = Some (chunk r) /\
                        comb !! i = Some (combined_score r))
            (top_indices S comb) selected /\
    length selected =
      Nat.min Config.SEARCH_RESULTS (length (text_chunks st)) /\
    NoDup (top_indices S comb) /\
    (forall i j, i < length (text_chunks st) ->
                 i ∉ top_indices S comb -> j ∈ top_indices S comb ->
                 (score_at comb i <= score_at comb j)%Q) /\
    StronglySorted by_score_desc selected /\
    StronglySorted by_score_desc (List.filter above_floor selected).
Proof.
  intros Hspec (HE & Hne & HlenE & HM) Henc Hsem Hkw.
  assert (Hlsem : length sem = length (text_chunks st)).
  { apply exc_map_length in Hsem. congruence. }
  assert (Hlkw : length kw = length (text_chunks st)).
  { eapply keyword_scores_of_length; eauto. }
  destruct (combine_scores_same_length sem kw) as (comb & Hcomb & Hlcomb);
    [congruence|].
  rewrite Hlsem in Hlcomb.
  assert (HK : 0 < Config.SEARCH_RESULTS)
    by (unfold Config.SEARCH_RESULTS; lia).
  pose proof (Hspec comb) as Hc.
  assert (Hrange : forall i, i ∈ top_indices S comb -> i < length comb).
  { intros i. apply (top_range comb _ Hc _ HK). }
  destruct (exc_map_Ok (scored_chunk_at st sem kw comb) (top_indices S comb))
    as [selected Hsel].
  { rewrite Forall_forall. intros i Hi. apply Hrange in Hi.
    apply scored_chunk_at_Ok; lia. }
  assert (Hselect : select_top S st E q qe = Ok selected).
  { unfold select_top. rewrite Hsem, Hkw. simpl. rewrite Hcomb. exact Hsel. }
  assert (HF : Forall2 (fun i r => text_chunks st !! i = Some (chunk r) /\
                                   comb !! i = Some (combined_score r))
                       (top_indices S comb) selected).
  { eapply Forall2_impl; [apply exc_map_Forall2, Hsel|].
    intros i r Hi. now apply scored_chunk_at_inv in Hi as (? & _ & _ & ?). }
  assert (Hsorted : StronglySorted by_score_desc selected).
  { eapply (StronglySorted_Forall2 _ (flip (score_le comb))); [|exact HF|].
    - intros i j r r' [_ Hi] [_ Hj] Hij. unfold by_score_desc.
      unfold flip, score_le in Hij.
      now rewrite (score_at_lookup _ _ _ Hi), (score_at_lookup _ _ _ Hj) in Hij.
    - apply (top_sorted comb _ Hc _ HK). }
  exists comb, selected. split; [exact Hcomb|]. split; [exact Hselect|].
  split.
  { rewrite hybrid_search_cases, HE, Henc, Hselect.
    destruct (text_chunks st); [contradiction | reflexivity]. }
  split; [exact HF|]. split.
  { rewrite <- (Forall2_length _ _ _ HF), <- Hlcomb.
    apply (top_length comb _ Hc _ HK). }
  split; [apply (top_NoDup comb _ Hc _ HK)|]. split.
  { intros i j Hi Hni Hj. rewrite <- Hlcomb in Hi.
    apply (top_dominates comb _ Hc _ HK i j Hi Hni Hj). }
  split; [exact Hsorted | now apply StronglySorted_filter].
Qed.

End WithServices.
(** ** Runs on the sample index *)

Local Abbreviation toy := (toy_services reliable).

(** The two chunks of the sample index have the same embedding, hence
    the same combined score for every question; the chunk at index 1 is
    returned before the chunk at index 0. *)
Lemma hybrid_search_two_chunks :
  hybrid_search toy two_chunk_index "grades" =
    Ok [scored_b (625 # 625) (87500 # 125000);
        scored_a (625 # 625) (87500 # 125000)].
Proof. vm_compute. reflexivity. Qed.

Lemma hybrid_search_empty_question :
  hybrid_search toy two_chunk_index "" =
    Ok [scored_b (15 # 25) (2800 # 5000); scored_a (15 # 25) (2800 # 5000)].
Proof. vm_compute. reflexivity. Qed.


Lemma two_chunk_index_ready :
  index_ready two_chunk_index
    [toy_embed (text chunk_a); toy_embed (text chunk_b)].
Proof.
  split; [reflexivity|]. split; [discriminate|]. split; [reflexivity|].
  intros matrix H. discriminate.
Defined.

Lemma hybrid_search_top_k_witness :
  exists comb selected,
    combine_scores [625 # 625; 625 # 625]%Q [0; 0]%Q = Ok comb /\
    select_top toy two_chunk_index
      [toy_embed (text chunk_a); toy_embed (text chunk_b)] "grades"
      (toy_embed "grades") = Ok selected /\
    hybrid_search toy two_chunk_index "grades" =
      Ok (List.filter above_floor selected) /\
    Forall2 (fun i r => text_chunks two_chunk_index !! i = Some (chunk r) /\
                        comb !! i = Some (combined_score r))
            (top_indices toy comb) selected /\
    length selected =
      Nat.min Config.SEARCH_RESULTS (length (text_chunks two_chunk_index)) /\
    NoDup (top_indices toy comb) /\
    (forall i j, i < length (text_chunks two_chunk_index) ->
                 i ∉ top_indices toy comb -> j ∈ top_indices toy comb ->
                 (score_at comb i <= score_at comb j)%Q) /\
    StronglySorted by_score_desc selected /\
    StronglySorted by_score_desc (List.filter above_floor selected).
Proof.
  apply (hybrid_search_top_k toy two_chunk_index "grades"
           [toy_embed (text chunk_a); toy_embed (text chunk_b)]
           (toy_embed "grades")).
  - intros scores. apply stable_argsort_spec.
  - exact two_chunk_index_ready.
  - reflexivity.
  - reflexivity.
  - reflexivity.
Defined.

(** C2, as stated, fails on the order of equal scores: with a stable
    [argsort], which meets the contract, the ascending order is reversed
    as a whole, so of two chunks with equal scores the later one comes
    first. *)
Lemma hybrid_search_ties_later_chunk_first :
  ~ (forall (Vec Vocab : Type) (S : Services Vec Vocab)
            (st : Chatbot Vec Vocab) q l,
        (forall scores, argsort_spec scores (argsort S scores)) ->
        hybrid_search S st q = Ok l ->
        ties_by_chunk_order (text_chunks st) l).
Proof.
  intros H.
  specialize (H _ _ toy two_chunk_index "grades" _
                (fun scores => stable_argsort_spec scores)
                hybrid_search_two_chunks).
  specialize (H 0 1 (scored_b (625 # 625) (87500 # 125000))
                (scored_a (625 # 625) (87500 # 125000)) 1 0).
  assert (Hlt : 1 < 0); [|lia].
  apply H; try reflexivity. lia.
Qed.

(** C7, as stated, fails on its last clause: the empty question is
    encoded and scored like any other, and chunks above the floor are
    returned. *)
Lemma hybrid_search_empty_question_not_empty :
  ~ (forall (Vec Vocab : Type) (S : Services Vec Vocab)
            (st : Chatbot Vec Vocab),
        hybrid_search S st "" = Ok []).
Proof.
  intros H. specialize (H _ _ toy two_chunk_index).
  rewrite hybrid_search_empty_question in H. discriminate.
Qed.

End RetrieverClaims.

(* ===================================================================== *)
(** * The index build and the cache                                       *)
(* ===================================================================== *)

Module IndexClaims.
Import PyStr ExcFacts Bot IndexFacts CacheFacts Samples.

Section WithServices.
Context {Vec Vocab : Type}.
Variable S : Services Vec Vocab.
Variable embeds : string -> Vec -> Prop.
Variable weighs : Vocab -> string -> Vec -> Prop.

Local Abbreviation Chatbot := (Chatbot Vec Vocab).
Local Abbreviation File := (File Vec Vocab).

(** ** C5: all or nothing *)

(** C5: given that the embedding model and the TF-IDF fit answer with one
    row per text, in order, a build that returns [True] leaves an
    embedding matrix and a keyword matrix with exactly one row per
    chunk, in chunk order.  A build in which some batch has every
    attempt fail returns [False] without assigning the embedding matrix,
    and [initialize_chatbot] then writes nothing to the cache. *)
Theorem create_chunks_and_embeddings_all_or_nothing tok (st : Chatbot) :
  (forall i attempt batch rows,
      encode_batch S i attempt batch = Ok rows -> Forall2 embeds batch rows) ->
  (forall texts voc matrix,
      fit_transform S texts = Ok (voc, matrix) ->
      Forall2 (weighs voc) texts matrix) ->
  (forall st',
      create_chunks_and_embeddings S tok st = (Ok true, st') ->
      exists E voc M,
        chunk_embeddings st' = Some E /\
        tfidf_vectorizer st' = Some (Fitted voc) /\
        tfidf_matrix st' = Some M /\
        length E = length (text_chunks st') /\
        length M = length (text_chunks st') /\
        Forall2 embeds (List.map text (text_chunks st')) E /\
        Forall2 (weighs voc) (List.map text (text_chunks st')) M) /\
  (batch_exhausted S tok (pdf_contents st) ->
      fst (create_chunks_and_embeddings S tok st) = Ok false /\
      chunk_embeddings (snd (create_chunks_and_embeddings S tok st))
      = chunk_embeddings st) /\
  (forall disk extracted (fs : gmap string File) now identifier,
      batch_exhausted S tok extracted ->
      snd (initialize_index S tok disk extracted fs now identifier st) = fs).
Proof.
  intros Henc Hfit. split; [|split].
  - intros st' H.
    destruct (create_success S embeds weighs Henc Hfit tok st st' H)
      as (_ & E & voc & M & HE & Hv & HM & HFE & HFM).
    exists E, voc, M. repeat split; auto.
    + apply Forall2_length in HFE. now rewrite length_map in HFE.
    + apply Forall2_length in HFM. now rewrite length_map in HFM.
  - apply create_exhausted.
  - intros disk extracted fs now identifier Hex. unfold initialize_index.
    destruct (load_from_cache S fs now identifier st) as [[[|]|e] st1];
      [reflexivity| |].
    all: simpl pdf_contents; destruct extracted as [|d ds] eqn:Hd;
      [reflexivity|]; rewrite <- Hd in *.
    all: destruct (create_exhausted S tok (set_pdf_contents extracted st1) Hex)
        as [Hfalse _].
    all: destruct (create_chunks_and_embeddings S tok _) as [r st2];
      simpl in Hfalse; subst r; reflexivity.
Qed.

(** ** C6: when a load counts as valid *)


(** ** C10: the missing keyword index *)

(** C10, amended: when the entry is valid, the chunks and the embeddings
    load and the pickled vectorizer is missing, [load_from_cache] fits
    the TF-IDF index again on the loaded chunk texts and returns [True]
    with the loaded chunks, the loaded embeddings and the new index,
    provided that the fit does not raise; when it raises the load
    returns [False].  With an empty chunk list nothing is fitted and the
    load returns [True]. *)
Theorem load_from_cache_rebuilds_tfidf (fs : gmap string File) now identifier
    (st : Chatbot) chunks rows :
  is_cache_valid S fs now (get_cache_path S identifier) = true ->
  fs !! chunks_file (get_cache_path S identifier) = Some (FChunks chunks) ->
  fs !! embeddings_file (get_cache_path S identifier) = Some (FArray rows) ->
  fs !! vectorizer_file (get_cache_path S identifier) = None ->
  match chunks with
  | [] =>
      load_from_cache S fs now identifier st =
      (Ok true, mkChatbot (pdf_contents st) [] (Some rows)
                          (tfidf_vectorizer st) (tfidf_matrix st))
  | _ :: _ =>
      match fit_transform S (List.map text chunks) with
      | Ok (voc, matrix) =>
          load_from_cache S fs now identifier st =
          (Ok true, mkChatbot (pdf_contents st) chunks (Some rows)
                              (Some (Fitted voc)) (Some matrix))
      | Raise _ => fst (load_from_cache S fs now identifier st) = Ok false
      end
  end.
Proof.
  intros Hv Hc He Hp.
  rewrite (load_from_cache_rebuild S fs now identifier st chunks rows
             Hv Hc He Hp).
  unfold _create_tfidf_index. simpl.
  destruct chunks as [|c cs]; [reflexivity|].
  destruct (fit_transform S _) as [[voc M]|e]; reflexivity.
Qed.

End WithServices.

(** ** Runs on the samples *)

Local Abbreviation toy := (toy_services reliable).

Lemma toy_encode_contract fails i attempt batch rows :
  encode_batch (toy_services fails) i attempt batch = Ok rows ->
  Forall2 toy_embeds batch rows.
Proof.
  simpl. destruct (fails i attempt); [discriminate|]. intros [= <-].
  induction batch; simpl; constructor; auto. reflexivity.
Defined.

Lemma toy_fit_contract fails texts voc matrix :
  fit_transform (toy_services fails) texts = Ok (voc, matrix) ->
  Forall2 (toy_weighs voc) texts matrix.
Proof.
  simpl. unfold toy_fit_transform.
  destruct (8 * length texts <? 20); [discriminate|]. intros [= <- <-].
  induction texts; simpl; constructor; auto. reflexivity.
Defined.

Lemma create_chunks_and_embeddings_all_or_nothing_witness :
  (forall st',
      create_chunks_and_embeddings (toy_services flaky) no_punkt one_document
        = (Ok true, st') ->
      exists E voc M,
        chunk_embeddings st' = Some E /\
        tfidf_vectorizer st' = Some (Fitted voc) /\
        tfidf_matrix st' = Some M /\
        length E = length (text_chunks st') /\
        length M = length (text_chunks st') /\
        Forall2 toy_embeds (List.map text (text_chunks st')) E /\
        Forall2 (toy_weighs voc) (List.map text (text_chunks st')) M) /\
  (batch_exhausted (toy_services flaky) no_punkt (pdf_contents one_document) ->
      fst (create_chunks_and_embeddings (toy_services flaky) no_punkt
             one_document) = Ok false /\
      chunk_embeddings
        (snd (create_chunks_and_embeddings (toy_services flaky) no_punkt
                one_document))
      = chunk_embeddings one_document) /\
  (forall disk extracted (fs : gmap string (File (list Q) unit)) now identifier,
      batch_exhausted (toy_services flaky) no_punkt extracted ->
      snd (initialize_index (toy_services flaky) no_punkt disk extracted fs
             now identifier one_document) = fs).
Proof.
  apply (create_chunks_and_embeddings_all_or_nothing (toy_services flaky)
           toy_embeds toy_weighs no_punkt one_document).
  - apply toy_encode_contract.
  - apply toy_fit_contract.
Defined.

(** The build of the sample document succeeds on the second attempt, and
    fails as a whole when the model never answers. *)
Example build_after_retry :
  fst (create_chunks_and_embeddings (toy_services flaky) no_punkt one_document)
    = Ok true /\
  fst (create_chunks_and_embeddings (toy_services unreachable) no_punkt
         one_document) = Ok false.
Proof. split; vm_compute; reflexivity. Qed.

Lemma load_from_cache_rebuilds_tfidf_witness :
  load_from_cache toy (cache_without_tfidf [chunk_a; chunk_b; chunk_c])
    one_day_later cache_id fresh_chatbot =
  (Ok true,
   mkChatbot [] [chunk_a; chunk_b; chunk_c]
     (Some (List.map (fun c => toy_embed (text c)) [chunk_a; chunk_b; chunk_c]))
     (Some (Fitted tt))
     (Some (List.map toy_tfidf (List.map text [chunk_a; chunk_b; chunk_c])))).
Proof.
  apply (load_from_cache_rebuilds_tfidf toy
           (cache_without_tfidf [chunk_a; chunk_b; chunk_c]) one_day_later
           cache_id fresh_chatbot [chunk_a; chunk_b; chunk_c]
           (List.map (fun c => toy_embed (text c)) [chunk_a; chunk_b; chunk_c]));
    vm_compute; reflexivity.
Defined.



(** C10, as stated, fails when the fit raises: on a cache of two chunks
    the fit with [min_df=2] and [max_df=0.8] is refused, the exception
    leaves the [except FileNotFoundError] handler, and the load returns
    [False]. *)
Lemma load_from_cache_rebuild_can_fail :
  ~ (forall (Vec Vocab : Type) (S : Services Vec Vocab)
            (fs : gmap string (File Vec Vocab)) now identifier
            (st : Chatbot Vec Vocab) chunks rows,
        is_cache_valid S fs now (get_cache_path S identifier) = true ->
        fs !! chunks_file (get_cache_path S identifier)
          = Some (FChunks chunks) ->
        fs !! embeddings_file (get_cache_path S identifier)
          = Some (FArray rows) ->
        fs !! vectorizer_file (get_cache_path S identifier) = None ->
        fst (load_from_cache S fs now identifier st) = Ok true).
Proof.
  intros H.
  specialize (H _ _ toy (cache_without_tfidf [chunk_a; chunk_b]) one_day_later
                cache_id fresh_chatbot [chunk_a; chunk_b]
                (List.map (fun c => toy_embed (text c)) [chunk_a; chunk_b])).
  assert (Hfalse : fst (load_from_cache toy
                          (cache_without_tfidf [chunk_a; chunk_b])
                          one_day_later cache_id fresh_chatbot) = Ok false)
    by (vm_compute; reflexivity).
  rewrite Hfalse in H.
  assert (Ok false = @Ok bool true) as [=]; apply H; vm_compute; reflexivity.
Qed.

End IndexClaims.

(* ===================================================================== *)
(** * More on the chunker                                                 *)
(* ===================================================================== *)

Module ChunkerMore.
Import PyStr PyStrFacts Chunker ChunkerFacts Samples.

Section WithSizes.
Variable chunk_size : nat.
Variable chunk_overlap : nat.

Local Abbreviation core_step := (core_step chunk_size chunk_overlap).
Local Abbreviation seed_of := (seed_of chunk_overlap).
Local Abbreviation fresh_from := (fresh_from chunk_overlap).
Local Abbreviation fresh_parts := (fresh_parts chunk_overlap).
Local Abbreviation cores_ok := (cores_ok chunk_size chunk_overlap).
Local Abbreviation chunk_cores := (chunk_cores chunk_size chunk_overlap).
Local Abbreviation chunk_sentences := (chunk_sentences chunk_size chunk_overlap).
Local Abbreviation assemble := (Chunker.assemble chunk_overlap).

(** Every core brings at least one new sentence. *)
Lemma fresh_from_nonempty prev cs :
  cores_ok prev cs -> Forall (fun f => f <> []) (fresh_from prev cs).
Proof.
  revert prev. induction cs as [|c cs IH]; intros prev; simpl; [constructor|].
  intros [Hc Hcs]. constructor; [|now apply IH].
  now apply core_ok_fresh in Hc as (_ & Hne & _).
Qed.

Lemma fresh_from_length prev cs : length (fresh_from prev cs) = length cs.
Proof.
  revert prev. induction cs as [|c cs IH]; intros prev; simpl; [reflexivity|].
  now rewrite IH.
Qed.

Lemma concat_length_ge {A} (ls : list (list A)) :
  Forall (fun l => l <> []) ls -> length ls <= length (concat ls).
Proof.
  induction 1 as [|l ls Hl _ IH]; simpl; [lia|].
  rewrite length_app. destruct l; [contradiction | simpl; lia].
Qed.

(** There are at most as many chunks as sentences. *)
Lemma chunk_count_le sentences src :
  length (chunk_sentences sentences src) <= length (clean sentences).
Proof.
  rewrite chunk_sentences_assemble, assemble_length.
  destruct (chunk_cores_ok chunk_size chunk_overlap sentences)
    as (Hok & _ & Hcat).
  rewrite <- Hcat, <- (fresh_from_length [] (chunk_cores sentences)).
  apply concat_length_ge, fresh_from_nonempty, Hok.
Qed.

(** No sentence, no chunk; and a sentence gives a chunk. *)
Lemma chunk_sentences_nil sentences src :
  chunk_sentences sentences src = [] <-> clean sentences = [].
Proof.
  rewrite chunk_sentences_assemble.
  destruct (chunk_cores_ok chunk_size chunk_overlap sentences)
    as (Hok & _ & Hcat).
  split; intros H.
  - apply (f_equal (@length Chunk)) in H. rewrite assemble_length in H.
    destruct (chunk_cores sentences); [|discriminate].
    now rewrite <- Hcat.
  - pose proof (chunk_count_le sentences src) as Hle.
    rewrite chunk_sentences_assemble, H in Hle. simpl in Hle.
    destruct (assemble src (chunk_cores sentences)); [reflexivity|].
    simpl in Hle. lia.
Qed.

(** ** A document that fits one chunk *)

Lemma core_loop_fits acc sentences :
  total_len acc + total_len (clean sentences) <= chunk_size ->
  fold_left core_step sentences (mkCore [] acc (total_len acc)) =
  mkCore [] (acc ++ clean sentences) (total_len (acc ++ clean sentences)).
Proof.
  revert acc. induction sentences as [|s l IH]; intros acc Hfit; simpl.
  - now rewrite app_nil_r.
  - unfold clean in *. simpl in *. unfold Chunker.core_step at 2. simpl.
    destruct (is_empty (strip s)) eqn:Es; simpl in *.
    + now apply IH.
    + assert (Hlt : (chunk_size <? total_len acc + String.length (strip s)) = false).
      { apply Nat.ltb_ge. lia. }
      rewrite Hlt. simpl.
      replace (total_len acc + String.length (strip s))
        with (total_len (acc ++ [strip s]))
        by (rewrite total_len_app; simpl; lia).
      rewrite IH.
      * now rewrite <- app_assoc.
      * rewrite total_len_app. simpl. lia.
Qed.

Lemma chunk_cores_fits sentences :
  clean sentences <> [] ->
  total_len (clean sentences) <= chunk_size ->
  chunk_cores sentences = [clean sentences].
Proof.
  intros Hne Hfit. unfold Chunker.chunk_cores.
  pose proof (core_loop_fits [] sentences) as H. simpl in H.
  rewrite H by lia. unfold core_finish. simpl. case_bool_decide; [contradiction | reflexivity].
Qed.

End WithSizes.

(** ** At the configured sizes *)

(** X1: The chunks of a document are numbered from 0 in the order of
    emission, and all carry the document's name. *)
Theorem smart_chunk_text_ids tok txt src k c :
  smart_chunk_text tok txt src !! k = Some c ->
  chunk_id c = k /\ source c = src.
Proof.
  intros H. destruct (chunk_text_core _ _ _ _ _ _ H) as (_ & _ & _ & Hs & Hk).
  now split.
Qed.

Lemma smart_chunk_text_ids_witness :
  exists c,
    smart_chunk_text no_punkt three_long_sentences "handbook.pdf" !! 2 = Some c /\
    chunk_id c = 2 /\ source c = "handbook.pdf".
Proof.
  destruct (smart_chunk_text no_punkt three_long_sentences "handbook.pdf" !! 2)
    as [c|] eqn:E; [|vm_compute in E; discriminate].
  exists c. split; [reflexivity|].
  exact (smart_chunk_text_ids _ _ _ 2 c E).
Defined.

(** X2: A text gives no chunk exactly when it has no sentence left after
    stripping; otherwise it gives at least one chunk and at most one per
    sentence. *)
Theorem smart_chunk_text_count tok txt src :
  (smart_chunk_text tok txt src = [] <-> clean (sentences_of tok txt) = []) /\
  length (smart_chunk_text tok txt src) <= length (clean (sentences_of tok txt)).
Proof.
  split; [apply chunk_sentences_nil | apply chunk_count_le].
Qed.

(** X3: A text whose sentences total at most [CHUNK_SIZE] characters gives
    exactly one chunk: the sentences joined with single spaces, without
    overlap prefix, numbered 0. *)
Theorem smart_chunk_text_single_chunk tok txt src :
  clean (sentences_of tok txt) <> [] ->
  total_len (clean (sentences_of tok txt)) <= Config.CHUNK_SIZE ->
  smart_chunk_text tok txt src =
    [mkChunk (join " " (clean (sentences_of tok txt))) src 0].
Proof.
  intros Hne Hfit. unfold smart_chunk_text, smart_chunk_text_with.
  rewrite chunk_sentences_assemble, chunk_cores_fits by assumption.
  reflexivity.
Qed.

Lemma smart_chunk_text_single_chunk_witness :
  smart_chunk_text no_punkt two_sentences_800 "handbook.pdf" =
    [mkChunk (join " " (clean (sentences_of no_punkt two_sentences_800)))
             "handbook.pdf" 0].
Proof.
  apply smart_chunk_text_single_chunk.
  - vm_compute. discriminate.
  - vm_compute. lia.
Defined.

End ChunkerMore.

(* ===================================================================== *)
(** * More on the index build                                             *)
(* ===================================================================== *)

Module IndexMore.
Import PyStr ExcFacts Bot IndexFacts RetrieverFacts Samples.

(** ** The batches *)

Lemma range_step_In n i :
  In i (range_step n Config.BATCH_SIZE) ->
  exists j, i = j * Config.BATCH_SIZE /\ i < n.
Proof.
  unfold range_step, Config.BATCH_SIZE. intros H.
  apply in_map_iff in H as (j & <- & Hj). apply in_seq in Hj.
  exists j. split; [reflexivity|].
  pose proof (Nat.Div0.mul_div_le (n + 32 - 1) 32) as Hd.
  remember ((n + 32 - 1) / 32) as m. lia.
Qed.

(** X4: The texts are encoded in [ceil(n / BATCH_SIZE)] batches; every batch
    has at least one and at most [BATCH_SIZE] texts, and the batches, one
    after the other, are the texts in their order. *)
Theorem batches_cover_texts (chunk_texts : list string) :
  length (range_step (length chunk_texts) Config.BATCH_SIZE)
    = (length chunk_texts + Config.BATCH_SIZE - 1) / Config.BATCH_SIZE /\
  (forall i, In i (range_step (length chunk_texts) Config.BATCH_SIZE) ->
     1 <= length (batch_at chunk_texts i) <= Config.BATCH_SIZE) /\
  concat (List.map (batch_at chunk_texts)
            (range_step (length chunk_texts) Config.BATCH_SIZE))
    = chunk_texts.
Proof.
  split; [|split].
  - unfold range_step. now rewrite length_map, length_seq.
  - intros i Hi. apply range_step_In in Hi as (j & _ & Hlt).
    unfold batch_at. rewrite length_take, length_drop.
    split; [apply Nat.min_glb; unfold Config.BATCH_SIZE; lia
           | apply Nat.le_min_l].
  - apply batches_concat.
Qed.

Lemma range_step_nonempty n :
  0 < n -> range_step n Config.BATCH_SIZE <> [].
Proof.
  intros Hn H. apply (f_equal (@length nat)) in H.
  unfold range_step, Config.BATCH_SIZE in H.
  rewrite length_map, length_seq in H. change (length (@nil nat)) with 0 in H.
  pose proof (Nat.div_mod_eq (n + 32 - 1) 32) as Hd.
  pose proof (Nat.mod_upper_bound (n + 32 - 1) 32 ltac:(lia)) as Hm.
  rewrite H in Hd. lia.
Qed.

Lemma map_text_nonempty (chunks : list Chunk) :
  chunks <> [] -> List.map text chunks <> [].
Proof. destruct chunks; [contradiction | discriminate]. Qed.

Section WithServices.
Context {Vec Vocab : Type}.
Variable S : Services Vec Vocab.

Local Abbreviation Chatbot := (Chatbot Vec Vocab).

(** ** When the build succeeds *)

Lemma encode_batch_retry_succeeds i batch :
  (exists attempt rows, attempt < Config.MAX_RETRIES /\
      encode_batch S i attempt batch = Ok rows) ->
  exists rows,
    encode_batch_retry S (seq 0 Config.MAX_RETRIES) i batch = Ok (Some rows).
Proof.
  unfold Config.MAX_RETRIES. intros (attempt & rows & Hlt & Hrows). simpl.
  destruct (encode_batch S i 0 batch) as [rows0|e0] eqn:E0; [eauto|].
  assert (attempt = 1) as -> by (destruct attempt as [|[|]]; [congruence|lia|lia]).
  rewrite Hrows. eauto.
Qed.

Lemma encode_batches_succeed chunk_texts starts acc :
  (forall i, In i starts ->
     exists attempt rows, attempt < Config.MAX_RETRIES /\
       encode_batch S i attempt (batch_at chunk_texts i) = Ok rows) ->
  exists out,
    encode_batches S chunk_texts starts acc = Ok out /\
    length out = length acc + length starts.
Proof.
  revert acc. induction starts as [|i starts IH]; intros acc H.
  - exists acc. simpl. split; [reflexivity | lia].
  - rewrite encode_batches_cons.
    destruct (encode_batch_retry_succeeds i (batch_at chunk_texts i))
      as [rows ->]; [apply H; now left|].
    simpl. destruct (IH (acc ++ [rows])) as (out & -> & Hlen).
    { intros j Hj. apply H. now right. }
    exists out. split; [reflexivity|].
    rewrite Hlen, length_app. simpl. lia.
Qed.

Lemma _create_tfidf_index_nonempty (st : Chatbot) :
  text_chunks st <> [] ->
  _create_tfidf_index S st =
  match fit_transform S (List.map text (text_chunks st)) with
  | Ok (voc, matrix) =>
      (Ok tt, set_tfidf_matrix (Some matrix)
                (set_tfidf_vectorizer (Some (Fitted voc))
                   (set_tfidf_vectorizer (Some Unfitted) st)))
  | Raise e => (Raise e, set_tfidf_vectorizer (Some Unfitted) st)
  end.
Proof.
  intros H. unfold _create_tfidf_index.
  destruct (text_chunks st); [contradiction | reflexivity].
Qed.

Lemma create_cases_chunks tok (st : Chatbot) :
  pdf_contents st <> [] ->
  all_chunks tok (pdf_contents st) <> [] ->
  create_chunks_and_embeddings S tok st =
  match exc_bind
          (encode_batches S
             (List.map text (all_chunks tok (pdf_contents st)))
             (range_step
                (length (List.map text (all_chunks tok (pdf_contents st))))
                Config.BATCH_SIZE) [])
          torch_cat with
  | Ok embeddings =>
      match _create_tfidf_index S
              (set_chunk_embeddings (Some embeddings)
                 (set_text_chunks (all_chunks tok (pdf_contents st)) st)) with
      | (Ok _, st') => (Ok true, st')
      | (Raise _, st') => (Ok false, st')
      end
  | Raise _ =>
      (Ok false, set_text_chunks (all_chunks tok (pdf_contents st)) st)
  end.
Proof.
  intros Hd Hc. rewrite create_cases.
  destruct (pdf_contents st); [contradiction|].
  destruct (all_chunks tok _); [contradiction | reflexivity].
Qed.

Lemma encode_all_succeed (chunk_texts : list string) :
  chunk_texts <> [] ->
  (forall i, In i (range_step (length chunk_texts) Config.BATCH_SIZE) ->
     exists attempt rows, attempt < Config.MAX_RETRIES /\
       encode_batch S i attempt (batch_at chunk_texts i) = Ok rows) ->
  exists embeddings,
    exc_bind (encode_batches S chunk_texts
                (range_step (length chunk_texts) Config.BATCH_SIZE) [])
             torch_cat = Ok embeddings.
Proof.
  intros Hne Henc.
  destruct (encode_batches_succeed _ _ [] Henc) as (out & -> & Hlen).
  simpl. unfold torch_cat. destruct out as [|o out]; [|eauto].
  exfalso. simpl in Hlen.
  apply (range_step_nonempty (length chunk_texts)).
  - destruct chunk_texts; [contradiction | simpl; lia].
  - destruct (range_step _ _); [reflexivity | discriminate].
Qed.

(** X5: The build returns [True] exactly when there are documents, they give
    at least one chunk, every batch is answered at the first or at the
    second attempt, and the TF-IDF fit does not raise. *)
Theorem create_chunks_and_embeddings_succeeds_iff tok (st : Chatbot) :
  fst (create_chunks_and_embeddings S tok st) = Ok true <->
  pdf_contents st <> [] /\
  all_chunks tok (pdf_contents st) <> [] /\
  (forall i,
     In i (range_step
             (length (List.map text (all_chunks tok (pdf_contents st))))
             Config.BATCH_SIZE) ->
     exists attempt rows, attempt < Config.MAX_RETRIES /\
       encode_batch S i attempt
         (batch_at (List.map text (all_chunks tok (pdf_contents st))) i)
       = Ok rows) /\
  (exists voc matrix,
     fit_transform S (List.map text (all_chunks tok (pdf_contents st)))
     = Ok (voc, matrix)).
Proof.
  split.
  - intros H.
    assert (Hd : pdf_contents st <> []).
    { intros E. rewrite create_cases, E in H. discriminate. }
    assert (Hc : all_chunks tok (pdf_contents st) <> []).
    { intros E. rewrite create_cases, E in H.
      destruct (pdf_contents st); discriminate. }
    rewrite (create_cases_chunks tok st Hd Hc) in H.
    destruct (exc_bind _ torch_cat) as [E|e] eqn:HE; [|discriminate].
    rewrite _create_tfidf_index_nonempty in H by exact Hc. simpl in H.
    split; [exact Hd|]. split; [exact Hc|]. split.
    + apply exc_bind_Ok in HE as (out & Hout & _).
      apply encode_batches_Ok in Hout as (rows_list & _ & HF).
      intros i Hi. apply list_elem_of_In, list_elem_of_lookup in Hi as [a Ha].
      eapply Forall2_lookup_l in HF as (rows & _ & attempt & Hlt & Hrows);
        [|exact Ha].
      now exists attempt, rows.
    + destruct (fit_transform S _) as [[voc M]|e]; [eauto | discriminate].
  - intros (Hd & Hc & Henc & voc & M & Hfit).
    rewrite (create_cases_chunks tok st Hd Hc).
    destruct (encode_all_succeed _ (map_text_nonempty _ Hc) Henc) as [E ->].
    rewrite _create_tfidf_index_nonempty by exact Hc. simpl.
    now rewrite Hfit.
Qed.

(** X6: Every chunk of the index is found again from its two labels: it is
    the chunk number [chunk_id] of the document named by [source].  The
    numbering starts anew in every document. *)
Theorem all_chunks_located tok (contents : list (string * string)) c :
  In c (all_chunks tok contents) ->
  exists content,
    In (source c, content) contents /\
    Chunker.smart_chunk_text tok content (source c) !! chunk_id c = Some c.
Proof.
  unfold all_chunks. intros H. apply in_concat in H as (l & Hl & Hc).
  apply in_map_iff in Hl as ([filename content] & <- & Hin).
  cbn [fst snd] in Hc. apply list_elem_of_In, list_elem_of_lookup in Hc as [k Hk].
  destruct (ChunkerFacts.chunk_text_core _ _ _ _ _ _ Hk)
    as (_ & _ & _ & Hs & Hid).
  exists content. rewrite Hs, Hid. now split.
Qed.

(** ** When it fails *)

(** X7: Without documents the build returns [False]; it has emptied
    [text_chunks] and touched nothing else, so that a search on the
    object afterwards finds nothing. *)
Theorem create_chunks_and_embeddings_no_documents tok (st : Chatbot) q :
  pdf_contents st = [] ->
  create_chunks_and_embeddings S tok st
    = (Ok false, mkChatbot [] [] (chunk_embeddings st)
                           (tfidf_vectorizer st) (tfidf_matrix st)) /\
  hybrid_search S (snd (create_chunks_and_embeddings S tok st)) q = Ok [].
Proof.
  intros H. rewrite create_cases, H. split.
  - unfold set_text_chunks. now rewrite H.
  - rewrite hybrid_search_cases. simpl. now destruct (chunk_embeddings st).
Qed.


(** The object after a build that returned [True]. *)
Lemma create_true_fields tok (st st' : Chatbot) :
  create_chunks_and_embeddings S tok st = (Ok true, st') ->
  exists E voc M,
    st' = mkChatbot (pdf_contents st) (all_chunks tok (pdf_contents st))
                    (Some E) (Some (Fitted voc)) (Some M).
Proof.
  intros H.
  assert (Hd : pdf_contents st <> []).
  { intros E. rewrite create_cases, E in H. discriminate. }
  assert (Hc : all_chunks tok (pdf_contents st) <> []).
  { intros E. rewrite create_cases, E in H.
    destruct (pdf_contents st); discriminate. }
  rewrite (create_cases_chunks tok st Hd Hc) in H.
  destruct (exc_bind _ torch_cat) as [E|e]; [|discriminate].
  rewrite _create_tfidf_index_nonempty in H by exact Hc. simpl in H.
  destruct (fit_transform S _) as [[voc M]|e]; [|discriminate].
  injection H as <-. now exists E, voc, M.
Qed.

End WithServices.

(** ** Runs on the samples *)

Lemma all_chunks_located_witness :
  exists content,
    In (source (mkChunk "Grades are posted in June." "grades.pdf" 0), content)
       [("admission.pdf", "Admission requires a transcript.");
        ("grades.pdf", "Grades are posted in June.")] /\
    Chunker.smart_chunk_text no_punkt content
      (source (mkChunk "Grades are posted in June." "grades.pdf" 0))
      !! chunk_id (mkChunk "Grades are posted in June." "grades.pdf" 0)
    = Some (mkChunk "Grades are posted in June." "grades.pdf" 0).
Proof.
  apply (all_chunks_located no_punkt
           [("admission.pdf", "Admission requires a transcript.");
            ("grades.pdf", "Grades are posted in June.")]
           (mkChunk "Grades are posted in June." "grades.pdf" 0)).
  vm_compute. right. left. reflexivity.
Defined.

Lemma create_chunks_and_embeddings_no_documents_witness :
  create_chunks_and_embeddings (toy_services reliable) no_punkt
    (mkChatbot [] [chunk_a] (Some [toy_embed "x"]) None None)
    = (Ok false, mkChatbot [] [] (Some [toy_embed "x"]) None None) /\
  hybrid_search (toy_services reliable)
    (snd (create_chunks_and_embeddings (toy_services reliable) no_punkt
            (mkChatbot [] [chunk_a] (Some [toy_embed "x"]) None None)))
    "grades" = Ok [].
Proof.
  apply (create_chunks_and_embeddings_no_documents (toy_services reliable)
           no_punkt (mkChatbot [] [chunk_a] (Some [toy_embed "x"]) None None)
           "grades").
  reflexivity.
Defined.


End IndexMore.

(* ===================================================================== *)
(** * More on the cache                                                   *)
(* ===================================================================== *)

Module CacheMore.
Import PyStr ExcFacts Bot CacheEntry IndexFacts CacheFacts IndexMore Samples
  SamplesMore.

Section WithServices.
Context {Vec Vocab : Type}.
Variable S : Services Vec Vocab.

Local Abbreviation Chatbot := (Chatbot Vec Vocab).
Local Abbreviation File := (File Vec Vocab).

(** ** The five files of an entry *)

Lemma entry_files_NoDup p : List.NoDup (entry_files p).
Proof.
  unfold entry_files, meta_file, chunks_file, embeddings_file,
    vectorizer_file, matrix_file.
  repeat constructor; simpl; intros H;
    repeat (destruct H as [H|H]; [apply String.app_inj in H; discriminate|]);
    exact H.
Qed.

Lemma suffix_differ (p a b : string) : a <> b -> (p ++ a)%string <> (p ++ b)%string.
Proof. intros Hab H. now apply String.app_inj in H. Qed.

(** ** What a save writes *)

Lemma write_file_written disk (fs : gmap string File) path content :
  disk path = Written ->
  write_file disk fs path content = (Ok tt, <[path := content]> fs).
Proof. unfold write_file. now intros ->. Qed.

(** A save on a disk that accepts every write, of an object with
    embeddings, vectorizer and matrix. *)
Lemma save_to_cache_complete disk (fs : gmap string File) now identifier
    (st : Chatbot) E v M :
  (forall path, disk path = Written) ->
  chunk_embeddings st = Some E ->
  tfidf_vectorizer st = Some v ->
  tfidf_matrix st = Some M ->
  save_to_cache S disk fs now identifier st =
  <[matrix_file (get_cache_path S identifier) := FArray M]>
    (<[vectorizer_file (get_cache_path S identifier) := FPickle v]>
       (<[embeddings_file (get_cache_path S identifier) := FArray E]>
          (<[chunks_file (get_cache_path S identifier)
               := FChunks (text_chunks st)]>
             (<[meta_file (get_cache_path S identifier)
                  := FMeta (Some (isoformat S now))]> fs)))).
Proof.
  intros Hdisk HE Hv HM. unfold save_to_cache.
  rewrite HE, Hv, HM, !write_file_written by apply Hdisk. reflexivity.
Qed.

(** A save leaves every file that is not one of the five alone. *)
Lemma write_file_elsewhere disk (fs : gmap string File) path content q :
  q <> path -> snd (write_file disk fs path content) !! q = fs !! q.
Proof.
  intros Hne. unfold write_file.
  destruct (disk path); simpl; rewrite ?lookup_insert_ne; auto.
Qed.

(** ** Save, then load *)

Lemma entry_lookups (fs : gmap string File) p m c e v x :
  let fs' :=
    <[matrix_file p := x]>
      (<[vectorizer_file p := v]>
         (<[embeddings_file p := e]>
            (<[chunks_file p := c]> (<[meta_file p := m]> fs)))) in
  fs' !! meta_file p = Some m /\
  fs' !! chunks_file p = Some c /\
  fs' !! embeddings_file p = Some e /\
  fs' !! vectorizer_file p = Some v /\
  fs' !! matrix_file p = Some x.
Proof.
  intros fs'. unfold fs', meta_file, chunks_file, embeddings_file,
    vectorizer_file, matrix_file.
  repeat split;
    repeat (first [ apply lookup_insert_eq
                  | rewrite lookup_insert_ne
                      by (apply suffix_differ; discriminate) ]).
Qed.

(** The load of a complete entry. *)
Lemma load_from_cache_complete (fs : gmap string File) now identifier
    (st : Chatbot) chunks E v M :
  is_cache_valid S fs now (get_cache_path S identifier) = true ->
  fs !! chunks_file (get_cache_path S identifier) = Some (FChunks chunks) ->
  fs !! embeddings_file (get_cache_path S identifier) = Some (FArray E) ->
  fs !! vectorizer_file (get_cache_path S identifier) = Some (FPickle v) ->
  fs !! matrix_file (get_cache_path S identifier) = Some (FArray M) ->
  load_from_cache S fs now identifier st =
  (Ok true, mkChatbot (pdf_contents st) chunks (Some E) (Some v) (Some M)).
Proof.
  intros Hv Hc He Hp Hm. unfold load_from_cache. rewrite Hv. simpl.
  apply load_chunks_Ok in Hc. apply np_load_Ok in He. rewrite Hc, He.
  unfold load_tfidf, pickle_load, open_read. rewrite Hp. simpl.
  apply np_load_Ok in Hm. rewrite Hm. reflexivity.
Qed.

Lemma load_from_cache_invalid (fs : gmap string File) now identifier
    (st : Chatbot) :
  is_cache_valid S fs now (get_cache_path S identifier) = false ->
  load_from_cache S fs now identifier st = (Ok false, st).
Proof. intros H. unfold load_from_cache. now rewrite H. Qed.

Lemma is_cache_valid_meta (fs : gmap string File) now p str cached_date :
  fs !! meta_file p = Some (FMeta (Some str)) ->
  str <> EmptyString ->
  fromisoformat S str = Some cached_date ->
  is_cache_valid S fs now p =
  (now - cached_date <? timedelta_days Config.CACHE_DURATION_DAYS)%Z.
Proof.
  intros Hm Hne Hd. unfold is_cache_valid, load_meta, open_read.
  rewrite Hm. simpl. apply PyStrFacts.is_empty_false in Hne.
  now rewrite Hne, Hd.
Qed.

(** A load soon after a save that wrote every file. *)
Lemma load_soon_after_save disk (fs : gmap string File) t0 t1 identifier
    (st st' : Chatbot) E v M :
  (forall path, disk path = Written) ->
  isoformat S t0 <> EmptyString ->
  fromisoformat S (isoformat S t0) = Some t0 ->
  chunk_embeddings st = Some E ->
  tfidf_vectorizer st = Some v ->
  tfidf_matrix st = Some M ->
  (t1 - t0 < timedelta_days Config.CACHE_DURATION_DAYS)%Z ->
  load_from_cache S (save_to_cache S disk fs t0 identifier st) t1 identifier st'
  = (Ok true,
     mkChatbot (pdf_contents st') (text_chunks st) (Some E) (Some v) (Some M)).
Proof.
  intros Hdisk Hne Hiso HE Hv HM Hlt.
  rewrite (save_to_cache_complete disk fs t0 identifier st E v M)
    by assumption.
  destruct (entry_lookups fs (get_cache_path S identifier)
              (FMeta (Some (isoformat S t0))) (FChunks (text_chunks st))
              (FArray E) (FPickle v) (FArray M))
    as (Lm & Lc & Le & Lv & Lx).
  apply load_from_cache_complete; try assumption.
  rewrite (is_cache_valid_meta _ t1 _ _ _ Lm Hne Hiso). now apply Z.ltb_lt.
Qed.

(** ** The properties *)

(** X9: An entry whose metadata carries a date that parses is valid exactly
    at the times before that date plus 90 days: not at 90 days sharp,
    and at every time before the date itself. *)
Theorem is_cache_valid_window (fs : gmap string File) now p str cached_date :
  fs !! meta_file p = Some (FMeta (Some str)) ->
  str <> EmptyString ->
  fromisoformat S str = Some cached_date ->
  (is_cache_valid S fs now p = true <->
   (now < cached_date + 7776000000000)%Z).
Proof.
  intros Hm Hne Hd. rewrite (is_cache_valid_meta fs now p str cached_date)
    by assumption.
  rewrite Z.ltb_lt. unfold timedelta_days, Config.CACHE_DURATION_DAYS. lia.
Qed.

(** X10: A save writes nothing but the five files of its entry. *)
Theorem save_to_cache_only_entry_files disk (fs : gmap string File) now
    identifier (st : Chatbot) q :
  ~ In q (entry_files (get_cache_path S identifier)) ->
  save_to_cache S disk fs now identifier st !! q = fs !! q.
Proof.
  intros Hq. unfold entry_files in Hq. simpl in Hq.
  assert (H1 : q <> meta_file (get_cache_path S identifier)) by intuition.
  assert (H2 : q <> chunks_file (get_cache_path S identifier)) by intuition.
  assert (H3 : q <> embeddings_file (get_cache_path S identifier)) by intuition.
  assert (H4 : q <> vectorizer_file (get_cache_path S identifier)) by intuition.
  assert (H5 : q <> matrix_file (get_cache_path S identifier)) by intuition.
  clear Hq. unfold save_to_cache.
  pose proof (write_file_elsewhere disk fs _
                (FMeta (Some (isoformat S now))) q H1) as E1.
  destruct (write_file disk fs (meta_file _) _) as [[[]|e1] fs1];
    simpl in E1; [|exact E1].
  pose proof (write_file_elsewhere disk fs1 _
                (FChunks (text_chunks st)) q H2) as E2.
  destruct (write_file disk fs1 (chunks_file _) _) as [[[]|e2] fs2];
    simpl in E2; [|congruence].
  assert (E3 : forall r fs3,
            match chunk_embeddings st with
            | Some embeddings =>
                write_file disk fs2
                  (embeddings_file (get_cache_path S identifier))
                  (FArray embeddings)
            | None => (Ok tt, fs2)
            end = (r, fs3) -> fs3 !! q = fs2 !! q).
  { intros r fs3. destruct (chunk_embeddings st) as [E|].
    - intros H. pose proof (write_file_elsewhere disk fs2 _ (FArray E) q H3) as E3.
      now rewrite H in E3.
    - now intros [= _ <-]. }
  destruct (match chunk_embeddings st with Some _ => _ | None => _ end)
    as [[[]|e3] fs3] eqn:Hw; specialize (E3 _ _ eq_refl); [|congruence].
  destruct (tfidf_vectorizer st) as [v|]; [|congruence].
  pose proof (write_file_elsewhere disk fs3 _ (FPickle v) q H4) as E4.
  destruct (write_file disk fs3 (vectorizer_file _) _) as [[[]|e4] fs4];
    simpl in E4; [|congruence].
  destruct (tfidf_matrix st) as [M|]; [|congruence].
  rewrite (write_file_elsewhere disk fs4 _ (FArray M) q H5). congruence.
Qed.

(** X11: Save, then load with the same identifier.  When the object is the
    one a successful build leaves (its keyword matrix is then the
    sparse matrix of the fit, the one kind [save_to_cache] can write)
    and every write succeeds, a load less than 90 days later returns
    [True] and leaves in the loading object the saved chunks,
    embeddings, vectorizer and matrix, its own [pdf_contents] being
    kept; a load from 90 days on returns [False] and leaves the object
    as it was. *)
Theorem save_then_load tok disk (fs : gmap string File) t0 t1 identifier
    (st0 st st' : Chatbot) :
  create_chunks_and_embeddings S tok st0 = (Ok true, st) ->
  (forall path, disk path = Written) ->
  isoformat S t0 <> EmptyString ->
  fromisoformat S (isoformat S t0) = Some t0 ->
  load_from_cache S (save_to_cache S disk fs t0 identifier st) t1 identifier st'
  = if (t1 - t0 <? timedelta_days Config.CACHE_DURATION_DAYS)%Z
    then (Ok true,
          mkChatbot (pdf_contents st') (text_chunks st) (chunk_embeddings st)
                    (tfidf_vectorizer st) (tfidf_matrix st))
    else (Ok false, st').
Proof.
  intros Hbuild Hdisk Hne Hiso.
  apply create_true_fields in Hbuild as (E & voc & M & ->).
  cbn [text_chunks chunk_embeddings tfidf_vectorizer tfidf_matrix].
  rewrite (save_to_cache_complete disk fs t0 identifier _ E (Fitted voc) M)
    by (auto; reflexivity).
  cbn [text_chunks].
  destruct (entry_lookups fs (get_cache_path S identifier)
              (FMeta (Some (isoformat S t0)))
              (FChunks (all_chunks tok (pdf_contents st0)))
              (FArray E) (FPickle (Fitted voc)) (FArray M))
    as (Lm & Lc & Le & Lv & Lx).
  pose proof (is_cache_valid_meta _ t1 _ _ _ Lm Hne Hiso) as Hvalid.
  destruct (t1 - t0 <? timedelta_days Config.CACHE_DURATION_DAYS)%Z.
  - now apply load_from_cache_complete.
  - now apply load_from_cache_invalid.
Qed.

(** X12: A load never touches [pdf_contents], and a load of an entry that is
    not valid changes nothing at all. *)
Theorem load_from_cache_keeps_documents (fs : gmap string File) now identifier
    (st : Chatbot) :
  pdf_contents (snd (load_from_cache S fs now identifier st))
    = pdf_contents st /\
  (is_cache_valid S fs now (get_cache_path S identifier) = false ->
   load_from_cache S fs now identifier st = (Ok false, st)).
Proof.
  split; [|apply load_from_cache_invalid].
  unfold load_from_cache.
  destruct (is_cache_valid S fs now _); [|reflexivity]. simpl.
  destruct (load_chunks fs _) as [chunks|]; [|reflexivity].
  destruct (np_load fs _) as [rows|]; [|reflexivity].
  unfold load_tfidf.
  destruct (pickle_load fs _) as [v|e].
  - destruct (np_load fs (matrix_file _)) as [m|e]; [reflexivity|].
    destruct e; try reflexivity.
    destruct (_create_tfidf_index S _) as [[[]|e] st2] eqn:Ht;
      apply _create_tfidf_index_fields in Ht as (Hp & _); exact Hp.
  - destruct e; try reflexivity.
    destruct (_create_tfidf_index S _) as [[[]|e] st2] eqn:Ht;
      apply _create_tfidf_index_fields in Ht as (Hp & _); exact Hp.
Qed.

(** X13: A pickled vectorizer that is there and cannot be read makes the load
    return [False] (a missing one starts a new fit); the object then
    holds the chunks and embeddings of the cache, with the keyword index
    it had before. *)
Theorem load_from_cache_unreadable_vectorizer (fs : gmap string File) now
    identifier (st : Chatbot) chunks rows f :
  is_cache_valid S fs now (get_cache_path S identifier) = true ->
  fs !! chunks_file (get_cache_path S identifier) = Some (FChunks chunks) ->
  fs !! embeddings_file (get_cache_path S identifier) = Some (FArray rows) ->
  fs !! vectorizer_file (get_cache_path S identifier) = Some f ->
  (forall v, f <> FPickle v) ->
  load_from_cache S fs now identifier st =
  (Ok false, mkChatbot (pdf_contents st) chunks (Some rows)
                       (tfidf_vectorizer st) (tfidf_matrix st)).
Proof.
  intros Hv Hc He Hp Hf. unfold load_from_cache. rewrite Hv. simpl.
  apply load_chunks_Ok in Hc. apply np_load_Ok in He. rewrite Hc, He.
  unfold load_tfidf, pickle_load, open_read. rewrite Hp. simpl.
  destruct f; try reflexivity. now destruct (Hf vectorizer).
Qed.

(** X14: Chunks without embeddings: the load returns [False], and the object
    already holds the chunks of the cache. *)
Theorem load_from_cache_chunks_only (fs : gmap string File) now identifier
    (st : Chatbot) chunks :
  is_cache_valid S fs now (get_cache_path S identifier) = true ->
  fs !! chunks_file (get_cache_path S identifier) = Some (FChunks chunks) ->
  fs !! embeddings_file (get_cache_path S identifier) = None ->
  load_from_cache S fs now identifier st =
  (Ok false, mkChatbot (pdf_contents st) chunks (chunk_embeddings st)
                       (tfidf_vectorizer st) (tfidf_matrix st)).
Proof.
  intros Hv Hc He. unfold load_from_cache. rewrite Hv. simpl.
  apply load_chunks_Ok in Hc. rewrite Hc.
  unfold np_load, open_read. now rewrite He.
Qed.

(** ** Two starts of the application *)

(** After a start that misses the cache, builds the index and saves it
    on a disk that accepts every write, the next starts load it. *)
Lemma initialize_index_cached_next tok disk extracted
    (fs fs1 : gmap string File) t0 t1 identifier (st0 st1 : Chatbot) :
  (forall path, disk path = Written) ->
  isoformat S t0 <> EmptyString ->
  fromisoformat S (isoformat S t0) = Some t0 ->
  is_cache_valid S fs t0 (get_cache_path S identifier) = false ->
  initialize_index S tok disk extracted fs t0 identifier st0
    = (Some st1, fs1) ->
  (t1 - t0 < timedelta_days Config.CACHE_DURATION_DAYS)%Z ->
  forall tok' disk' extracted' (st' : Chatbot),
    initialize_index S tok' disk' extracted' fs1 t1 identifier st' =
    (Some (mkChatbot (pdf_contents st') (text_chunks st1)
                     (chunk_embeddings st1) (tfidf_vectorizer st1)
                     (tfidf_matrix st1)),
     fs1).
Proof.
  intros Hdisk Hne Hiso Hmiss Hinit Hlt tok' disk' extracted' st'.
  unfold initialize_index in Hinit.
  rewrite (load_from_cache_invalid fs t0 identifier st0 Hmiss) in Hinit.
  simpl in Hinit.
  destruct extracted as [|d ds] eqn:Hd; [discriminate|]. rewrite <- Hd in *.
  destruct (create_chunks_and_embeddings S tok _) as [[[|]|e] st2] eqn:Hc;
    try discriminate.
  injection Hinit as <- <-.
  apply create_true_fields in Hc as (E & voc & M & ->).
  unfold initialize_index.
  now rewrite (load_soon_after_save disk fs t0 t1 identifier _ st' E
                 (Fitted voc) M) by (auto; reflexivity).
Qed.

(** What a load that returns [True] leaves. *)
Lemma load_from_cache_true_fields (fs : gmap string File) now identifier
    (st st' : Chatbot) :
  load_from_cache S fs now identifier st = (Ok true, st') ->
  pdf_contents st' = pdf_contents st /\
  exists E, chunk_embeddings st' = Some E.
Proof.
  unfold load_from_cache.
  destruct (is_cache_valid S fs now _); simpl; [|discriminate].
  destruct (load_chunks fs _) as [chunks|]; [|discriminate].
  destruct (np_load fs _) as [rows|]; [|discriminate].
  unfold load_tfidf.
  destruct (pickle_load fs _) as [v|e].
  - destruct (np_load fs (matrix_file _)) as [m|e].
    + intros [= <-]. split; [reflexivity | now exists rows].
    + destruct e; try discriminate.
      destruct (_create_tfidf_index S _) as [[[]|e] st2] eqn:Ht;
        [|discriminate].
      intros [= <-].
      apply _create_tfidf_index_fields in Ht as (Hp & _ & He).
      split; [exact Hp | now exists rows].
  - destruct e; try discriminate.
    destruct (_create_tfidf_index S _) as [[[]|e] st2] eqn:Ht;
      [|discriminate].
    intros [= <-].
    apply _create_tfidf_index_fields in Ht as (Hp & _ & He).
    split; [exact Hp | now exists rows].
Qed.

End WithServices.

(** ** Runs on the samples *)

Lemma is_cache_valid_window_witness :
  is_cache_valid (toy_services reliable) (cache_without_tfidf [chunk_a])
    one_day_later (get_cache_path (toy_services reliable) cache_id) = true
  <-> (one_day_later < 0 + 7776000000000)%Z.
Proof.
  apply (is_cache_valid_window (toy_services reliable)
           (cache_without_tfidf [chunk_a]) one_day_later
           (get_cache_path (toy_services reliable) cache_id)
           (toy_isoformat 0) 0%Z).
  - reflexivity.
  - vm_compute. discriminate.
  - reflexivity.
Defined.

Lemma save_to_cache_only_entry_files_witness :
  save_to_cache (toy_services reliable) good_disk
    (cache_without_tfidf [chunk_a]) one_day_later "another_corpus" built_index
    !! meta_file (get_cache_path (toy_services reliable) cache_id)
  = cache_without_tfidf [chunk_a]
    !! meta_file (get_cache_path (toy_services reliable) cache_id).
Proof.
  apply (save_to_cache_only_entry_files (toy_services reliable) good_disk
           (cache_without_tfidf [chunk_a]) one_day_later "another_corpus"
           built_index).
  vm_compute. intuition discriminate.
Defined.

Lemma save_then_load_witness :
  load_from_cache (toy_services reliable)
    (save_to_cache (toy_services reliable) good_disk ∅ 0 cache_id
       started_index)
    one_day_later cache_id fresh_chatbot
  = if (one_day_later - 0 <? timedelta_days Config.CACHE_DURATION_DAYS)%Z
    then (Ok true,
          mkChatbot (pdf_contents (@fresh_chatbot (list Q) unit))
            (text_chunks started_index) (chunk_embeddings started_index)
            (tfidf_vectorizer started_index) (tfidf_matrix started_index))
    else (Ok false, fresh_chatbot).
Proof.
  apply (save_then_load (toy_services reliable) no_punkt good_disk ∅ 0
           one_day_later cache_id started_documents started_index
           fresh_chatbot).
  - reflexivity.
  - reflexivity.
  - vm_compute. discriminate.
  - reflexivity.
Defined.

Lemma load_from_cache_unreadable_vectorizer_witness :
  load_from_cache (toy_services reliable) (cache_with_bad_pickle [chunk_a])
    one_day_later cache_id built_index
  = (Ok false,
     mkChatbot (pdf_contents built_index) [chunk_a]
       (Some [toy_embed (text chunk_a)])
       (tfidf_vectorizer built_index) (tfidf_matrix built_index)).
Proof.
  apply (load_from_cache_unreadable_vectorizer (toy_services reliable)
           (cache_with_bad_pickle [chunk_a]) one_day_later cache_id
           built_index [chunk_a] [toy_embed (text chunk_a)] FCorrupt).
  - reflexivity.
  - reflexivity.
  - reflexivity.
  - reflexivity.
  - discriminate.
Defined.

Lemma load_from_cache_chunks_only_witness :
  load_from_cache (toy_services reliable) (cache_chunks_only [chunk_a])
    one_day_later cache_id built_index
  = (Ok false,
     mkChatbot (pdf_contents built_index) [chunk_a]
       (chunk_embeddings built_index)
       (tfidf_vectorizer built_index) (tfidf_matrix built_index)).
Proof.
  apply (load_from_cache_chunks_only (toy_services reliable)
           (cache_chunks_only [chunk_a]) one_day_later cache_id built_index
           [chunk_a]).
  - reflexivity.
  - reflexivity.
  - reflexivity.
Defined.

End CacheMore.

(* ===================================================================== *)
(** * [hybrid_search]: the range of the scores and the reach of the floor *)
(* ===================================================================== *)

Module RetrieverMore.
Import PyStr ExcFacts ArgsortFacts Bot RetrieverFacts Samples.

Section WithServices.
Context {Vec Vocab : Type}.
Variable S : Services Vec Vocab.

Local Abbreviation Chatbot := (Chatbot Vec Vocab).

(** The vector the retry loop ends with was returned by an attempt. *)
Lemma encode_question_Encoded attempts q qe :
  encode_question S attempts q = Encoded qe ->
  exists attempt, In attempt attempts /\ encode_query S attempt q = Ok qe.
Proof.
  induction attempts as [|a rest IH]; cbn [encode_question In];
    [intros [=]|].
  destruct (encode_query S a q) as [v|e] eqn:Ha.
  - intros [= <-]. exists a. auto.
  - destruct (a =? Config.MAX_RETRIES - 1); [intros [=]|].
    intros H. destruct (IH H) as (b & Hb & Hq). exists b. auto.
Qed.

Lemma filter_all {A} (f : A -> bool) (l : list A) :
  Forall (fun x => f x = true) l -> List.filter f l = l.
Proof.
  induction 1 as [|x l Hx _ IH]; simpl; [reflexivity|].
  now rewrite Hx, IH.
Qed.

(** The score arithmetic: where the floor lies. *)
Lemma combined_above_floor s k :
  (-(4 # 7) < s)%Q -> (0 <= k)%Q ->
  (relevance_floor < semantic_weight * ((s + 1) / 2) + keyword_weight * k)%Q.
Proof.
  unfold relevance_floor, semantic_weight, keyword_weight, Qdiv.
  change (/ 2)%Q with (1 # 2)%Q. intros. lra.
Qed.

Lemma combined_at_most_one s k :
  (s <= 1)%Q -> (k <= 1)%Q ->
  (semantic_weight * ((s + 1) / 2) + keyword_weight * k <= 1)%Q.
Proof.
  unfold semantic_weight, keyword_weight, Qdiv.
  change (/ 2)%Q with (1 # 2)%Q. intros. lra.
Qed.

Lemma semantic_above_floor s :
  (relevance_floor < semantic_weight * ((s + 1) / 2) + keyword_weight * 0)%Q ->
  (-(4 # 7) < s)%Q.
Proof.
  unfold relevance_floor, semantic_weight, keyword_weight, Qdiv.
  change (/ 2)%Q with (1 # 2)%Q. intros. lra.
Qed.

(** On a ready index whose scores are computed, the selection is made of
    [min(SEARCH_RESULTS, n)] chunks, and the answer is what the floor
    leaves of it. *)
Lemma select_top_ready (st : Chatbot) q E qe sem kw :
  (forall scores, argsort_spec scores (argsort S scores)) ->
  index_ready st E ->
  encode_question S (seq 0 Config.MAX_RETRIES) q = Encoded qe ->
  cos_sim S qe E = Ok sem ->
  keyword_scores_of S st q = Ok kw ->
  exists comb selected,
    combine_scores sem kw = Ok comb /\
    exc_map (scored_chunk_at st sem kw comb) (top_indices S comb)
      = Ok selected /\
    hybrid_search S st q = Ok (List.filter above_floor selected) /\
    length selected =
      Nat.min Config.SEARCH_RESULTS (length (text_chunks st)).
Proof.
  intros Hspec (HE & Hne & HlenE & HM) Henc Hsem Hkw.
  assert (Hlsem : length sem = length (text_chunks st)).
  { apply exc_map_length in Hsem. congruence. }
  assert (Hlkw : length kw = length (text_chunks st)).
  { eapply keyword_scores_of_length; eauto. }
  destruct (combine_scores_same_length sem kw) as (comb & Hcomb & Hlcomb);
    [congruence|].
  rewrite Hlsem in Hlcomb.
  assert (HK : 0 < Config.SEARCH_RESULTS)
    by (unfold Config.SEARCH_RESULTS; lia).
  pose proof (Hspec comb) as Hc.
  destruct (exc_map_Ok (scored_chunk_at st sem kw comb) (top_indices S comb))
    as [selected Hsel].
  { rewrite Forall_forall. intros i Hi.
    apply (top_range comb _ Hc _ HK) in Hi.
    apply scored_chunk_at_Ok; lia. }
  exists comb, selected. split; [exact Hcomb|]. split; [exact Hsel|]. split.
  - assert (Hselect : select_top S st E q qe = Ok selected).
    { unfold select_top. rewrite Hsem, Hkw. simpl. rewrite Hcomb.
      exact Hsel. }
    rewrite hybrid_search_cases, HE, Henc, Hselect.
    destruct (text_chunks st); [contradiction | reflexivity].
  - apply exc_map_length in Hsel. rewrite Hsel, <- Hlcomb.
    apply (top_length comb _ Hc _ HK).
Qed.

(** ** The properties *)

(** X15: When the cosines of the question with the rows of the index lie in
    [-1, 1] and its keyword cosines in [0, 1], every returned chunk has
    [semantic_score] in [-1, 1], [keyword_score] in [0, 1] and
    [combined_score] in (0.15, 1]. *)
Theorem hybrid_search_score_range (st : Chatbot) q l :
  (forall E attempt qe row s,
      chunk_embeddings st = Some E -> In row E ->
      encode_query S attempt q = Ok qe -> cosine S qe row = Ok s ->
      (-1 <= s <= 1)%Q) ->
  (forall voc M question_tfidf row k,
      tfidf_vectorizer st = Some (Fitted voc) -> tfidf_matrix st = Some M ->
      In row M ->
      transform S voc q = Ok question_tfidf ->
      kw_cosine S question_tfidf row = Ok k ->
      (0 <= k <= 1)%Q) ->
  hybrid_search S st q = Ok l ->
  Forall (fun r =>
            (-1 <= semantic_score r <= 1)%Q /\
            (0 <= keyword_score r <= 1)%Q /\
            (relevance_floor < combined_score r <= 1)%Q) l.
Proof.
  intros Hcos Hkwc Hl. rewrite Forall_forall. intros r Hr.
  apply list_elem_of_In in Hr.
  destruct (hybrid_search_nonempty S st q l r Hl Hr)
    as (E & qe & selected & HE & Henc & Hsel & ->).
  apply filter_In in Hr as [Hr Hfloor]. apply above_floor_spec in Hfloor.
  pose proof (select_top_scored_as S st q E qe selected Hsel) as Hall.
  rewrite Forall_forall in Hall.
  destruct (Hall r) as (i & Hi & (row & Hrow & Hs) & Hk & Hc);
    [now apply list_elem_of_In|].
  apply encode_question_Encoded in Henc as (attempt & _ & Hq).
  assert (Hsr : (-1 <= semantic_score r <= 1)%Q).
  { apply (Hcos E attempt qe row); auto.
    apply list_elem_of_In. eapply list_elem_of_lookup_2, Hrow. }
  assert (Hkr : (0 <= keyword_score r <= 1)%Q).
  { destruct (tfidf_vectorizer st) as [v|] eqn:Hv;
      [destruct (tfidf_matrix st) as [M|] eqn:HM|].
    - destruct Hk as (voc & x & mrow & -> & Hx & Hmrow & Hkc).
      apply (Hkwc voc M x mrow); auto.
      apply list_elem_of_In. eapply list_elem_of_lookup_2, Hmrow.
    - rewrite Hk. split; lra.
    - rewrite Hk. split; lra. }
  split; [exact Hsr|]. split; [exact Hkr|]. split; [exact Hfloor|].
  rewrite Hc. apply combined_at_most_one; [apply Hsr | apply Hkr].
Qed.

(** X16: Without a keyword index the floor is a bound on the cosine alone:
    every returned chunk has [keyword_score] 0 and a cosine above
    -4/7. *)
Theorem hybrid_search_without_keyword_index (st : Chatbot) q l :
  tfidf_vectorizer st = None \/ tfidf_matrix st = None ->
  hybrid_search S st q = Ok l ->
  Forall (fun r =>
            keyword_score r = 0%Q /\
            (-(4 # 7) < semantic_score r)%Q) l.
Proof.
  intros Hnone Hl. rewrite Forall_forall. intros r Hr.
  apply list_elem_of_In in Hr.
  destruct (hybrid_search_nonempty S st q l r Hl Hr)
    as (E & qe & selected & HE & Henc & Hsel & ->).
  apply filter_In in Hr as [Hr Hfloor]. apply above_floor_spec in Hfloor.
  pose proof (select_top_scored_as S st q E qe selected Hsel) as Hall.
  rewrite Forall_forall in Hall.
  destruct (Hall r) as (i & Hi & _ & Hk & Hc); [now apply list_elem_of_In|].
  assert (Hk0 : keyword_score r = 0%Q).
  { destruct Hnone as [H|H]; rewrite H in Hk; [exact Hk|].
    now destruct (tfidf_vectorizer st). }
  rewrite Hk0 in Hc. rewrite Hc in Hfloor.
  split; [exact Hk0 | now apply semantic_above_floor].
Qed.

(** X17: The floor drops nothing when every cosine is above -4/7 and no
    keyword score is negative: on an index with one row per chunk, for
    a question that encodes and scores, the search then returns exactly
    [min(SEARCH_RESULTS, n)] chunks. *)
Theorem hybrid_search_floor_keeps_all (st : Chatbot) q E qe sem kw :
  (forall scores, argsort_spec scores (argsort S scores)) ->
  index_ready st E ->
  encode_question S (seq 0 Config.MAX_RETRIES) q = Encoded qe ->
  cos_sim S qe E = Ok sem ->
  keyword_scores_of S st q = Ok kw ->
  Forall (fun s => (-(4 # 7) < s)%Q) sem ->
  Forall (fun k => (0 <= k)%Q) kw ->
  exists l,
    hybrid_search S st q = Ok l /\
    length l = Nat.min Config.SEARCH_RESULTS (length (text_chunks st)).
Proof.
  intros Hspec Hready Henc Hsem Hkw Hs Hk.
  destruct (select_top_ready st q E qe sem kw Hspec Hready Henc Hsem Hkw)
    as (comb & selected & Hcomb & Hsel & Hsearch & Hlen).
  exists (List.filter above_floor selected). split; [exact Hsearch|].
  rewrite filter_all; [exact Hlen|].
  apply exc_map_Forall2 in Hsel. rewrite Forall_forall. intros r Hr.
  apply list_elem_of_lookup in Hr as [a Ha].
  eapply Forall2_lookup_r in Hsel as (i & _ & Hi); [|exact Ha].
  apply scored_chunk_at_inv in Hi as (_ & Hsi & Hki & Hci).
  apply above_floor_spec.
  rewrite (combine_scores_lookup _ _ _ _ _ _ _ Hcomb Hsi Hki Hci).
  apply combined_above_floor.
  - rewrite Forall_forall in Hs. apply Hs. eapply list_elem_of_lookup_2, Hsi.
  - rewrite Forall_forall in Hk. apply Hk. eapply list_elem_of_lookup_2, Hki.
Qed.

End WithServices.

(** ** Runs on the sample index *)

Lemma hybrid_search_score_range_witness :
  exists l,
    hybrid_search (toy_services reliable) two_chunk_index "grades" = Ok l /\
    l <> [] /\
    Forall (fun r =>
              (-1 <= semantic_score r <= 1)%Q /\
              (0 <= keyword_score r <= 1)%Q /\
              (relevance_floor < combined_score r <= 1)%Q) l.
Proof.
  eexists. split; [vm_compute; reflexivity|]. split; [discriminate|].
  apply (hybrid_search_score_range (toy_services reliable) two_chunk_index
           "grades").
  - intros E attempt qe row s [= <-] Hrow [= <-] Hs.
    destruct Hrow as [<-|[<-|[]]]; injection Hs as <-;
      split; vm_compute; discriminate.
  - intros voc M x row k H. discriminate.
  - vm_compute. reflexivity.
Defined.

Lemma hybrid_search_without_keyword_index_witness :
  exists l,
    hybrid_search (toy_services reliable) two_chunk_index "grades" = Ok l /\
    l <> [] /\
    Forall (fun r =>
              keyword_score r = 0%Q /\
              (-(4 # 7) < semantic_score r)%Q) l.
Proof.
  eexists. split; [vm_compute; reflexivity|]. split; [discriminate|].
  apply (hybrid_search_without_keyword_index (toy_services reliable)
           two_chunk_index "grades").
  - left. reflexivity.
  - vm_compute. reflexivity.
Defined.

Lemma hybrid_search_floor_keeps_all_witness :
  exists l,
    hybrid_search (toy_services reliable) two_chunk_index "grades" = Ok l /\
    length l =
      Nat.min Config.SEARCH_RESULTS (length (text_chunks two_chunk_index)).
Proof.
  apply (hybrid_search_floor_keeps_all (toy_services reliable)
           two_chunk_index "grades"
           [toy_embed (text chunk_a); toy_embed (text chunk_b)]
           (toy_embed "grades") [625 # 625; 625 # 625]%Q [0; 0]%Q).
  - intros scores. apply stable_argsort_spec.
  - split; [reflexivity|]. split; [discriminate|]. split; [reflexivity|].
    intros matrix H. discriminate.
  - reflexivity.
  - reflexivity.
  - reflexivity.
  - repeat constructor.
  - repeat constructor; discriminate.
Defined.

End RetrieverMore.

(* ===================================================================== *)
(** * [generate_answer] and the answer to a question                      *)
(* ===================================================================== *)

Module AnswerMore.
Import PyStr ExcFacts Bot RetrieverFacts Answer Samples SamplesMore.

Lemma source_block_shown i c1 c2 :
  shown c1 = shown c2 -> source_block i c1 = source_block i c2.
Proof. unfold shown, source_block. now intros [= -> ->]. Qed.

Lemma context_loop_shown l1 : forall l2 i context_str,
  List.map shown l1 = List.map shown l2 ->
  context_loop i l1 context_str = context_loop i l2 context_str.
Proof.
  induction l1 as [|c1 l1 IH]; intros [|c2 l2] i acc H; try discriminate.
  - reflexivity.
  - cbn [List.map context_loop] in *.
    assert (Hc : shown c1 = shown c2) by congruence.
    assert (Hl : List.map shown l1 = List.map shown l2) by congruence.
    rewrite (source_block_shown i c1 c2 Hc). now apply IH.
Qed.

Lemma firstn_8_nil {A} (l : list A) : firstn 8 l = [] -> l = [].
Proof. destruct l; [reflexivity | discriminate]. Qed.

(** The retry loop of the question gives up when every attempt raises. *)
Lemma encode_question_exhausted {Vec Vocab} (S : Services Vec Vocab) q :
  (forall attempt, attempt < Config.MAX_RETRIES ->
                   exists e, encode_query S attempt q = Raise e) ->
  encode_question S (seq 0 Config.MAX_RETRIES) q = GaveUp.
Proof.
  intros H. unfold Config.MAX_RETRIES in *. simpl.
  destruct (H 0) as [e0 ->]; [lia|]. destruct (H 1) as [e1 ->]; [lia|].
  reflexivity.
Qed.

(** ** The properties *)

(** X18: The answer depends on the results only through the sources and the
    texts of the first eight: results beyond the eighth, of which the
    search returns up to five, and the scores of all of them are never
    shown to the language model. *)
Theorem generate_answer_first_eight q (l1 l2 : list ScoredChunk) client :
  List.map shown (firstn 8 l1) = List.map shown (firstn 8 l2) ->
  generate_answer q l1 client = generate_answer q l2 client.
Proof.
  intros H. unfold generate_answer, context_of.
  rewrite (context_loop_shown _ _ 0 EmptyString H).
  destruct l1 as [|c1 l1], l2 as [|c2 l2]; try reflexivity; discriminate.
Qed.

(** X19: Without an index, without chunks, or when every attempt to encode
    the question raises, the answer is the fixed message, whatever the
    language model would say: it is not asked. *)
Theorem answer_question_without_results {Vec Vocab} (S : Services Vec Vocab)
    (st : Chatbot Vec Vocab) q client :
  chunk_embeddings st = None \/ text_chunks st = [] \/
  (forall attempt, attempt < Config.MAX_RETRIES ->
                   exists e, encode_query S attempt q = Raise e) ->
  answer_question S st q client = Ok no_context_message.
Proof.
  intros H. unfold answer_question.
  assert (Hs : hybrid_search S st q = Ok []).
  { rewrite hybrid_search_cases. destruct H as [H|[H|H]].
    - now rewrite H.
    - rewrite H. now destruct (chunk_embeddings st).
    - rewrite (encode_question_exhausted S q H).
      destruct (chunk_embeddings st); [|reflexivity].
      now destruct (length (text_chunks st) =? 0). }
  now rewrite Hs.
Qed.

(** ** Runs on the samples *)

Lemma generate_answer_first_eight_witness :
  generate_answer "When are grades posted?" nine_results echo_client
  = generate_answer "When are grades posted?" eight_results echo_client.
Proof.
  apply (generate_answer_first_eight "When are grades posted?" nine_results
           eight_results echo_client).
  reflexivity.
Defined.

Lemma answer_question_without_results_witness :
  answer_question (toy_services unreachable) two_chunk_index
    "When are grades posted?" echo_client = Ok no_context_message.
Proof.
  apply (answer_question_without_results (toy_services unreachable)
           two_chunk_index "When are grades posted?" echo_client).
  right. right. intros attempt _. exists RuntimeError. reflexivity.
Defined.

End AnswerMore.

(* ===================================================================== *)
(** * [_load_embedding_model]: which model, after how much waiting        *)
(* ===================================================================== *)

Module LoaderMore.
Import Loader SamplesMore.

Section WithLoader.
Context {Model : Type}.
Variable max_retries : nat.
Variable load_primary : nat -> LoadOutcome Model.
Variable load_fallback : option Model.

Local Abbreviation retryable := (@retryable Model).
Local Abbreviation load_loop :=
  (load_loop max_retries load_primary load_fallback).

Lemma retryable_Loaded m : ~ retryable (Loaded m).
Proof. intros [H|(msg & H & _)]; discriminate. Qed.

Lemma retryable_HTTPError msg :
  retryable (HTTPError msg) <-> rate_limited msg = true.
Proof.
  split.
  - intros [H|(msg' & [= <-] & H)]; [discriminate | exact H].
  - intros H. right. now exists msg.
Qed.

(** The model the loop returns, from attempt [a] on. *)
Lemma load_loop_result k : forall a slept m,
  a + k = max_retries ->
  fst (load_loop (seq a k) slept) = Some m <->
  (exists b, a <= b < max_retries /\ load_primary b = Loaded m /\
             forall c, a <= c < b -> retryable (load_primary c)) \/
  (1 <= k /\ load_primary (max_retries - 1) = OtherError /\
   load_fallback = Some m /\
   forall c, a <= c < max_retries - 1 -> retryable (load_primary c)).
Proof.
  induction k as [|k IH]; intros a slept m Hn.
  - simpl. split; [discriminate|].
    intros [(b & Hb & _)|(Hk & _)]; lia.
  - cbn [seq Loader.load_loop].
    destruct (load_primary a) as [m'|msg|] eqn:Ha.
    + simpl. split.
      * intros [= ->]. left. exists a. split; [lia|]. split; [exact Ha|].
        intros c Hc. lia.
      * intros [(b & Hb & Hm & Hr)|(_ & Hl & _ & Hr)].
        -- destruct (Nat.eq_dec b a) as [->|Hne]; [congruence|].
           exfalso. apply (retryable_Loaded m'). rewrite <- Ha. apply Hr. lia.
        -- destruct (Nat.eq_dec a (max_retries - 1)) as [->|Hne];
             [congruence|].
           exfalso. apply (retryable_Loaded m'). rewrite <- Ha. apply Hr. lia.
    + destruct (rate_limited msg) eqn:Hmsg.
      * rewrite (IH (Datatypes.S a) _ m ltac:(lia)). split.
        -- intros [(b & Hb & Hm & Hr)|(Hk & Hl & Hf & Hr)].
           ++ left. exists b. split; [lia|]. split; [exact Hm|].
              intros c Hc. destruct (Nat.eq_dec c a) as [->|Hne].
              ** rewrite Ha. now apply retryable_HTTPError.
              ** apply Hr. lia.
           ++ right. split; [lia|]. split; [exact Hl|]. split; [exact Hf|].
              intros c Hc. destruct (Nat.eq_dec c a) as [->|Hne].
              ** rewrite Ha. now apply retryable_HTTPError.
              ** apply Hr. lia.
        -- intros [(b & Hb & Hm & Hr)|(Hk & Hl & Hf & Hr)].
           ++ left. exists b. split; [|split; [exact Hm|]].
              ** destruct (Nat.eq_dec b a) as [->|Hne]; [congruence | lia].
              ** intros c Hc. apply Hr. lia.
           ++ right. split; [|split; [exact Hl|split; [exact Hf|]]].
              ** destruct (Nat.eq_dec a (max_retries - 1)) as [E|Hne];
                   [rewrite <- E in Hl; congruence | lia].
              ** intros c Hc. apply Hr. lia.
      * simpl. split; [discriminate|].
        assert (Hnr : ~ retryable (load_primary a)).
        { rewrite Ha, retryable_HTTPError. congruence. }
        intros [(b & Hb & Hm & Hr)|(_ & Hl & _ & Hr)].
        -- destruct (Nat.eq_dec b a) as [->|Hne]; [congruence|].
           exfalso. apply Hnr, Hr. lia.
        -- destruct (Nat.eq_dec a (max_retries - 1)) as [E|Hne];
             [rewrite <- E in Hl; congruence|].
           exfalso. apply Hnr, Hr. lia.
    + destruct (Nat.eqb_spec a (max_retries - 1)) as [E|Hne].
      * simpl. split.
        -- intros Hf. right. split; [lia|]. split; [now rewrite <- E|].
           split; [exact Hf|]. intros c Hc. lia.
        -- intros [(b & Hb & Hm & Hr)|(_ & _ & Hf & _)]; [|exact Hf].
           assert (b = a) as -> by lia. congruence.
      * rewrite (IH (Datatypes.S a) _ m ltac:(lia)). split.
        -- intros [(b & Hb & Hm & Hr)|(Hk & Hl & Hf & Hr)].
           ++ left. exists b. split; [lia|]. split; [exact Hm|].
              intros c Hc. destruct (Nat.eq_dec c a) as [->|Hc'].
              ** rewrite Ha. now left.
              ** apply Hr. lia.
           ++ right. split; [lia|]. split; [exact Hl|]. split; [exact Hf|].
              intros c Hc. destruct (Nat.eq_dec c a) as [->|Hc'].
              ** rewrite Ha. now left.
              ** apply Hr. lia.
        -- intros [(b & Hb & Hm & Hr)|(Hk & Hl & Hf & Hr)].
           ++ left. exists b. split; [|split; [exact Hm|]].
              ** destruct (Nat.eq_dec b a) as [->|Hb']; [congruence | lia].
              ** intros c Hc. apply Hr. lia.
           ++ right. split; [lia|]. split; [exact Hl|]. split; [exact Hf|].
              intros c Hc. apply Hr. lia.
Qed.

(** What the loop adds to the sleeps, from attempt [a] on. *)
Lemma load_loop_slept k : forall a slept,
  a + k = max_retries ->
  exists extra,
    snd (load_loop (seq a k) slept) = slept ++ extra /\
    length extra <= k - 1 /\
    list_sum extra + 3 * 2 ^ a <= 3 * 2 ^ (a + k - 1) + (if k =? 0 then 3 * 2 ^ a else 0).
Proof.
  induction k as [|k IH]; intros a slept Hn.
  - exists []. simpl. rewrite app_nil_r. repeat split; lia.
  - assert (Hstop : forall r, exists extra,
               snd (r : option Model, slept) = slept ++ extra /\
               length extra <= Datatypes.S k - 1 /\
               list_sum extra + 3 * 2 ^ a
               <= 3 * 2 ^ (a + Datatypes.S k - 1) + 0).
    { intros r. exists []. simpl. rewrite app_nil_r.
      split; [reflexivity|]. split; [lia|].
      assert (2 ^ a <= 2 ^ (a + Datatypes.S k - 1))
        by (apply Nat.pow_le_mono_r; lia).
      lia. }
    assert (Hgo : forall w, w <= 3 * 2 ^ a -> a <> max_retries - 1 ->
               exists extra,
                 snd (load_loop (seq (Datatypes.S a) k) (slept ++ [w]))
                 = slept ++ extra /\
                 length extra <= Datatypes.S k - 1 /\
                 list_sum extra + 3 * 2 ^ a
                 <= 3 * 2 ^ (a + Datatypes.S k - 1) + 0).
    { intros w Hw Hne.
      destruct (IH (Datatypes.S a) (slept ++ [w]) ltac:(lia))
        as (extra & He & Hl & Hs).
      exists (w :: extra). rewrite He, <- app_assoc. simpl.
      split; [reflexivity|]. split; [lia|].
      assert (Hk : k <> 0) by lia.
      pose proof (proj2 (Nat.eqb_neq k 0) Hk) as Hkb. rewrite Hkb in Hs.
      replace (Datatypes.S a + k - 1) with (a + Datatypes.S k - 1) in Hs by lia.
      change (2 ^ Datatypes.S a) with (2 * 2 ^ a) in Hs. lia. }
    cbn [seq Loader.load_loop].
    destruct (load_primary a) as [m'|msg|] eqn:Ha.
    + apply Hstop.
    + destruct (rate_limited msg); [|apply Hstop].
      destruct (Nat.ltb_spec a (max_retries - 1)) as [Hlt|Hge].
      * apply Hgo; lia.
      * assert (Hk : k = 0) by lia.
        replace (seq (Datatypes.S a) k) with (@nil nat) by now rewrite Hk.
        apply Hstop.
    + destruct (Nat.eqb_spec a (max_retries - 1)) as [E|Hne];
        [apply Hstop|].
      apply Hgo; [|exact Hne].
      assert (0 < 2 ^ a) by (apply Nat.neq_0_lt_0, Nat.pow_nonzero; lia).
      lia.
Qed.

(** ** The properties *)

(** X20: The model that is returned, for any number of attempts (the source
    has [Config.MAX_RETRIES], two).  It is the configured model of the
    first attempt that loads it, provided every attempt before failed
    with a 429 or with an exception that is no HTTP error; or it is the
    fallback model, provided the last attempt failed with an exception
    that is no HTTP error and the attempts before were of that kind or
    429s.  In every other case the result is [None]: an HTTP error
    other than 429 ends the loop, and a 429 at the last attempt leaves
    the fallback untried. *)
Theorem load_embedding_model_result m :
  fst (_load_embedding_model_with max_retries load_primary load_fallback)
    = Some m <->
  (exists b, b < max_retries /\ load_primary b = Loaded m /\
             forall c, c < b -> retryable (load_primary c)) \/
  (1 <= max_retries /\ load_primary (max_retries - 1) = OtherError /\
   load_fallback = Some m /\
   forall c, c < max_retries - 1 -> retryable (load_primary c)).
Proof.
  unfold _load_embedding_model_with.
  rewrite (load_loop_result max_retries 0 [] m eq_refl). split.
  - intros [(b & Hb & Hm & Hr)|(Hk & Hl & Hf & Hr)].
    + left. exists b. split; [lia|]. split; [exact Hm|].
      intros c Hc. apply Hr. lia.
    + right. split; [exact Hk|]. split; [exact Hl|]. split; [exact Hf|].
      intros c Hc. apply Hr. lia.
  - intros [(b & Hb & Hm & Hr)|(Hk & Hl & Hf & Hr)].
    + left. exists b. split; [lia|]. split; [exact Hm|].
      intros c Hc. apply Hr. lia.
    + right. split; [exact Hk|]. split; [exact Hl|]. split; [exact Hf|].
      intros c Hc. apply Hr. lia.
Qed.

(** X21: The waiting, for any number of attempts.  The loop sleeps at most
    [max_retries - 1] times, never after the last attempt, and at most
    [3 * (2 ^ (max_retries - 1) - 1)] seconds in all: once and three
    seconds with the two attempts of the source. *)
Theorem load_embedding_model_sleeps :
  length (snd (_load_embedding_model_with max_retries load_primary
                 load_fallback)) <= max_retries - 1 /\
  list_sum (snd (_load_embedding_model_with max_retries load_primary
                   load_fallback)) <= 3 * (2 ^ (max_retries - 1) - 1).
Proof.
  unfold _load_embedding_model_with.
  destruct (load_loop_slept max_retries 0 [] eq_refl) as (extra & -> & Hl & Hs).
  simpl app. split; [exact Hl|].
  destruct (Nat.eq_dec max_retries 0) as [Hz|Hn].
  - destruct extra; [simpl; lia | simpl in Hl; lia].
  - rewrite (proj2 (Nat.eqb_neq _ _) Hn) in Hs.
    replace (0 + max_retries - 1) with (max_retries - 1) in Hs by lia.
    change (2 ^ 0) with 1 in Hs.
    assert (0 < 2 ^ (max_retries - 1))
      by (apply Nat.neq_0_lt_0, Nat.pow_nonzero; lia).
    lia.
Qed.

End WithLoader.
End LoaderMore.

(* ===================================================================== *)
(** * Text extraction: what is removed and what is stored                 *)
(* ===================================================================== *)

Module PdfMore.
Import PyStr PyStrFacts ExcFacts Bot Pdf Samples SamplesMore.

(** ** The character classes *)

Ltac by_cases_on c :=
  destruct c as [[] [] [] [] [] [] [] []]; vm_compute; congruence.

Lemma isspace_newline : isspace newline = true.
Proof. reflexivity. Qed.

Lemma digit_not_space c : is_digit c = true -> isspace c = false.
Proof. by_cases_on c. Qed.

Lemma digit_is_word c : is_digit c = true -> is_word c = true.
Proof. by_cases_on c. Qed.

Lemma word_not_space c : is_word c = true -> isspace c = false.
Proof. by_cases_on c. Qed.

Lemma word_not_hyphen c : is_word c = true -> (c =? hyphen)%char = false.
Proof. by_cases_on c. Qed.

Lemma space_not_hyphen c : isspace c = true -> (c =? hyphen)%char = false.
Proof. by_cases_on c. Qed.

Lemma newline_is_space c : (c =? newline)%char = true -> isspace c = true.
Proof. by_cases_on c. Qed.

Lemma space_not_solid c : isspace c = true -> is_solid c = false.
Proof. unfold is_solid. now intros ->. Qed.

Lemma digit_not_solid c : is_digit c = true -> is_solid c = false.
Proof. unfold is_solid. intros ->. now rewrite orb_true_r. Qed.

Lemma hyphen_not_solid : is_solid hyphen = false.
Proof. reflexivity. Qed.

Lemma newline_not_solid c : (c =? newline)%char = true -> is_solid c = false.
Proof. intros H. now apply space_not_solid, newline_is_space. Qed.

(** ** [letters], [has_newline] and concatenation *)

Lemma append_cons c a b :
  (String c a ++ b)%string = String c (a ++ b)%string.
Proof. reflexivity. Qed.

Lemma append_nil b : (EmptyString ++ b)%string = b.
Proof. reflexivity. Qed.

Lemma append_nil_r a : (a ++ EmptyString)%string = a.
Proof. induction a as [|c a IH]; [reflexivity|]. now rewrite append_cons, IH. Qed.

Lemma append_assoc a b c :
  ((a ++ b) ++ c)%string = (a ++ (b ++ c))%string.
Proof.
  induction a as [|x a IH]; [reflexivity|]. now rewrite !append_cons, IH.
Qed.

Lemma letters_cons c r :
  letters (String c r) = if is_solid c then c :: letters r else letters r.
Proof. reflexivity. Qed.

Lemma letters_app a b : letters (a ++ b)%string = letters a ++ letters b.
Proof.
  induction a as [|c a IH]; [reflexivity|].
  rewrite append_cons, !letters_cons.
  destruct (is_solid c); [now rewrite IH | exact IH].
Qed.

Lemma letters_cons_not_solid c r :
  is_solid c = false -> letters (String c r) = letters r.
Proof. intros H. now rewrite letters_cons, H. Qed.

Lemma has_newline_cons c r :
  has_newline (String c r) = (c =? newline)%char || has_newline r.
Proof. reflexivity. Qed.

Lemma has_newline_app a b :
  has_newline (a ++ b)%string = has_newline a || has_newline b.
Proof.
  induction a as [|c a IH]; [reflexivity|].
  now rewrite append_cons, !has_newline_cons, IH, orb_assoc.
Qed.

(** ** The substitutions, one character at a time *)

Lemma collapse_go_cons in_run c r :
  collapse_go in_run (String c r) =
  if isspace c then
    if in_run then collapse_go true r else String " " (collapse_go true r)
  else String c (collapse_go false r).
Proof. reflexivity. Qed.

Lemma join_go_cons state c r :
  join_go state (String c r) =
  match state with
  | Outside => String c (join_go (if is_word c then InWord else Outside) r)
  | InWord =>
      if is_word c then String c (join_go InWord r)
      else if (c =? hyphen)%char then join_go AfterHyphen r
      else String c (join_go Outside r)
  | AfterHyphen =>
      if isspace c then join_go (AfterSpace (String c EmptyString)) r
      else String hyphen
             (String c (join_go (if is_word c then InWord else Outside) r))
  | AfterSpace pending =>
      if isspace c
      then join_go (AfterSpace (pending ++ String c EmptyString)%string) r
      else if is_word c then String c (join_go InSecond r)
      else String hyphen (pending ++ String c (join_go Outside r))%string
  | InSecond =>
      String c (join_go (if is_word c then InSecond else Outside) r)
  end.
Proof. reflexivity. Qed.

Lemma drop_go_cons state c r :
  drop_go state (String c r) =
  match state with
  | LineStart =>
      if is_digit c then drop_go (Digits (String c EmptyString)) r
      else String c (drop_go (if (c =? newline)%char then LineStart
                              else MidLine) r)
  | MidLine =>
      String c (drop_go (if (c =? newline)%char then LineStart
                         else MidLine) r)
  | Digits pending =>
      if is_digit c
      then drop_go (Digits (pending ++ String c EmptyString)%string) r
      else if (c =? newline)%char
      then drop_go (Trailing pending (Some EmptyString)) r
      else if isspace c
      then drop_go (Trailing (pending ++ String c EmptyString)%string None) r
      else (pending ++ String c (drop_go MidLine r))%string
  | Trailing before after =>
      if (c =? newline)%char then
        drop_go (Trailing
                   (before ++ match after with
                              | Some w => String newline w
                              | None => EmptyString
                              end)%string
                   (Some EmptyString)) r
      else if isspace c then
        match after with
        | None =>
            drop_go (Trailing (before ++ String c EmptyString)%string None) r
        | Some w =>
            drop_go (Trailing before (Some (w ++ String c EmptyString)%string)) r
        end
      else
        match after with
        | None => (before ++ String c (drop_go MidLine r))%string
        | Some EmptyString =>
            String newline
              (if is_digit c then drop_go (Digits (String c EmptyString)) r
               else String c (drop_go MidLine r))
        | Some w => String newline (w ++ String c (drop_go MidLine r))%string
        end
  end.
Proof. destruct state; reflexivity. Qed.

Lemma drop_go_nil state : drop_go state EmptyString = EmptyString.
Proof. reflexivity. Qed.

Lemma squeeze_go_cons run c r :
  squeeze_go run (String c r) =
  if (c =? newline)%char then
    if run <? 2 then String c (squeeze_go (Datatypes.S run) r)
    else squeeze_go (Datatypes.S run) r
  else String c (squeeze_go 0 r).
Proof. reflexivity. Qed.

(** ** No substitution touches a letter *)

Lemma letters_collapse s : forall in_run,
  letters (collapse_go in_run s) = letters s.
Proof.
  induction s as [|c s IH]; intros in_run; [reflexivity|].
  rewrite collapse_go_cons, (letters_cons c s).
  destruct (isspace c) eqn:Hc.
  - rewrite (space_not_solid c Hc). destruct in_run; [apply IH|].
    rewrite letters_cons_not_solid by reflexivity. apply IH.
  - rewrite letters_cons. now rewrite IH.
Qed.

Lemma hyphen_eqb_not_solid c : (c =? hyphen)%char = true -> is_solid c = false.
Proof. unfold is_solid. intros ->. now rewrite orb_true_r. Qed.

Lemma letters_join s : forall state,
  (forall pending, state = AfterSpace pending -> letters pending = []) ->
  letters (join_go state s) = letters s.
Proof.
  induction s as [|c s IH]; intros state Hstate.
  - destruct state as [| | |pending|]; try reflexivity.
    cbn [join_go]. rewrite letters_cons_not_solid by reflexivity.
    now apply Hstate.
  - rewrite join_go_cons, (letters_cons c s).
    destruct state as [| | |pending|].
    + rewrite letters_cons. rewrite IH; [reflexivity|].
      intros p H. destruct (is_word c); discriminate.
    + destruct (is_word c) eqn:Hw.
      * rewrite letters_cons, IH; [reflexivity | discriminate].
      * destruct (c =? hyphen)%char eqn:Hh.
        -- rewrite (hyphen_eqb_not_solid c Hh). apply IH. discriminate.
        -- rewrite letters_cons, IH; [reflexivity | discriminate].
    + destruct (isspace c) eqn:Hc.
      * rewrite (space_not_solid c Hc). apply IH. intros p [= <-].
        now rewrite letters_cons_not_solid by now apply space_not_solid.
      * rewrite letters_cons_not_solid by reflexivity.
        rewrite letters_cons, IH; [reflexivity|].
        intros p H. destruct (is_word c); discriminate.
    + pose proof (Hstate pending eq_refl) as Hp.
      destruct (isspace c) eqn:Hc.
      * rewrite (space_not_solid c Hc). apply IH. intros p [= <-].
        rewrite letters_app, Hp.
        now rewrite letters_cons_not_solid by now apply space_not_solid.
      * destruct (is_word c) eqn:Hw.
        -- rewrite letters_cons, IH; [reflexivity | discriminate].
        -- rewrite letters_cons_not_solid by reflexivity.
           rewrite letters_app, Hp, letters_cons, IH;
             [reflexivity | discriminate].
    + rewrite letters_cons. rewrite IH; [reflexivity|].
      intros p H. destruct (is_word c); discriminate.
Qed.

Lemma letters_drop s : forall state,
  (forall pending, state = Digits pending -> letters pending = []) ->
  (forall before after, state = Trailing before after ->
     letters before = [] /\ forall w, after = Some w -> letters w = []) ->
  letters (drop_go state s) = letters s.
Proof.
  induction s as [|c s IH]; intros state HD HT; [reflexivity|].
  rewrite drop_go_cons, (letters_cons c s).
  assert (Hmid : letters (String c (drop_go MidLine s))
                 = if is_solid c then c :: letters s else letters s).
  { rewrite letters_cons, IH; [reflexivity | discriminate | discriminate]. }
  assert (Hdig : is_digit c = true ->
                 letters (drop_go (Digits (String c EmptyString)) s)
                 = if is_solid c then c :: letters s else letters s).
  { intros Hd. rewrite (digit_not_solid c Hd). apply IH; [|discriminate].
    intros p [= <-]. now rewrite letters_cons_not_solid
      by now apply digit_not_solid. }
  destruct state as [| |pending|before after].
  - destruct (is_digit c) eqn:Hd; [now apply Hdig|].
    rewrite letters_cons, IH; [reflexivity| |];
      intros; destruct (c =? newline)%char; discriminate.
  - rewrite letters_cons, IH; [reflexivity| |];
      intros; destruct (c =? newline)%char; discriminate.
  - pose proof (HD pending eq_refl) as Hp.
    destruct (is_digit c) eqn:Hd.
    + rewrite (digit_not_solid c Hd). apply IH; [|discriminate].
      intros p [= <-]. rewrite letters_app, Hp.
      now rewrite letters_cons_not_solid by now apply digit_not_solid.
    + destruct (c =? newline)%char eqn:Hn.
      * rewrite (newline_not_solid c Hn). apply IH; [discriminate|].
        intros b a [= <- <-]. split; [exact Hp|]. now intros w [= <-].
      * destruct (isspace c) eqn:Hc.
        -- rewrite (space_not_solid c Hc). apply IH; [discriminate|].
           intros b a [= <- <-]. split; [|discriminate].
           rewrite letters_app, Hp.
           now rewrite letters_cons_not_solid by now apply space_not_solid.
        -- now rewrite letters_app, Hp, Hmid.
  - destruct (HT before after eq_refl) as [Hb Ha].
    destruct (c =? newline)%char eqn:Hn.
    + rewrite (newline_not_solid c Hn). apply IH; [discriminate|].
      intros b a [= <- <-]. split; [|now intros w [= <-]].
      rewrite letters_app, Hb. destruct after as [w|]; [|reflexivity].
      rewrite letters_cons_not_solid by reflexivity. now apply Ha.
    + destruct (isspace c) eqn:Hc.
      * rewrite (space_not_solid c Hc). destruct after as [w|].
        -- apply IH; [discriminate|]. intros b a [= <- <-].
           split; [exact Hb|]. intros w' [= <-].
           rewrite letters_app, (Ha w eq_refl).
           now rewrite letters_cons_not_solid by now apply space_not_solid.
        -- apply IH; [discriminate|]. intros b a [= <- <-].
           split; [|discriminate]. rewrite letters_app, Hb.
           now rewrite letters_cons_not_solid by now apply space_not_solid.
      * destruct after as [[|x w]|].
        -- rewrite letters_cons_not_solid by reflexivity.
           destruct (is_digit c) eqn:Hd; [now apply Hdig | exact Hmid].
        -- rewrite letters_cons_not_solid by reflexivity.
           now rewrite letters_app, (Ha _ eq_refl), Hmid.
        -- now rewrite letters_app, Hb, Hmid.
Qed.

Lemma letters_squeeze s : forall run, letters (squeeze_go run s) = letters s.
Proof.
  induction s as [|c s IH]; intros run; [reflexivity|].
  rewrite squeeze_go_cons, (letters_cons c s).
  destruct (c =? newline)%char eqn:Hn.
  - rewrite (newline_not_solid c Hn). destruct (run <? 2); [|apply IH].
    rewrite letters_cons_not_solid by now apply newline_not_solid. apply IH.
  - now rewrite letters_cons, IH.
Qed.

Lemma letters_lstrip s : letters (lstrip s) = letters s.
Proof.
  induction s as [|c s IH]; [reflexivity|]. cbn [lstrip].
  destruct (isspace c) eqn:Hc; [|reflexivity].
  now rewrite IH, letters_cons_not_solid by now apply space_not_solid.
Qed.

Lemma rstrip_cons c r :
  rstrip (String c r) =
  match rstrip r with
  | EmptyString => if isspace c then EmptyString else String c EmptyString
  | r' => String c r'
  end.
Proof. reflexivity. Qed.

Lemma letters_rstrip s : letters (rstrip s) = letters s.
Proof.
  induction s as [|c s IH]; [reflexivity|]. rewrite rstrip_cons.
  destruct (rstrip s) as [|x r'].
  - rewrite letters_cons, <- IH. destruct (isspace c) eqn:Hc.
    + now rewrite (space_not_solid c Hc).
    + now rewrite letters_cons.
  - now rewrite (letters_cons c (String x r')), (letters_cons c s), IH.
Qed.

Lemma letters_strip s : letters (strip s) = letters s.
Proof. unfold strip. now rewrite letters_rstrip, letters_lstrip. Qed.

Lemma letters_clean_page page : letters (clean_page page) = letters page.
Proof.
  unfold clean_page, drop_page_numbers, join_hyphenated, collapse_whitespace.
  rewrite letters_drop, letters_join, letters_collapse;
    [reflexivity | discriminate | discriminate | discriminate].
Qed.

Lemma letters_pages_loop pages : forall text,
  letters (fold_left
             (fun text page_text =>
                text ++ clean_page page_text
                     ++ String newline (String newline EmptyString))%string
             pages text)
  = letters text ++ List.concat (List.map letters pages).
Proof.
  induction pages as [|page pages IH]; intros text; cbn [fold_left].
  - simpl. now rewrite app_nil_r.
  - rewrite IH, !letters_app, letters_clean_page.
    cbn [List.map List.concat].
    rewrite (letters_cons_not_solid newline) by reflexivity.
    rewrite (letters_cons_not_solid newline) by reflexivity.
    cbn [letters]. now rewrite app_nil_r, <- app_assoc.
Qed.

(** ** The shape of the cleaned text *)

Lemma not_space_not_newline c : isspace c = false -> (c =? newline)%char = false.
Proof.
  intros H. destruct (c =? newline)%char eqn:E; [|reflexivity].
  apply newline_is_space in E. congruence.
Qed.

Lemma lstrip_strip s : lstrip (strip s) = strip s.
Proof.
  unfold strip. destruct (lstrip_head s) as [E | (c & r & E & Hc)].
  - now rewrite E.
  - rewrite E. destruct (rstrip_head c r Hc) as [r' E']. rewrite E'.
    cbn [lstrip]. now rewrite Hc.
Qed.

Lemma rstrip_fixed_cons c r :
  rstrip (String c r) = String c r <->
  (r = EmptyString /\ isspace c = false) \/
  (r <> EmptyString /\ rstrip r = r).
Proof.
  rewrite rstrip_cons. split.
  - destruct (rstrip r) as [|x r'] eqn:E.
    + destruct (isspace c); [discriminate|]. intros [= <-]. now left.
    + intros [= <-]. right. split; [discriminate | reflexivity].
  - intros [[-> Hc]|[Hne E]].
    + cbn [rstrip]. now rewrite Hc.
    + rewrite E. destruct r; [contradiction | reflexivity].
Qed.

Lemma rstrip_rstrip s : rstrip (rstrip s) = rstrip s.
Proof.
  induction s as [|c s IH]; [reflexivity|]. rewrite (rstrip_cons c s).
  destruct (rstrip s) as [|x r'] eqn:E.
  - destruct (isspace c) eqn:Hc; [reflexivity|].
    apply rstrip_fixed_cons. now left.
  - apply rstrip_fixed_cons. right. split; [discriminate | exact IH].
Qed.

Lemma rstrip_strip s : rstrip (strip s) = strip s.
Proof. unfold strip. apply rstrip_rstrip. Qed.

Lemma lstrip_squeeze s :
  lstrip s = s -> lstrip (squeeze_go 0 s) = squeeze_go 0 s.
Proof.
  destruct s as [|c r]; [reflexivity|]. intros H.
  assert (Hc : isspace c = false).
  { destruct (lstrip_head (String c r)) as [E | (c' & r' & E & Hc')];
      rewrite H in E; [discriminate|]. now injection E as -> _. }
  rewrite squeeze_go_cons, (not_space_not_newline c Hc).
  cbn [lstrip]. now rewrite Hc.
Qed.

Lemma squeeze_nonempty s : forall run,
  s <> EmptyString -> rstrip s = s -> squeeze_go run s <> EmptyString.
Proof.
  induction s as [|c s IH]; intros run Hne H; [contradiction|].
  rewrite squeeze_go_cons.
  apply rstrip_fixed_cons in H as [[-> Hc]|[Hs E]].
  - now rewrite (not_space_not_newline c Hc).
  - destruct (c =? newline)%char; [|discriminate].
    destruct (run <? 2); [discriminate | now apply IH].
Qed.

Lemma rstrip_squeeze s : forall run,
  rstrip s = s -> rstrip (squeeze_go run s) = squeeze_go run s.
Proof.
  induction s as [|c s IH]; intros run H; [reflexivity|].
  rewrite squeeze_go_cons.
  apply rstrip_fixed_cons in H as [[-> Hc]|[Hs E]].
  - rewrite (not_space_not_newline c Hc). apply rstrip_fixed_cons. now left.
  - assert (Hkeep : forall run', rstrip (String c (squeeze_go run' s))
                                 = String c (squeeze_go run' s)).
    { intros run'. apply rstrip_fixed_cons. right.
      split; [now apply squeeze_nonempty | now apply IH]. }
    destruct (c =? newline)%char; [|apply Hkeep].
    destruct (run <? 2); [apply Hkeep | now apply IH].
Qed.

Lemma no_long_run_cons run c r :
  no_long_run run (String c r) =
  if (c =? newline)%char
  then (run <? 2) && no_long_run (Datatypes.S run) r
  else no_long_run 0 r.
Proof. reflexivity. Qed.

Lemma no_long_run_squeeze s : forall run k,
  k <= run -> no_long_run k (squeeze_go run s) = true.
Proof.
  induction s as [|c s IH]; intros run k Hk; [reflexivity|].
  rewrite squeeze_go_cons. destruct (c =? newline)%char eqn:Hn.
  - destruct (Nat.ltb_spec run 2) as [Hlt|Hge].
    + rewrite no_long_run_cons, Hn. apply andb_true_iff. split.
      * apply Nat.ltb_lt. lia.
      * apply IH. lia.
    + apply IH. lia.
  - rewrite no_long_run_cons, Hn. now apply IH.
Qed.

(** ** Text without line breaks *)

Lemma has_newline_collapse s : forall in_run,
  has_newline (collapse_go in_run s) = false.
Proof.
  induction s as [|c s IH]; intros in_run; [reflexivity|].
  rewrite collapse_go_cons. destruct (isspace c) eqn:Hc.
  - destruct in_run; [apply IH|]. rewrite has_newline_cons, IH. reflexivity.
  - now rewrite has_newline_cons, IH, (not_space_not_newline c Hc).
Qed.

Lemma has_newline_join s : forall state,
  has_newline s = false ->
  (forall pending, state = AfterSpace pending -> has_newline pending = false) ->
  has_newline (join_go state s) = false.
Proof.
  induction s as [|c s IH]; intros state Hs Hstate.
  - destruct state as [| | |pending|]; try reflexivity.
    cbn [join_go]. rewrite has_newline_cons. now rewrite (Hstate _ eq_refl).
  - rewrite has_newline_cons in Hs. apply orb_false_iff in Hs as [Hc Hs].
    assert (Hout : forall st, (forall p, st <> AfterSpace p) ->
                     has_newline (String c (join_go st s)) = false).
    { intros st Hst. rewrite has_newline_cons, Hc. apply IH; [exact Hs|].
      intros p E. now destruct (Hst p). }
    rewrite join_go_cons. destruct state as [| | |pending|].
    + apply Hout. intros p. destruct (is_word c); discriminate.
    + destruct (is_word c); [apply Hout; discriminate|].
      destruct (c =? hyphen)%char; [|apply Hout; discriminate].
      apply IH; [exact Hs | discriminate].
    + destruct (isspace c).
      * apply IH; [exact Hs|]. intros p [= <-].
        now rewrite has_newline_cons, Hc.
      * rewrite has_newline_cons. apply Hout.
        intros p. destruct (is_word c); discriminate.
    + pose proof (Hstate _ eq_refl) as Hp. destruct (isspace c).
      * apply IH; [exact Hs|]. intros p [= <-].
        now rewrite has_newline_app, Hp, has_newline_cons, Hc.
      * destruct (is_word c); [apply Hout; discriminate|].
        rewrite has_newline_cons, has_newline_app, Hp.
        apply Hout. discriminate.
    + apply Hout. intros p. destruct (is_word c); discriminate.
Qed.

Lemma all_space_cons c r : all_space (String c r) = isspace c && all_space r.
Proof. reflexivity. Qed.

Lemma number_tail_cons c r :
  number_tail (String c r) =
  if is_digit c then number_tail r else isspace c && all_space r.
Proof. reflexivity. Qed.

Lemma drop_mid_no_newline s :
  has_newline s = false -> drop_go MidLine s = s.
Proof.
  induction s as [|c s IH]; [reflexivity|]. rewrite has_newline_cons.
  intros H. apply orb_false_iff in H as [Hc Hs].
  now rewrite drop_go_cons, Hc, IH.
Qed.

Lemma drop_trailing_no_newline s : forall before,
  has_newline s = false ->
  drop_go (Trailing before None) s =
  if all_space s then EmptyString else (before ++ s)%string.
Proof.
  induction s as [|c s IH]; intros before; [reflexivity|].
  rewrite has_newline_cons. intros H. apply orb_false_iff in H as [Hc Hs].
  rewrite drop_go_cons, Hc, all_space_cons. destruct (isspace c).
  - rewrite IH by exact Hs. simpl andb.
    destruct (all_space s); [reflexivity|].
    now rewrite append_assoc.
  - simpl andb. now rewrite drop_mid_no_newline.
Qed.

Lemma drop_digits_no_newline s : forall pending,
  has_newline s = false ->
  drop_go (Digits pending) s =
  if number_tail s then EmptyString else (pending ++ s)%string.
Proof.
  induction s as [|c s IH]; intros pending; [reflexivity|].
  rewrite has_newline_cons. intros H. apply orb_false_iff in H as [Hc Hs].
  rewrite drop_go_cons, Hc, number_tail_cons. destruct (is_digit c).
  - rewrite IH by exact Hs. destruct (number_tail s); [reflexivity|].
    now rewrite append_assoc.
  - destruct (isspace c).
    + rewrite drop_trailing_no_newline by exact Hs. simpl andb.
      destruct (all_space s); [reflexivity|]. now rewrite append_assoc.
    + simpl andb. now rewrite drop_mid_no_newline.
Qed.

Lemma drop_page_numbers_no_newline s :
  has_newline s = false ->
  drop_page_numbers s = if number_only s then EmptyString else s.
Proof.
  unfold drop_page_numbers. destruct s as [|c s]; [reflexivity|].
  rewrite has_newline_cons. intros H. apply orb_false_iff in H as [Hc Hs].
  rewrite drop_go_cons, Hc. cbn [number_only]. destruct (is_digit c).
  - rewrite drop_digits_no_newline by exact Hs. simpl andb.
    now destruct (number_tail s).
  - simpl andb. now rewrite drop_mid_no_newline.
Qed.

(** ** The dictionary of the documents *)

Lemma dict_set_In d : forall key value kv,
  In kv (dict_set d key value) -> kv = (key, value) \/ In kv d.
Proof.
  induction d as [|[k v] d IH]; intros key value kv; cbn [dict_set].
  - intros [<-|[]]. now left.
  - destruct (String.eqb_spec k key) as [->|Hne].
    + intros [<-|H]; [now left | right; now right].
    + intros [<-|H]; [right; now left|].
      destruct (IH _ _ _ H) as [->|H']; [now left | right; now right].
Qed.

Lemma dict_set_keys d : forall key value k',
  In k' (List.map fst (dict_set d key value)) ->
  k' = key \/ In k' (List.map fst d).
Proof.
  intros key value k' H. apply in_map_iff in H as ([k v] & <- & H).
  apply dict_set_In in H as [[= -> ->]|H]; [now left|].
  right. apply in_map_iff. now exists (k, v).
Qed.

Lemma dict_set_NoDup d : forall key value,
  List.NoDup (List.map fst d) ->
  List.NoDup (List.map fst (dict_set d key value)).
Proof.
  induction d as [|[k v] d IH]; intros key value H; cbn [dict_set].
  - repeat constructor. intros [].
  - destruct (String.eqb_spec k key) as [->|Hne]; [exact H|].
    cbn [List.map fst] in *. inversion H as [|? ? Hk Hd]; subst.
    constructor; [|now apply IH].
    intros Hin. apply dict_set_keys in Hin as [->|Hin]; [now apply Hne|].
    now apply Hk.
Qed.

Lemma dict_set_not_nil d key value : dict_set d key value <> [].
Proof.
  destruct d as [|[k v] d]; cbn [dict_set]; [discriminate|].
  destruct (String.eqb k key); discriminate.
Qed.

Section WithTypes.
Context {Vec Vocab : Type}.

Local Abbreviation Chatbot := (Chatbot Vec Vocab).

(** What a stored text is to the files that were read. *)
Local Abbreviation stored_from files :=
  (fun kv : string * string =>
     100 < String.length (snd kv) /\
     exists pages, In (fst kv, Ok pages) files /\
                   snd kv = final_clean (pages_text pages)).

Lemma extract_text_from_pdf_fields doc filename (st : Chatbot) :
  extract_text_from_pdf doc filename st
  = set_pdf_contents
      (pdf_contents (extract_text_from_pdf doc filename st)) st.
Proof.
  unfold extract_text_from_pdf. destruct doc as [pages|e].
  - destruct (100 <? _); [reflexivity | now destruct st].
  - now destruct st.
Qed.

Lemma extract_text_from_pdf_contents doc filename (st st0 : Chatbot) :
  pdf_contents st = pdf_contents st0 ->
  pdf_contents (extract_text_from_pdf doc filename st)
  = pdf_contents (extract_text_from_pdf doc filename st0).
Proof.
  intros H. unfold extract_text_from_pdf. destruct doc as [pages|e]; [|exact H].
  destruct (100 <? _); [|exact H]. cbn [set_pdf_contents pdf_contents].
  now rewrite H.
Qed.

Lemma extract_text_from_pdf_inv files doc filename (st : Chatbot) :
  In (filename, doc) files ->
  List.NoDup (List.map fst (pdf_contents st)) ->
  Forall (stored_from files) (pdf_contents st) ->
  List.NoDup (List.map fst
                (pdf_contents (extract_text_from_pdf doc filename st))) /\
  Forall (stored_from files)
         (pdf_contents (extract_text_from_pdf doc filename st)).
Proof.
  intros Hin Hnd Hall. unfold extract_text_from_pdf.
  destruct doc as [pages|e]; [|now split].
  destruct (Nat.ltb_spec 100 (String.length (final_clean (pages_text pages))))
    as [Hlen|Hlen]; [|now split].
  cbn [set_pdf_contents pdf_contents]. split; [now apply dict_set_NoDup|].
  rewrite Forall_forall in *. intros kv Hkv. apply list_elem_of_In in Hkv.
  apply dict_set_In in Hkv as [->|Hkv].
  - split; [exact Hlen|]. now exists pages.
  - apply Hall. now apply list_elem_of_In.
Qed.

Lemma set_pdf_contents_trans (a b c : Chatbot) :
  a = set_pdf_contents (pdf_contents a) b ->
  b = set_pdf_contents (pdf_contents b) c ->
  a = set_pdf_contents (pdf_contents a) c.
Proof.
  destruct a, b, c. unfold set_pdf_contents. cbn.
  intros [= -> -> -> ->] [= -> -> -> ->]. reflexivity.
Qed.

Lemma extract_loop_fields l : forall (st : Chatbot),
  fold_left (fun st f => extract_text_from_pdf (snd f) (fst f) st) l st
  = set_pdf_contents
      (pdf_contents
         (fold_left (fun st f => extract_text_from_pdf (snd f) (fst f) st) l st))
      st.
Proof.
  induction l as [|[filename doc] l IH]; intros st; cbn [fold_left fst snd].
  - now destruct st.
  - eapply set_pdf_contents_trans;
      [apply IH | apply extract_text_from_pdf_fields].
Qed.

Lemma extract_loop_contents l : forall (st st0 : Chatbot),
  pdf_contents st = pdf_contents st0 ->
  pdf_contents
    (fold_left (fun st f => extract_text_from_pdf (snd f) (fst f) st) l st)
  = pdf_contents
      (fold_left (fun st f => extract_text_from_pdf (snd f) (fst f) st) l st0).
Proof.
  induction l as [|[filename doc] l IH]; intros st st0 H; cbn [fold_left fst snd];
    [exact H|].
  apply IH. now apply extract_text_from_pdf_contents.
Qed.

Lemma extract_loop_inv files l : forall (st : Chatbot),
  (forall f, In f l -> In f files) ->
  List.NoDup (List.map fst (pdf_contents st)) ->
  Forall (stored_from files) (pdf_contents st) ->
  List.NoDup
    (List.map fst
       (pdf_contents
          (fold_left (fun st f => extract_text_from_pdf (snd f) (fst f) st)
                     l st))) /\
  Forall (stored_from files)
    (pdf_contents
       (fold_left (fun st f => extract_text_from_pdf (snd f) (fst f) st) l st)).
Proof.
  induction l as [|[filename doc] l IH]; intros st Hl Hnd Hall;
    cbn [fold_left fst snd]; [now split|].
  destruct (extract_text_from_pdf_inv files doc filename st) as [Hnd' Hall'];
    [apply Hl; now left | exact Hnd | exact Hall |].
  apply IH; [|exact Hnd' | exact Hall'].
  intros f Hf. apply Hl. now right.
Qed.

(** What [load_institutional_pdfs] leaves in the object. *)
Lemma load_institutional_pdfs_fields
    (files : list (string * Exc (list string))) (st : Chatbot) :
  load_institutional_pdfs files st
  = (0 <? length (pdf_contents
                    (snd (load_institutional_pdfs files
                            (@fresh_chatbot Vec Vocab)))),
     set_pdf_contents
       (pdf_contents (snd (load_institutional_pdfs files
                             (@fresh_chatbot Vec Vocab)))) st).
Proof.
  unfold load_institutional_pdfs. destruct files as [|f files].
  - reflexivity.
  - set (l := f :: files). cbn [snd].
    rewrite (extract_loop_contents l (set_pdf_contents [] st)
               (set_pdf_contents [] fresh_chatbot)) by reflexivity.
    f_equal.
    rewrite <- (extract_loop_contents l (set_pdf_contents [] st)
                  (set_pdf_contents [] fresh_chatbot)) by reflexivity.
    eapply set_pdf_contents_trans; [apply extract_loop_fields|].
    now destruct st.
Qed.

(** Files that cannot be read, or give 100 characters or fewer, leave
    nothing. *)
Lemma extract_loop_unusable l : forall (st : Chatbot),
  Forall (fun f : string * Exc (list string) =>
            forall pages, snd f = Ok pages ->
              String.length (final_clean (pages_text pages)) <= 100) l ->
  fold_left (fun st f => extract_text_from_pdf (snd f) (fst f) st) l st = st.
Proof.
  induction l as [|[filename doc] l IH]; intros st H; cbn [fold_left fst snd];
    [reflexivity|].
  apply Forall_cons in H as [Hf Hl].
  assert (E : extract_text_from_pdf doc filename st = st).
  { unfold extract_text_from_pdf. destruct doc as [pages|e]; [|reflexivity].
    specialize (Hf pages eq_refl).
    destruct (Nat.ltb_spec 100 (String.length (final_clean (pages_text pages))));
      [lia | reflexivity]. }
  rewrite E. now apply IH.
Qed.

(** ** The hyphenation, read as a machine *)

Lemma join_word w : forall state rest,
  state = InWord \/ state = InSecond ->
  all_word w = true ->
  join_go state (w ++ rest)%string = (w ++ join_go state rest)%string.
Proof.
  induction w as [|c w IH]; intros state rest Hstate Hw; [reflexivity|].
  cbn [all_word] in Hw. apply andb_true_iff in Hw as [Hc Hw].
  rewrite !append_cons, join_go_cons.
  destruct Hstate as [-> | ->]; rewrite Hc; now rewrite IH by auto.
Qed.

Lemma join_space ws : forall pending rest,
  all_space ws = true ->
  join_go (AfterSpace pending) (ws ++ rest)%string
  = join_go (AfterSpace (pending ++ ws)%string) rest.
Proof.
  induction ws as [|c ws IH]; intros pending rest Hw.
  - now rewrite append_nil, append_nil_r.
  - cbn [all_space] in Hw. apply andb_true_iff in Hw as [Hc Hw].
    rewrite append_cons, join_go_cons, Hc, IH by exact Hw.
    now rewrite append_assoc.
Qed.

(** ** The properties *)

(** X22: The page-number substitution sees a page without line breaks, since
    the whitespace was collapsed before: it removes the whole page when
    the page is a number and nothing else, and it changes nothing on
    every other page. *)
Theorem clean_page_number_only page :
  clean_page page =
  if number_only (join_hyphenated (collapse_whitespace page))
  then EmptyString
  else join_hyphenated (collapse_whitespace page).
Proof.
  unfold clean_page. apply drop_page_numbers_no_newline.
  unfold join_hyphenated, collapse_whitespace.
  apply has_newline_join; [apply has_newline_collapse | discriminate].
Qed.

(** X23: The extraction removes only whitespace, digits and hyphens: the
    other characters of the text that is kept are those of the pages,
    all of them and in their order. *)
Theorem extract_text_keeps_letters pages :
  letters (final_clean (pages_text pages))
  = List.concat (List.map letters pages).
Proof.
  unfold final_clean, squeeze_newlines, pages_text.
  now rewrite letters_squeeze, letters_strip, letters_pages_loop.
Qed.

(** X24: [extract_text_from_pdf] leaves the object as it was when the file
    cannot be read or gives 100 characters or fewer; otherwise it only
    sets the entry of the file in [pdf_contents], to a text of more than
    100 characters that neither begins nor ends with whitespace and has
    no run of more than two line breaks. *)
Theorem extract_text_from_pdf_stored doc filename (st : Chatbot) :
  (((exists e, doc = Raise e) \/
    (exists pages, doc = Ok pages /\
       String.length (final_clean (pages_text pages)) <= 100)) /\
   extract_text_from_pdf doc filename st = st) \/
  exists pages text,
    doc = Ok pages /\ text = final_clean (pages_text pages) /\
    extract_text_from_pdf doc filename st
    = set_pdf_contents (dict_set (pdf_contents st) filename text) st /\
    100 < String.length text /\
    lstrip text = text /\ rstrip text = text /\
    no_long_run 0 text = true.
Proof.
  unfold extract_text_from_pdf. destruct doc as [pages|e].
  - destruct (Nat.ltb_spec 100
                (String.length (final_clean (pages_text pages))))
      as [Hlen|Hlen].
    + right. exists pages, (final_clean (pages_text pages)).
      split; [reflexivity|]. split; [reflexivity|]. split; [reflexivity|].
      split; [exact Hlen|]. unfold final_clean, squeeze_newlines.
      split; [apply lstrip_squeeze, lstrip_strip|].
      split; [apply rstrip_squeeze, rstrip_strip|].
      now apply no_long_run_squeeze.
    + left. split; [|reflexivity]. right. now exists pages.
  - left. split; [|reflexivity]. left. now exists e.
Qed.

(** X25: [load_institutional_pdfs] forgets the documents the object held and
    touches no other attribute; it returns [True] exactly when it
    stored a document; the stored names are distinct, and every stored
    text has more than 100 characters and is the cleaned text of a file
    of that name that was read. *)
Theorem load_institutional_pdfs_contents
    (files : list (string * Exc (list string))) (st : Chatbot) :
  pdf_contents (snd (load_institutional_pdfs files st))
    = pdf_contents (snd (load_institutional_pdfs files
                           (@fresh_chatbot Vec Vocab))) /\
  snd (load_institutional_pdfs files st)
    = set_pdf_contents (pdf_contents (snd (load_institutional_pdfs files st)))
                       st /\
  (fst (load_institutional_pdfs files st) = true <->
   pdf_contents (snd (load_institutional_pdfs files st)) <> []) /\
  List.NoDup (List.map fst
                (pdf_contents (snd (load_institutional_pdfs files st)))) /\
  Forall (stored_from files)
         (pdf_contents (snd (load_institutional_pdfs files st))).
Proof.
  unfold load_institutional_pdfs. destruct files as [|f files].
  - cbn [fst snd set_pdf_contents pdf_contents]. split; [reflexivity|].
    split; [reflexivity|]. split; [split; [discriminate | congruence]|].
    split; constructor.
  - set (l := f :: files). cbn [fst snd].
    split; [now apply extract_loop_contents|]. split.
    { eapply set_pdf_contents_trans; [apply extract_loop_fields|].
      now destruct st. }
    split.
    { destruct (pdf_contents (fold_left _ l _)); cbn [length]; split;
        try discriminate; try congruence; reflexivity. }
    apply extract_loop_inv; [auto | constructor | constructor].
Qed.

(** X26: A word cut by a hyphen and whitespace is put together again. *)
Theorem join_hyphenated_joins w1 ws w2 :
  w1 <> EmptyString -> all_word w1 = true ->
  ws <> EmptyString -> all_space ws = true ->
  w2 <> EmptyString -> all_word w2 = true ->
  join_hyphenated (w1 ++ String hyphen (ws ++ w2))%string = (w1 ++ w2)%string.
Proof.
  intros H1 Hw1 Hs Hws H2 Hw2. unfold join_hyphenated.
  destruct w1 as [|c1 w1]; [contradiction|].
  destruct ws as [|s1 ws]; [contradiction|].
  destruct w2 as [|c2 w2]; [contradiction|].
  cbn [all_word all_space] in *.
  apply andb_true_iff in Hw1 as [Hc1 Hw1], Hws as [Hs1 Hws], Hw2 as [Hc2 Hw2].
  rewrite !append_cons, join_go_cons, Hc1.
  rewrite (join_word w1 InWord) by auto.
  rewrite join_go_cons.
  assert (Hh : is_word hyphen = false) by reflexivity. rewrite Hh.
  assert (Hhh : (hyphen =? hyphen)%char = true) by reflexivity. rewrite Hhh.
  rewrite join_go_cons, Hs1, (join_space ws) by exact Hws.
  rewrite join_go_cons, (word_not_space c2 Hc2), Hc2.
  rewrite <- (append_nil_r w2) at 1.
  rewrite (join_word w2 InSecond) by auto.
  cbn [join_go]. now rewrite append_nil_r.
Qed.

End WithTypes.

(** ** A run on a sample *)

Lemma join_hyphenated_joins_witness :
  join_hyphenated ("infor" ++ String hyphen (" " ++ "mation"))%string
  = ("infor" ++ "mation")%string.
Proof.
  apply (join_hyphenated_joins "infor" " " "mation");
    solve [discriminate | reflexivity].
Defined.

End PdfMore.

(* ===================================================================== *)
(** * [initialize_chatbot]: the start of the application                  *)
(* ===================================================================== *)

Module StartMore.
Import PyStr ExcFacts Bot Pdf IndexFacts CacheFacts IndexMore CacheMore PdfMore
  Samples SamplesMore.

Section WithServices.
Context {Vec Vocab : Type}.
Variable S : Services Vec Vocab.

Local Abbreviation Chatbot := (Chatbot Vec Vocab).
Local Abbreviation File := (File Vec Vocab).

(** The documents that a start finds in [files]. *)
Local Abbreviation extracted_from files :=
  (pdf_contents (snd (load_institutional_pdfs files (@fresh_chatbot Vec Vocab)))).

(** [initialize_chatbot] is [initialize_index] on a new object and on
    the documents that [load_institutional_pdfs] extracts. *)
Lemma initialize_chatbot_index tok disk f files (fs : gmap string File) now
    identifier :
  initialize_chatbot S tok disk (f :: files) fs now identifier
  = initialize_index S tok disk (extracted_from (f :: files)) fs now identifier
      fresh_chatbot.
Proof.
  unfold initialize_chatbot, initialize_index.
  destruct (load_from_cache S fs now identifier fresh_chatbot)
    as [r st1] eqn:Hl.
  assert (Hrest :
    match load_institutional_pdfs (f :: files) st1 with
    | (true, chatbot) =>
        match create_chunks_and_embeddings S tok chatbot with
        | (Ok true, chatbot) =>
            (Some chatbot, save_to_cache S disk fs now identifier chatbot)
        | (_, _) => (None, fs)
        end
    | (false, _) => (None, fs)
    end
    = match pdf_contents
              (set_pdf_contents (extracted_from (f :: files)) st1) with
      | [] => (None, fs)
      | _ :: _ =>
          match create_chunks_and_embeddings S tok
                  (set_pdf_contents (extracted_from (f :: files)) st1) with
          | (Ok true, st) => (Some st, save_to_cache S disk fs now identifier st)
          | (_, _) => (None, fs)
          end
      end).
  { rewrite (load_institutional_pdfs_fields (f :: files) st1).
    cbn [pdf_contents set_pdf_contents].
    now destruct (extracted_from (f :: files)) as [|d ds] eqn:He. }
  destruct r as [[|]|e]; [reflexivity | exact Hrest | exact Hrest].
Qed.

(** ** The properties *)

(** X27: A start that returns no chatbot has written nothing.  A start that
    returns one either loaded it from the cache, and then it wrote
    nothing and the chatbot holds no document text, or built it from
    the documents it extracted and saved it; in both cases the chatbot
    has its embedding matrix. *)
Theorem initialize_chatbot_outcome tok disk files (fs fs' : gmap string File)
    now identifier r :
  initialize_chatbot S tok disk files fs now identifier = (r, fs') ->
  (r = None -> fs' = fs) /\
  (forall st, r = Some st ->
     (exists E, chunk_embeddings st = Some E) /\
     ((fs' = fs /\ pdf_contents st = []) \/
      (fs' = save_to_cache S disk fs now identifier st /\
       pdf_contents st = extracted_from files /\
       text_chunks st = all_chunks tok (pdf_contents st) /\
       text_chunks st <> []))).
Proof.
  destruct files as [|f files]; [intros [= <- <-]; split; [auto | discriminate]|].
  rewrite initialize_chatbot_index. unfold initialize_index.
  destruct (load_from_cache S fs now identifier fresh_chatbot)
    as [r1 st1] eqn:Hl.
  assert (Hbuild :
    match pdf_contents (set_pdf_contents (extracted_from (f :: files)) st1) with
    | [] => (None, fs)
    | _ :: _ =>
        match create_chunks_and_embeddings S tok
                (set_pdf_contents (extracted_from (f :: files)) st1) with
        | (Ok true, st) => (Some st, save_to_cache S disk fs now identifier st)
        | (_, _) => (None, fs)
        end
    end = (r, fs') ->
    (r = None -> fs' = fs) /\
    (forall st, r = Some st ->
       (exists E, chunk_embeddings st = Some E) /\
       ((fs' = fs /\ pdf_contents st = []) \/
        (fs' = save_to_cache S disk fs now identifier st /\
         pdf_contents st = extracted_from (f :: files) /\
         text_chunks st = all_chunks tok (pdf_contents st) /\
         text_chunks st <> [])))).
  { cbn [pdf_contents set_pdf_contents].
    destruct (extracted_from (f :: files)) as [|d ds] eqn:He;
      [intros [= <- <-]; split; [auto | discriminate]|].
    rewrite <- He.
    destruct (create_chunks_and_embeddings S tok _) as [[[|]|e] st2] eqn:Hc;
      try (intros [= <- <-]; split; [auto | discriminate]).
    intros [= <- <-]. split; [discriminate|]. intros st [= <-].
    pose proof (create_true_fields S tok _ _ Hc) as (E & voc & M & ->).
    cbn [pdf_contents set_pdf_contents text_chunks chunk_embeddings].
    split; [now exists E|]. right. split; [reflexivity|].
    split; [reflexivity|]. split; [reflexivity|].
    intros Hnil. rewrite create_cases in Hc.
    cbn [pdf_contents set_pdf_contents] in Hc. rewrite He, <- He in Hc.
    rewrite Hnil in Hc. rewrite He in Hc. discriminate. }
  destruct r1 as [[|]|e]; [|exact Hbuild | exact Hbuild].
  intros [= <- <-]. split; [discriminate|]. intros st [= <-].
  apply load_from_cache_true_fields in Hl as [Hp HE].
  split; [exact HE|]. left. split; [reflexivity | exact Hp].
Qed.

(** X28: When the cache has no valid entry and no file gives more than 100
    characters of text (a scan without a text layer, a file that cannot
    be opened), the start returns no chatbot. *)
Theorem initialize_chatbot_no_text tok disk files (fs : gmap string File) now
    identifier :
  is_cache_valid S fs now (get_cache_path S identifier) = false ->
  Forall (fun f : string * Exc (list string) =>
            forall pages, snd f = Ok pages ->
              String.length (final_clean (pages_text pages)) <= 100) files ->
  initialize_chatbot S tok disk files fs now identifier = (None, fs).
Proof.
  intros Hmiss Hfiles. destruct files as [|f files]; [reflexivity|].
  unfold initialize_chatbot.
  rewrite (load_from_cache_invalid S fs now identifier fresh_chatbot Hmiss).
  unfold load_institutional_pdfs.
  now rewrite (extract_loop_unusable (f :: files) _ Hfiles).
Qed.

(** X29: A start that misses the cache, builds the index and saves it on a
    disk that accepts every write is followed, for less than 90 days
    and as long as the fingerprint of the files is the same, by starts
    that load the same chunks, embeddings, vectorizer and matrix from
    the cache and write nothing; the chatbot of such a start holds no
    document text. *)
Theorem initialize_chatbot_then_cached tok disk files
    (fs fs1 : gmap string File) t0 t1 identifier (st1 : Chatbot) :
  (forall path, disk path = Written) ->
  isoformat S t0 <> EmptyString ->
  fromisoformat S (isoformat S t0) = Some t0 ->
  is_cache_valid S fs t0 (get_cache_path S identifier) = false ->
  initialize_chatbot S tok disk files fs t0 identifier = (Some st1, fs1) ->
  (t1 - t0 < timedelta_days Config.CACHE_DURATION_DAYS)%Z ->
  forall tok' disk' files',
    files' <> [] ->
    initialize_chatbot S tok' disk' files' fs1 t1 identifier =
    (Some (mkChatbot [] (text_chunks st1) (chunk_embeddings st1)
                     (tfidf_vectorizer st1) (tfidf_matrix st1)),
     fs1).
Proof.
  intros Hdisk Hne Hiso Hmiss Hinit Hlt tok' disk' files' Hfiles.
  destruct files as [|f files]; [discriminate|].
  destruct files' as [|f' files']; [contradiction|].
  rewrite initialize_chatbot_index in Hinit.
  rewrite initialize_chatbot_index.
  apply (initialize_index_cached_next S tok disk _ fs fs1 t0 t1 identifier
           fresh_chatbot st1 Hdisk Hne Hiso Hmiss Hinit Hlt).
Qed.

End WithServices.

(** ** Runs on the samples *)

Lemma initialize_chatbot_outcome_witness :
  (Some started_index = None -> started_cache = ∅) /\
  (forall st, Some started_index = Some st ->
     (exists E, chunk_embeddings st = Some E) /\
     ((started_cache = ∅ /\ pdf_contents st = []) \/
      (started_cache
         = save_to_cache (toy_services reliable) good_disk ∅ 0 cache_id st /\
       pdf_contents st
         = pdf_contents (snd (load_institutional_pdfs three_files
                                (@fresh_chatbot (list Q) unit))) /\
       text_chunks st = all_chunks no_punkt (pdf_contents st) /\
       text_chunks st <> []))).
Proof.
  apply (initialize_chatbot_outcome (toy_services reliable) no_punkt good_disk
           three_files ∅ started_cache 0 cache_id (Some started_index)).
  reflexivity.
Defined.

Lemma initialize_chatbot_no_text_witness :
  initialize_chatbot (toy_services reliable) no_punkt good_disk unusable_files
    ∅ 0 cache_id = (None, ∅).
Proof.
  apply (initialize_chatbot_no_text (toy_services reliable) no_punkt good_disk
           unusable_files ∅ 0 cache_id).
  - reflexivity.
  - constructor; [intros pages [= <-]; vm_compute; lia|].
    constructor; [intros pages H; discriminate H | constructor].
Defined.

Lemma initialize_chatbot_then_cached_witness :
  initialize_chatbot (toy_services reliable) no_punkt good_disk three_files
    started_cache one_day_later cache_id =
  (Some (mkChatbot [] (text_chunks started_index)
           (chunk_embeddings started_index)
           (tfidf_vectorizer started_index)
           (tfidf_matrix started_index)),
   started_cache).
Proof.
  apply (initialize_chatbot_then_cached (toy_services reliable) no_punkt
           good_disk three_files ∅ started_cache 0 one_day_later cache_id
           started_index).
  - reflexivity.
  - vm_compute. discriminate.
  - reflexivity.
  - reflexivity.
  - reflexivity.
  - vm_compute. reflexivity.
  - discriminate.
Defined.

End StartMore.

